(** * The LRU cache of [ENDLABEXAM2.py]

    A shallow embedding of the classes [CacheMetrics], [LRUNode] and
    [LRUCache]: the node objects live in an explicit object store, the
    lookup table and the sentinel-delimited doubly linked list hold
    references into it, and every method is a computation in a state and
    exception monad over the cache object. The clock ([time()]) is an
    input: each method that reads it takes the reading as an argument.

    The first part has the definitions: the objects, the monad, the
    methods (module [LRUCache], one definition per method of the class),
    and what the theorems are stated with. The second part has the lemmas
    on the linked list, the representation invariant, what each method
    does to a represented state, and the theorems C1 to C10. *)

From Stdlib Require Import ZArith Lia.
From stdpp Require Import gmap strings list fin_maps.

Set Default Proof Using "Type".

(** ** Python exceptions and outcomes *)

(** The exceptions the methods can raise: [ValueError] from the
    constructor, [AttributeError] from an attribute access on [None],
    [KeyError] from [del] on a missing key. [DanglingReference] stands for
    a reference to an object that is not in the store; Python has no such
    reference, and the model counts it as a failure so that totality
    includes its absence. *)
Inductive exn :=
  | ValueError (msg : string)
  | AttributeError
  | KeyError
  | DanglingReference.

Inductive outcome (A : Type) :=
  | Returns (a : A)
  | Raises (e : exn).
Arguments Returns {A} a.
Arguments Raises {A} e.

(** ** Objects *)

(** References to [LRUNode] objects. *)
Abbreviation loc := nat (only parsing).

(** [CacheMetrics] (a dataclass of Python integers). *)
Record CacheMetrics := mkMetrics {
  hits : Z;
  misses : Z;
  evictions : Z;
  total_requests : Z;
  cache_size : Z;
  max_size : Z
}.

(** [LRUNode]: [value] is a Python object, [None] being Python's [None];
    [prev] and [next] are references or [None]; [timestamp] is the reading
    of [time()] taken when the node is built or updated. *)
Record LRUNode (V Time : Type) := mkNode {
  key : string;
  value : option V;
  prev : option loc;
  next : option loc;
  timestamp : Time
}.
Arguments mkNode {V Time} key value prev next timestamp.
Arguments key {V Time} _.
Arguments value {V Time} _.
Arguments prev {V Time} _.
Arguments next {V Time} _.
Arguments timestamp {V Time} _.

(** [LRUCache]: the attributes of [self], and the store of the node
    objects that were allocated for it. *)
Record LRUCache (V Time : Type) := mkCache {
  capacity : Z;
  cache : gmap string loc;
  metrics : CacheMetrics;
  head : loc;
  tail : loc;
  heap : gmap loc (LRUNode V Time)
}.
Arguments mkCache {V Time} capacity cache metrics head tail heap.
Arguments capacity {V Time} _.
Arguments cache {V Time} _.
Arguments metrics {V Time} _.
Arguments head {V Time} _.
Arguments tail {V Time} _.
Arguments heap {V Time} _.

(** The operations of a client and what they return. *)
Inductive op (V : Type) :=
  | Get (k : string)
  | Put (k : string) (v : option V)
  | Delete (k : string)
  | Clear
  | Size
  | GetMetrics.
Arguments Get {V} k.
Arguments Put {V} k v.
Arguments Delete {V} k.
Arguments Clear {V}.
Arguments Size {V}.
Arguments GetMetrics {V}.

Inductive result (V : Type) :=
  | RGet (v : option V)
  | RPut (b : bool)
  | RDelete (b : bool)
  | RClear
  | RSize (n : Z)
  | RMetrics (m : CacheMetrics).
Arguments RGet {V} v.
Arguments RPut {V} b.
Arguments RDelete {V} b.
Arguments RClear {V}.
Arguments RSize {V} n.
Arguments RMetrics {V} m.

(** ** The state and exception monad of the methods *)

Definition M (S A : Type) : Type := S → outcome (A * S).

Definition ret {S A} (a : A) : M S A := λ s, Returns (a, s).

Definition bind {S A B} (f : A → M S B) (m : M S A) : M S B :=
  λ s, match m s with
       | Returns (a, s') => f a s'
       | Raises e => Raises e
       end.

Definition raise {S A} (e : exn) : M S A := λ _, Raises e.
Definition gets {S A} (f : S → A) : M S A := λ s, Returns (f s, s).
Definition modify {S} (f : S → S) : M S unit := λ s, Returns (tt, f s).

(** stdpp's notations [x ← m; k] and [m ;; k] for this monad. *)
#[global] Instance M_ret {S} : MRet (M S) := @ret S.
#[global] Instance M_bind {S} : MBind (M S) := @bind S.

(** Updates of one attribute. *)
Definition with_metrics {V Time} (f : CacheMetrics → CacheMetrics)
    (self : LRUCache V Time) : LRUCache V Time :=
  mkCache (capacity self) (cache self) (f (metrics self))
          (head self) (tail self) (heap self).

Definition with_cache {V Time} (f : gmap string loc → gmap string loc)
    (self : LRUCache V Time) : LRUCache V Time :=
  mkCache (capacity self) (f (cache self)) (metrics self)
          (head self) (tail self) (heap self).

Definition with_heap {V Time}
    (f : gmap loc (LRUNode V Time) → gmap loc (LRUNode V Time))
    (self : LRUCache V Time) : LRUCache V Time :=
  mkCache (capacity self) (cache self) (metrics self)
          (head self) (tail self) (f (heap self)).

Definition set_hits (n : Z) (m : CacheMetrics) : CacheMetrics :=
  mkMetrics n (misses m) (evictions m) (total_requests m) (cache_size m) (max_size m).
Definition set_misses (n : Z) (m : CacheMetrics) : CacheMetrics :=
  mkMetrics (hits m) n (evictions m) (total_requests m) (cache_size m) (max_size m).
Definition set_evictions (n : Z) (m : CacheMetrics) : CacheMetrics :=
  mkMetrics (hits m) (misses m) n (total_requests m) (cache_size m) (max_size m).
Definition set_total_requests (n : Z) (m : CacheMetrics) : CacheMetrics :=
  mkMetrics (hits m) (misses m) (evictions m) n (cache_size m) (max_size m).
Definition set_cache_size (n : Z) (m : CacheMetrics) : CacheMetrics :=
  mkMetrics (hits m) (misses m) (evictions m) (total_requests m) n (max_size m).

Definition set_value {V Time} (v : option V) (n : LRUNode V Time) :=
  mkNode (key n) v (prev n) (next n) (timestamp n).
Definition set_prev {V Time} (p : option loc) (n : LRUNode V Time) :=
  mkNode (key n) (value n) p (next n) (timestamp n).
Definition set_next {V Time} (p : option loc) (n : LRUNode V Time) :=
  mkNode (key n) (value n) (prev n) p (timestamp n).
Definition set_timestamp {V Time} (t : Time) (n : LRUNode V Time) :=
  mkNode (key n) (value n) (prev n) (next n) t.

(** ** The methods of [LRUCache] *)

Module LRUCache.
Section Methods.
Context {V Time : Type}.

#[local] Abbreviation Node := (LRUNode V Time).
#[local] Abbreviation Self := (LRUCache V Time).
#[local] Abbreviation Py := (M Self).

(** *** Access to node objects *)

(** The object a reference designates. *)
Definition load (l : loc) : Py Node :=
  λ self, match heap self !! l with
          | Some n => Returns (n, self)
          | None => Raises DanglingReference
          end.

(** An attribute assignment [l.f = ...] on a node object. *)
Definition store (l : loc) (f : Node → Node) : Py unit :=
  n ← load l; modify (with_heap (insert l (f n))).

(** The object of [r.attr] when [r] may be [None]. *)
Definition deref (r : option loc) : Py loc :=
  match r with
  | Some l => ret l
  | None => raise AttributeError
  end.

(** [LRUNode(key, value)], with [now] the reading of [time()]. *)
Definition new_LRUNode (k : string) (v : option V) (now : Time) : Py loc :=
  l ← gets (λ self, fresh (dom (heap self)));
  modify (with_heap (insert l (mkNode k v None None now)));;
  ret l.

(** *** The linked list *)

(** [node.prev, node.next = self.head, self.head.next;
     self.head.next.prev = node; self.head.next = node] *)
Definition _add_node (node : loc) : Py unit :=
  h ← gets head;
  hd ← load h;
  store node (set_prev (Some h));;
  store node (set_next (next hd));;
  h1 ← gets head;
  hd1 ← load h1;
  first ← deref (next hd1);
  store first (set_prev (Some node));;
  h2 ← gets head;
  store h2 (set_next (Some node)).

(** [node.prev.next, node.next.prev = node.next, node.prev]: both right
    hand sides are read first, the targets are then evaluated and assigned
    from left to right. *)
Definition _remove_node (node : loc) : Py unit :=
  nd ← load node;
  nd1 ← load node;
  p ← deref (prev nd1);
  store p (set_next (next nd));;
  nd2 ← load node;
  n ← deref (next nd2);
  store n (set_prev (prev nd)).

Definition _move_to_head (node : loc) : Py unit :=
  _remove_node node;;
  _add_node node.

(** [last == self.head] is the identity of objects; [_remove_node(last)]
    on [None] fails at its first attribute access. *)
Definition _pop_tail : Py (option loc) :=
  t ← gets tail;
  tl ← load t;
  h ← gets head;
  if decide (prev tl = Some h) then ret None
  else
    last ← deref (prev tl);
    _remove_node last;;
    ret (Some last).

(** *** The public methods *)

Definition get (k : string) : Py (option V) :=
  modify (with_metrics (λ m, set_total_requests (total_requests m + 1) m));;
  node ← gets (λ self, cache self !! k);
  match node with
  | None =>
      modify (with_metrics (λ m, set_misses (misses m + 1) m));;
      ret None
  | Some node =>
      _move_to_head node;;
      modify (with_metrics (λ m, set_hits (hits m + 1) m));;
      nd ← load node;
      ret (value nd)
  end.

(** [del self.cache[k]] *)
Definition cache_del (k : string) : Py unit :=
  λ self, match cache self !! k with
          | Some _ => Returns (tt, with_cache (base.delete k) self)
          | None => Raises KeyError
          end.

(** [self.metrics.cache_size = len(self.cache)] *)
Definition refresh_cache_size : Py unit :=
  modify (λ self,
    with_metrics (set_cache_size (Z.of_nat (base.size (cache self)))) self).

(** The block [if len(self.cache) >= self.capacity: ...] of [put]; a node
    object is always true in [if tail:]. *)
Definition evict_if_full : Py unit :=
  full ← gets (λ self,
            bool_decide (capacity self ≤ Z.of_nat (base.size (cache self)))%Z);
  if (full : bool) then
    tail ← _pop_tail;
    match tail with
    | Some tail =>
        tl ← load tail;
        cache_del (key tl);;
        modify (with_metrics (λ m, set_evictions (evictions m + 1) m))
    | None => ret tt
    end
  else ret tt.

Definition put (now : Time) (k : string) (v : option V) : Py bool :=
  node ← gets (λ self, cache self !! k);
  match node with
  | None =>
      new_node ← new_LRUNode k v now;
      evict_if_full;;
      modify (with_cache (insert k new_node));;
      _add_node new_node;;
      refresh_cache_size;;
      ret true
  | Some node =>
      store node (set_value v);;
      store node (set_timestamp now);;
      _move_to_head node;;
      ret false
  end.

Definition delete (k : string) : Py bool :=
  node ← gets (λ self, cache self !! k);
  match node with
  | None => ret false
  | Some node =>
      _remove_node node;;
      cache_del k;;
      refresh_cache_size;;
      ret true
  end.

(** [self.cache.clear();
     self.head.next, self.tail.prev = self.tail, self.head;
     self.metrics.cache_size = 0] *)
Definition clear : Py unit :=
  modify (with_cache (λ _, ∅));;
  t ← gets tail;
  h ← gets head;
  h1 ← gets head;
  store h1 (set_next (Some t));;
  t1 ← gets tail;
  store t1 (set_prev (Some h));;
  modify (with_metrics (set_cache_size 0)).

Definition size : Py Z :=
  gets (λ self, Z.of_nat (base.size (cache self))).

Definition get_metrics : Py CacheMetrics :=
  refresh_cache_size;;
  gets metrics.

(** [LRUCache(capacity)]: [t_head] and [t_tail] are the readings of
    [time()] in the constructors of the two sentinels. *)
Definition __init__ (capacity : Z) (t_head t_tail : Time) : outcome Self :=
  if bool_decide (capacity ≤ 0)%Z then
    Raises (ValueError "Capacity must be greater than 0")
  else
    let h := fresh (dom (∅ : gmap loc Node)) in
    let heap1 := <[h := mkNode "" None None None t_head]> (∅ : gmap loc Node) in
    let t := fresh (dom heap1) in
    let heap2 := <[t := mkNode "" None None None t_tail]> heap1 in
    let self := mkCache capacity ∅ (mkMetrics 0 0 0 0 0 capacity) h t heap2 in
    match (store h (set_next (Some t));; store t (set_prev (Some h))) self with
    | Returns (_, self) => Returns self
    | Raises e => Raises e
    end.

(** The default of the parameter [capacity]. *)
Definition default_capacity : Z := 100.

(** *** Clients *)

(** One call; [now] is the reading of the clock a call of [put] makes. *)
Definition call (now : Time) (o : op V) : Py (result V) :=
  match o with
  | Get k => v ← get k; ret (RGet v)
  | Put k v => b ← put now k v; ret (RPut b)
  | Delete k => b ← delete k; ret (RDelete b)
  | Clear => clear;; ret RClear
  | Size => n ← size; ret (RSize n)
  | GetMetrics => m ← get_metrics; ret (RMetrics m)
  end.

(** A sequence of calls, each with the reading of the clock at its time. *)
Fixpoint run (script : list (Time * op V)) : Py (list (result V)) :=
  match script with
  | [] => ret []
  | (now, o) :: script =>
      r ← call now o;
      rs ← run script;
      ret (r :: rs)
  end.

(** *** The states inside [put] *)

(** [after m k self]: the state [m] leaves from [self], then the states
    that [k] lists from there on; nothing when [m] raises. *)
Definition after {A} (m : Py A) (k : A → Self → list Self) (self : Self)
    : list Self :=
  match m self with
  | Returns (a, self') => self' :: k a self'
  | Raises _ => []
  end.

(** The states after each statement of the block
    [if len(self.cache) >= self.capacity: ...]. *)
Definition evict_points (self : Self) : list Self :=
  if bool_decide (capacity self ≤ Z.of_nat (base.size (cache self)))%Z then
    after _pop_tail (λ tail,
      match tail with
      | Some tail =>
          after (tl ← load tail; cache_del (key tl)) (λ _,
          after (modify (with_metrics
                           (λ m, set_evictions (evictions m + 1) m)))
                (λ _ _, []))
      | None => λ _, []
      end) self
  else [].

(** The states [put] passes through, in order: after each statement of the
    branch it takes, down to the assignments of [_remove_node] and
    [_add_node] taken as two steps. *)
Definition put_points (now : Time) (k : string) (v : option V)
    (self : Self) : list Self :=
  match cache self !! k with
  | None =>
      after (new_LRUNode k v now) (λ new_node self1,
        evict_points self1
        ++ match evict_if_full self1 with
           | Returns (_, self2) =>
               after (modify (with_cache (insert k new_node))) (λ _,
               after (_add_node new_node) (λ _,
               after refresh_cache_size (λ _ _, []))) self2
           | Raises _ => []
           end) self
  | Some node =>
      after (store node (set_value v)) (λ _,
      after (store node (set_timestamp now)) (λ _,
      after (_remove_node node) (λ _,
      after (_add_node node) (λ _ _, [])))) self
  end.

End Methods.
End LRUCache.

(** ** Definitions for the specification *)

Section Definitions.
Context {V Time : Type}.
Implicit Types (self : LRUCache V Time) (h : gmap loc (LRUNode V Time)).
Implicit Types (l : loc) (ls xs : list loc) (k : string) (v : option V).

(** What a reference's object holds in one attribute. *)
Definition nxt h l : option loc := h !! l ≫= next.
Definition prv h l : option loc := h !! l ≫= prev.

(** [chain h xs]: in [h], each element of [xs] has its successor in [xs] as
    [next], and each has its predecessor as [prev]. *)
Fixpoint chain h xs : Prop :=
  match xs with
  | a :: (b :: _) as rest => nxt h a = Some b ∧ prv h b = Some a ∧ chain h rest
  | _ => True
  end.

(** The key and the value of the node at [l]. *)
Definition entry h l : string * option V :=
  match h !! l with
  | Some nd => (key nd, value nd)
  | None => (""%string, None)
  end.

(** [Rep self ls]: the nodes between the two sentinels are [ls], most
    recently used first, and the table maps exactly their keys to them. *)
Record Rep self ls : Prop := mkRep {
  rep_nodup : NoDup (head self :: ls ++ [tail self]);
  rep_chain : chain (heap self) (head self :: ls ++ [tail self]);
  rep_table : ∀ k l,
    cache self !! k = Some l ↔ l ∈ ls ∧ (entry (heap self) l).1 = k
}.

(** The keys and values on the list, most recently used first. *)
Definition view self ls : list (string * option V) := entry (heap self) <$> ls.

(** Following [next] from [cur] until the reference [stop]. *)
Fixpoint walk h (stop : loc) (fuel : nat) (cur : option loc)
    : option (list loc) :=
  match fuel, cur with
  | S fuel, Some l =>
      if decide (l = stop) then Some []
      else (l ::.) <$> walk h stop fuel (nxt h l)
  | _, _ => None
  end.

(** The nodes strictly between the sentinels, from [self.head.next] on. *)
Definition recency_list self : option (list loc) :=
  walk (heap self) (tail self) (size (heap self))
       (nxt (heap self) (head self)).

(** The keys and values in recency order, most recently used first. *)
Definition recency_entries self : option (list (string * option V)) :=
  view self <$> recency_list self.

(** [len(self.cache) >= self.capacity] *)
Definition is_full self : Prop :=
  (capacity self ≤ Z.of_nat (size (cache self)))%Z.

(** What [get] leaves in the counters on a hit and on a miss. *)
Definition count_hit (m : CacheMetrics) : CacheMetrics :=
  set_hits (hits m + 1) (set_total_requests (total_requests m + 1) m).
Definition count_miss (m : CacheMetrics) : CacheMetrics :=
  set_misses (misses m + 1) (set_total_requests (total_requests m + 1) m).

(** What [put] leaves in the counters when it evicts. *)
Definition count_eviction (m : CacheMetrics) : CacheMetrics :=
  set_evictions (evictions m + 1) m.

(** The three request counters. *)
Definition requests (m : CacheMetrics) : Z * Z * Z :=
  (hits m, misses m, total_requests m).

(** The states a client can bring a cache to. *)
Inductive reachable : LRUCache V Time → Prop :=
  | reachable_init c t_head t_tail self :
      LRUCache.__init__ c t_head t_tail = Returns self →
      reachable self
  | reachable_call self now o r self' :
      reachable self →
      LRUCache.call now o self = Returns (r, self') →
      reachable self'.

(** What holds of every reachable state. *)
Record Inv self ls : Prop := mkInv {
  inv_rep : Rep self ls;
  inv_capacity : (0 < capacity self)%Z;
  inv_length : (Z.of_nat (length ls) ≤ capacity self)%Z;
  inv_requests :
    (hits (metrics self) + misses (metrics self)
     = total_requests (metrics self))%Z;
  inv_max_size : max_size (metrics self) = capacity self
}.

(** Computations that only touch the store of nodes. *)
Definition heap_only {A} (m : M (LRUCache V Time) A) : Prop :=
  ∀ self a self', m self = Returns (a, self') →
    cache self' = cache self ∧ capacity self' = capacity self.

(** The script that puts the given pairs in order. *)
Definition put_script (kvs : list (Time * (string * option V)))
    : list (Time * op V) :=
  (λ p, (p.1, Put p.2.1 p.2.2)) <$> kvs.

(** A whole session: construction, then a script. *)
Definition session (c : Z) (t_head t_tail : Time)
    (script : list (Time * op V))
    : outcome (list (result V) * LRUCache V Time) :=
  match LRUCache.__init__ c t_head t_tail with
  | Returns self => LRUCache.run script self
  | Raises e => Raises e
  end.

(** [get k] followed by [put k' v'] of a key that is not resident keeps [k]:
    the node [l] of [k] is moved to the front by the [get], the [put] evicts
    the last node [victim] of the others, and [k] is still retrievable. *)
Definition refreshed_key_survives self k (now : Time) k' v' : Prop :=
  ∃ v self1 self2 self3 (l lnew victim : loc) pre post ls0,
    LRUCache.get k self = Returns (v, self1)
    ∧ LRUCache.put now k' v' self1 = Returns (true, self2)
    ∧ cache self !! k = Some l
    ∧ recency_list self = Some (pre ++ l :: post)
    ∧ pre ++ post = ls0 ++ [victim]
    ∧ recency_list self1 = Some (l :: ls0 ++ [victim])
    ∧ recency_list self2 = Some (lnew :: l :: ls0)
    ∧ cache self2
      = <[k':=lnew]> (delete (entry (heap self) victim).1 (cache self))
    ∧ cache self2 !! k = Some l
    ∧ LRUCache.get k self2 = Returns (v, self3).

End Definitions.

(** *** Clock readings *)

Section ClockDefinitions.
Context {V T T' : Type} (f : T → T').

(** Changing the clock readings stored in the nodes, and nothing else. *)
Definition node_map (n : LRUNode V T) : LRUNode V T' :=
  mkNode (key n) (value n) (prev n) (next n) (f (timestamp n)).

Definition cache_map (self : LRUCache V T) : LRUCache V T' :=
  mkCache (capacity self) (cache self) (metrics self)
          (head self) (tail self) (node_map <$> heap self).

(** The same calls, at other clock readings. *)
Definition script_map (script : list (T * op V)) : list (T' * op V) :=
  (λ p, (f p.1, p.2)) <$> script.

(** The image of what a computation returns. *)
Definition outcome_map {A B} (g : A → B) (o : outcome A) : outcome B :=
  match o with
  | Returns a => Returns (g a)
  | Raises e => Raises e
  end.

(** [natural g m m']: run on a state with other clock readings, [m'] does
    what [m] does, and returns the image under [g] of what [m] returns. *)
Definition natural {A B} (g : A → B)
    (m : M (LRUCache V T) A) (m' : M (LRUCache V T') B) : Prop :=
  ∀ self,
    m' (cache_map self) = outcome_map (λ p, (g p.1, cache_map p.2)) (m self).

End ClockDefinitions.

Section ObservationDefinitions.
Context {V Time : Type}.

(** Forgetting the timestamps. *)
Definition erase (self : LRUCache V Time) : LRUCache V () :=
  cache_map (λ _, ()) self.

(** What a client can tell of a session: the results of the calls, in
    order, and the final object without its timestamps (the table, the
    counters, the list). *)
Definition observe (o : outcome (list (result V) * LRUCache V Time))
    : outcome (list (result V) * LRUCache V ()) :=
  outcome_map (λ p, (p.1, erase p.2)) o.

End ObservationDefinitions.

(** The calls [put("a", "1"); put("b", "2")], at times 1 and 2. *)
Definition two_puts : list (Z * op string) :=
  [(1%Z, Put "a" (Some "1")); (2%Z, Put "b" (Some "2"))].

(** The results of the calls of a session whose clock always reads 0, as
    the tests of the repository look at them. *)
Definition results_of (c : Z) (calls : list (op string))
    : outcome (list (result string)) :=
  match session c 0%Z 0%Z ((λ o, (0%Z, o)) <$> calls) with
  | Returns (rs, _) => Returns rs
  | Raises e => Raises e
  end.

(** ** [ProductPageCache] *)

(** The class [ProductPageCache] holds one [LRUCache] in its attribute
    [cache] and passes [get_product] and [cache_product] on to it.
    [get_stats] formats floating point rates and is not part of the
    model. *)
Module ProductPageCache.

Record t (V Time : Type) := mk { cache : LRUCache V Time }.
Arguments mk {V Time} cache.
Arguments cache {V Time} _.

Section Methods.
Context {V Time : Type}.

(** A method call on [self.cache], which changes that object in place. *)
Definition on_cache {A} (m : M (LRUCache V Time) A) : M (t V Time) A :=
  λ self, match m (cache self) with
          | Returns (a, c) => Returns (a, mk c)
          | Raises e => Raises e
          end.

(** [ProductPageCache(capacity)]: the exception of [LRUCache(capacity)]
    is not caught. *)
Definition __init__ (capacity : Z) (t_head t_tail : Time)
    : outcome (t V Time) :=
  match LRUCache.__init__ capacity t_head t_tail with
  | Returns c => Returns (mk c)
  | Raises e => Raises e
  end.

Definition get_product (product_id : string) : M (t V Time) (option V) :=
  on_cache (LRUCache.get product_id).

Definition cache_product (now : Time) (product_id : string)
    (product_data : option V) : M (t V Time) bool :=
  on_cache (LRUCache.put now product_id product_data).

(** The default of the parameter [capacity]. *)
Definition default_capacity : Z := 100.

End Methods.
End ProductPageCache.

(** ** More definitions for the properties of the methods *)

Section MoreDefinitions.
Context {V Time : Type}.
Implicit Types (self : LRUCache V Time) (h : gmap loc (LRUNode V Time)).
Implicit Types (l : loc) (ls : list loc) (k : string) (v : option V).

(** The timestamp of the node at [l]. *)
Definition stamp h l : option Time := timestamp <$> h !! l.

(** [keeps_stamps m]: [m] leaves every node that exists in the store, with
    the timestamp it has. *)
Definition keeps_stamps {A} (m : M (LRUCache V Time) A) : Prop :=
  ∀ self a self', m self = Returns (a, self') →
    ∀ l t, stamp (heap self) l = Some t → stamp (heap self') l = Some t.

(** What the results of a sequence of calls add to the number of entries:
    one for each [put] that returned [True], minus one for each [delete]
    that returned [True]. *)
Fixpoint net_inserted (rs : list (result V)) : Z :=
  match rs with
  | [] => 0
  | RPut true :: rs => 1 + net_inserted rs
  | RDelete true :: rs => -1 + net_inserted rs
  | _ :: rs => net_inserted rs
  end.

End MoreDefinitions.

(** ** The cache as a list *)

Section ListModel.
Context {V : Type}.
Implicit Types (k : string) (al : list (string * option V)).

(** The value of the first pair with key [k]. *)
Fixpoint assoc k al : option (option V) :=
  match al with
  | [] => None
  | (k', v) :: al => if decide (k' = k) then Some v else assoc k al
  end.

(** The pairs with another key than [k]. *)
Definition without k al : list (string * option V) :=
  filter (λ e, e.1 ≠ k) al.

(** An LRU cache of positive capacity [c] as a list of pairs, most
    recently used first, with its counters: what each call returns and
    leaves. *)
Definition list_call (c : Z) (o : op V)
    (st : list (string * option V) * CacheMetrics)
    : result V * (list (string * option V) * CacheMetrics) :=
  let '(al, m) := st in
  match o with
  | Get k =>
      match assoc k al with
      | Some v => (RGet v, ((k, v) :: without k al, count_hit m))
      | None => (RGet None, (al, count_miss m))
      end
  | Put k v =>
      match assoc k al with
      | Some _ => (RPut false, ((k, v) :: without k al, m))
      | None =>
          if bool_decide (c ≤ Z.of_nat (length al))%Z then
            let al' := (k, v) :: removelast al in
            (RPut true,
             (al', set_cache_size (Z.of_nat (length al')) (count_eviction m)))
          else
            let al' := (k, v) :: al in
            (RPut true, (al', set_cache_size (Z.of_nat (length al')) m))
      end
  | Delete k =>
      match assoc k al with
      | Some _ =>
          let al' := without k al in
          (RDelete true, (al', set_cache_size (Z.of_nat (length al')) m))
      | None => (RDelete false, (al, m))
      end
  | Clear => (RClear, ([], set_cache_size 0 m))
  | Size => (RSize (Z.of_nat (length al)), (al, m))
  | GetMetrics =>
      let m' := set_cache_size (Z.of_nat (length al)) m in
      (RMetrics m', (al, m'))
  end.

Fixpoint list_run (c : Z) (calls : list (op V))
    (st : list (string * option V) * CacheMetrics)
    : list (result V) * (list (string * option V) * CacheMetrics) :=
  match calls with
  | [] => ([], st)
  | o :: calls =>
      let '(r, st') := list_call c o st in
      let '(rs, st'') := list_run c calls st' in
      (r :: rs, st'')
  end.

End ListModel.

(** * Lemmas and theorems *)

(** ** The shape of the object store *)

Section Chain.
Context {V Time : Type}.
Implicit Types (h : gmap loc (LRUNode V Time)) (l p n : loc) (xs ys : list loc).

Lemma nxt_insert h p nd l :
  nxt (<[p:=nd]> h) l = if decide (p = l) then next nd else nxt h l.
Proof. unfold nxt. rewrite lookup_insert. by case_decide. Qed.

Lemma prv_insert h p nd l :
  prv (<[p:=nd]> h) l = if decide (p = l) then prev nd else prv h l.
Proof. unfold prv. rewrite lookup_insert. by case_decide. Qed.

Lemma nxt_Some h l n : nxt h l = Some n → ∃ nd, h !! l = Some nd ∧ next nd = Some n.
Proof. unfold nxt. destruct (h !! l) as [nd|]; naive_solver. Qed.

Lemma prv_Some h l p : prv h l = Some p → ∃ nd, h !! l = Some nd ∧ prev nd = Some p.
Proof. unfold prv. destruct (h !! l) as [nd|]; naive_solver. Qed.

(** Assigning one link attribute leaves the other one alone. *)
Lemma nxt_set_next h p nd v l :
  nxt (<[p:=set_next v nd]> h) l = if decide (p = l) then v else nxt h l.
Proof. by rewrite nxt_insert. Qed.

Lemma nxt_set_prev h p nd v l :
  h !! p = Some nd → nxt (<[p:=set_prev v nd]> h) l = nxt h l.
Proof.
  intros H. rewrite nxt_insert. case_decide; [subst|done].
  unfold nxt. by rewrite H.
Qed.

Lemma prv_set_prev h p nd v l :
  prv (<[p:=set_prev v nd]> h) l = if decide (p = l) then v else prv h l.
Proof. by rewrite prv_insert. Qed.

Lemma prv_set_next h p nd v l :
  h !! p = Some nd → prv (<[p:=set_next v nd]> h) l = prv h l.
Proof.
  intros H. rewrite prv_insert. case_decide; [subst|done].
  unfold prv. by rewrite H.
Qed.

Lemma chain_cons h a b xs :
  chain h (a :: b :: xs) ↔ nxt h a = Some b ∧ prv h b = Some a ∧ chain h (b :: xs).
Proof. done. Qed.

Lemma chain_app h xs a ys :
  chain h (xs ++ a :: ys) ↔ chain h (xs ++ [a]) ∧ chain h (a :: ys).
Proof.
  induction xs as [|x [|y xs] IH].
  - simpl. tauto.
  - simpl. destruct ys; simpl; tauto.
  - change ((x :: y :: xs) ++ a :: ys) with (x :: y :: (xs ++ a :: ys)).
    change ((x :: y :: xs) ++ [a]) with (x :: y :: (xs ++ [a])).
    rewrite !chain_cons. simpl in IH. tauto.
Qed.

(** A chain reads neither [next] of its last element nor [prev] of its
    first. *)
Lemma chain_agree h h' xs :
  (∀ i l, xs !! i = Some l → S i < length xs → nxt h' l = nxt h l) →
  (∀ i l, xs !! S i = Some l → prv h' l = prv h l) →
  chain h xs → chain h' xs.
Proof.
  induction xs as [|a [|b xs] IH]; [done..|].
  intros Hn Hp. rewrite !chain_cons. intros (Ha & Hb & Hc).
  split_and!.
  - rewrite (Hn 0 a); [done..|simpl; lia].
  - by rewrite (Hp 0 b).
  - apply IH; [| |done].
    + intros i l Hi Hlt. apply (Hn (S i)); [done|simpl in *; lia].
    + intros i l Hi. by apply (Hp (S i)).
Qed.

(** Every element of a chain of two elements or more is allocated. *)
Lemma chain_alloc h xs l :
  chain h xs → 2 ≤ length xs → l ∈ xs → is_Some (h !! l).
Proof.
  induction xs as [|a [|b xs] IH]; simpl; [lia..|].
  intros (Ha & Hb & Hc) _ Hl.
  apply elem_of_cons in Hl as [->|Hl].
  - apply nxt_Some in Ha as (? & -> & _). eauto.
  - destruct xs as [|c xs].
    + apply list_elem_of_singleton in Hl as ->.
      apply prv_Some in Hb as (? & -> & _). eauto.
    + apply IH; [done|simpl; lia|done].
Qed.

End Chain.

#[global] Arguments chain {V Time} h xs : simpl never.

(** ** Running the monad *)

Section Run.
Context {S : Type}.

Lemma run_bind {A B} (m : M S A) (f : A → M S B) s :
  (m ≫= f) s = match m s with
               | Returns (a, s') => f a s'
               | Raises e => Raises e
               end.
Proof. done. Qed.

Lemma run_ret {A} (a : A) (s : S) : ret a s = Returns (a, s).
Proof. done. Qed.

Lemma run_gets {A} (f : S → A) s : gets f s = Returns (f s, s).
Proof. done. Qed.

Lemma run_modify (f : S → S) s : modify f s = Returns (tt, f s).
Proof. done. Qed.

Lemma run_bind_Returns {A B} (m : M S A) (f : A → M S B) s a s' :
  m s = Returns (a, s') → (m ≫= f) s = f a s'.
Proof. intros H. by rewrite run_bind, H. Qed.

Lemma run_bind_Raises {A B} (m : M S A) (f : A → M S B) s e :
  m s = Raises e → (m ≫= f) s = Raises e.
Proof. intros H. by rewrite run_bind, H. Qed.

End Run.

Section NodeAccess.
Context {V Time : Type}.
Implicit Types (self : LRUCache V Time) (nd : LRUNode V Time).

Lemma run_load self l nd :
  heap self !! l = Some nd → LRUCache.load l self = Returns (nd, self).
Proof. intros H. unfold LRUCache.load. by rewrite H. Qed.

Lemma run_store self l nd f :
  heap self !! l = Some nd →
  LRUCache.store l f self = Returns (tt, with_heap (insert l (f nd)) self).
Proof.
  intros H. unfold LRUCache.store.
  by rewrite (run_bind_Returns _ _ _ _ _ (run_load _ _ _ H)).
Qed.

Lemma run_deref self l : LRUCache.deref (Some l) self = Returns (l, self).
Proof. done. Qed.

End NodeAccess.

(** ** Splicing *)

Section Splice.
Context {V Time : Type}.
Implicit Types (self : LRUCache V Time) (h : gmap loc (LRUNode V Time)).
Implicit Types (l p n : loc) (xs ys pre post : list loc).

Lemma entry_insert h p nd l :
  entry (<[p:=nd]> h) l = if decide (p = l) then (key nd, value nd) else entry h l.
Proof. unfold entry. rewrite lookup_insert. by case_decide. Qed.

(** [_remove_node] takes an inner element out of a chain. *)
Lemma remove_node_spec self pre l post :
  pre ≠ [] → post ≠ [] →
  NoDup (pre ++ l :: post) →
  chain (heap self) (pre ++ l :: post) →
  ∃ h', LRUCache._remove_node l self = Returns (tt, with_heap (λ _, h') self)
      ∧ chain h' (pre ++ post)
      ∧ dom h' = dom (heap self)
      ∧ h' !! l = heap self !! l
      ∧ (∀ x, entry h' x = entry (heap self) x)
      ∧ (∀ ys, (∀ y, y ∈ ys → y ∉ pre ++ l :: post) →
               chain (heap self) ys → chain h' ys).
Proof.
  intros Hpre Hpost Hnd Hch.
  destruct (exists_last Hpre) as (pre' & p & ->).
  destruct post as [|n post]; [done|]. clear Hpre Hpost.
  rewrite <-app_assoc in Hnd, Hch. simpl in Hnd, Hch.
  apply chain_app in Hch as [Hch1 Hch2].
  apply chain_cons in Hch2 as (Hpl & Hlp & Hch2).
  apply chain_cons in Hch2 as (Hln & Hnl & Hch2).
  apply NoDup_app in Hnd as (Hnd1 & Hnd2 & Hnd3).
  apply NoDup_cons in Hnd3 as [Hp Hnd3].
  apply NoDup_cons in Hnd3 as [Hl Hnd3].
  apply NoDup_cons in Hnd3 as [Hn Hnd3].
  assert (p ≠ l) as Hpl' by set_solver.
  assert (p ≠ n) as Hpn' by set_solver.
  assert (l ≠ n) as Hln' by set_solver.
  destruct (nxt_Some _ _ _ Hpl) as (pd & Hpd & Hpd').
  destruct (nxt_Some _ _ _ Hln) as (ld & Hld & Hld').
  destruct (prv_Some _ _ _ Hlp) as (ld' & Hld1 & Hld1').
  destruct (prv_Some _ _ _ Hnl) as (nd & Hnd' & Hnd'').
  assert (ld' = ld) as -> by congruence.
  set (h1 := <[p := set_next (Some n) pd]> (heap self)).
  set (h2 := <[n := set_prev (Some p) nd]> h1).
  exists h2.
  assert (h1 !! n = Some nd) as Hh1n
    by (unfold h1; by rewrite lookup_insert_ne).
  assert (h1 !! l = Some ld) as Hh1l
    by (unfold h1; by rewrite lookup_insert_ne).
  assert (dom h2 = dom (heap self)) as Hdom.
  { unfold h2, h1. rewrite !dom_insert_L.
    apply elem_of_dom_2 in Hpd, Hnd'. set_solver. }
  assert (h2 !! l = heap self !! l) as Hl2
    by (unfold h2, h1; by rewrite !lookup_insert_ne).
  assert (∀ x, entry h2 x = entry (heap self) x) as Hent.
  { intros x. unfold h2, h1. rewrite !entry_insert.
    repeat case_decide; subst; unfold entry; simplify_map_eq; done. }
  assert (∀ x, nxt h2 x = if decide (p = x) then Some n else nxt (heap self) x)
    as Hnxt.
  { intros x. unfold h2. rewrite (nxt_set_prev _ _ _ _ _ Hh1n).
    unfold h1. apply nxt_set_next. }
  assert (∀ x, prv h2 x = if decide (n = x) then Some p else prv (heap self) x)
    as Hprv.
  { intros x. unfold h2. rewrite prv_set_prev. case_decide; [done|].
    unfold h1. by rewrite (prv_set_next _ _ _ _ _ Hpd). }
  assert (LRUCache._remove_node l self
          = Returns (tt, with_heap (λ _, h2) self)) as Hrun.
  { unfold LRUCache._remove_node.
    rewrite (run_bind_Returns _ _ _ _ _ (run_load _ _ _ Hld)).
    rewrite (run_bind_Returns _ _ _ _ _ (run_load _ _ _ Hld)).
    rewrite Hld1', Hld'.
    rewrite (run_bind_Returns _ _ _ _ _ (run_deref _ _)).
    rewrite (run_bind_Returns _ _ _ _ _ (run_store _ _ _ _ Hpd)).
    rewrite (run_bind_Returns _ _ _ _ _ (run_load (with_heap _ self) _ _ Hh1l)).
    rewrite Hld'.
    rewrite (run_bind_Returns _ _ _ _ _ (run_deref _ _)).
    by rewrite (run_store (with_heap _ self) _ _ _ Hh1n). }
  clearbody h2.
  split_and!.
  - done.
  - rewrite <-app_assoc. simpl. apply chain_app. split.
    + revert Hch1. apply chain_agree.
      * intros i x Hi Hlt. rewrite Hnxt.
        rewrite length_app in Hlt. simpl in Hlt.
        assert (x ∈ pre') as Hx.
        { rewrite lookup_app_l in Hi by lia.
          by apply list_elem_of_lookup_2 in Hi. }
        case_decide; set_solver.
      * intros i x Hi. rewrite Hprv.
        assert (x ∈ pre' ++ [p]) as Hx by by apply list_elem_of_lookup_2 in Hi.
        case_decide; set_solver.
    + apply chain_cons. split_and!.
      * rewrite Hnxt. by case_decide.
      * rewrite Hprv. by case_decide.
      * revert Hch2. apply chain_agree.
        -- intros i x Hi Hlt. rewrite Hnxt.
           assert (x ∈ n :: post) as Hx by by apply list_elem_of_lookup_2 in Hi.
           case_decide; set_solver.
        -- intros i x Hi. rewrite Hprv.
           assert (x ∈ post) as Hx by (by eapply list_elem_of_lookup_2, Hi).
           case_decide; set_solver.
  - done.
  - done.
  - done.
  - intros ys Hys. setoid_rewrite <-app_assoc in Hys. simpl in Hys.
    apply chain_agree.
    + intros i x Hi _. apply list_elem_of_lookup_2, Hys in Hi.
      rewrite Hnxt. case_decide; set_solver.
    + intros i x Hi. apply list_elem_of_lookup_2, Hys in Hi.
      rewrite Hprv. case_decide; set_solver.
Qed.

(** [_add_node] puts an allocated node that is not on the chain right
    after the head sentinel. *)
Lemma add_node_spec self l first rest :
  NoDup (head self :: first :: rest) →
  chain (heap self) (head self :: first :: rest) →
  l ∉ head self :: first :: rest →
  is_Some (heap self !! l) →
  ∃ h', LRUCache._add_node l self = Returns (tt, with_heap (λ _, h') self)
      ∧ chain h' (head self :: l :: first :: rest)
      ∧ dom h' = dom (heap self)
      ∧ (∀ x, entry h' x = entry (heap self) x).
Proof.
  intros Hnd Hch Hl [ld Hld].
  apply chain_cons in Hch as (Hhf & Hfh & Hch).
  apply NoDup_cons in Hnd as [Hh Hnd].
  apply NoDup_cons in Hnd as [Hf Hnd].
  assert (head self ≠ l) as Hhl by set_solver.
  assert (first ≠ l) as Hfl by set_solver.
  assert (head self ≠ first) as Hhf' by set_solver.
  destruct (nxt_Some _ _ _ Hhf) as (hd & Hhd & Hhd').
  destruct (prv_Some _ _ _ Hfh) as (fd & Hfd & Hfd').
  set (h1 := <[l := set_prev (Some (head self)) ld]> (heap self)).
  set (h2 := <[l := set_next (Some first) (set_prev (Some (head self)) ld)]> h1).
  set (h3 := <[first := set_prev (Some l) fd]> h2).
  set (h4 := <[head self := set_next (Some l) hd]> h3).
  assert (h1 !! l = Some (set_prev (Some (head self)) ld)) as H1l
    by (unfold h1; by rewrite lookup_insert_eq).
  assert (h2 !! head self = Some hd) as H2h
    by (unfold h2, h1; by rewrite !lookup_insert_ne).
  assert (h2 !! first = Some fd) as H2f
    by (unfold h2, h1; by rewrite !lookup_insert_ne).
  assert (h3 !! head self = Some hd) as H3h
    by (unfold h3; by rewrite lookup_insert_ne).
  exists h4.
  assert (LRUCache._add_node l self
          = Returns (tt, with_heap (λ _, h4) self)) as Hrun.
  { unfold LRUCache._add_node.
    rewrite (run_bind_Returns _ _ _ _ _ (run_gets _ _)).
    rewrite (run_bind_Returns _ _ _ _ _ (run_load _ _ _ Hhd)).
    rewrite Hhd'.
    rewrite (run_bind_Returns _ _ _ _ _ (run_store _ _ _ _ Hld)).
    rewrite (run_bind_Returns _ _ _ _ _ (run_store (with_heap _ self) _ _ _ H1l)).
    rewrite (run_bind_Returns _ _ _ _ _ (run_gets _ _)).
    rewrite (run_bind_Returns _ _ _ _ _
               (run_load (with_heap _ (with_heap _ self)) _ _ H2h)).
    rewrite Hhd'.
    rewrite (run_bind_Returns _ _ _ _ _ (run_deref _ _)).
    rewrite (run_bind_Returns _ _ _ _ _
               (run_store (with_heap _ (with_heap _ self)) _ _ _ H2f)).
    rewrite (run_bind_Returns _ _ _ _ _ (run_gets _ _)).
    by rewrite (run_store (with_heap _ (with_heap _ (with_heap _ self)))
                  _ _ _ H3h). }
  assert (∀ x, nxt h4 x = if decide (head self = x) then Some l
                          else if decide (l = x) then Some first
                          else nxt (heap self) x) as Hnxt.
  { intros x. unfold h4. rewrite nxt_set_next. case_decide; [done|].
    unfold h3. rewrite (nxt_set_prev _ _ _ _ _ H2f).
    unfold h2. rewrite nxt_set_next. case_decide; [done|].
    unfold h1. by rewrite (nxt_set_prev _ _ _ _ _ Hld). }
  assert (∀ x, prv h4 x = if decide (first = x) then Some l
                          else if decide (l = x) then Some (head self)
                          else prv (heap self) x) as Hprv.
  { intros x. unfold h4. rewrite (prv_set_next _ _ _ _ _ H3h).
    unfold h3. rewrite prv_set_prev. case_decide; [done|].
    unfold h2. rewrite (prv_set_next _ _ _ _ _ H1l).
    unfold h1. by rewrite prv_set_prev. }
  assert (dom h4 = dom (heap self)) as Hdom.
  { unfold h4, h3, h2, h1. rewrite !dom_insert_L.
    apply elem_of_dom_2 in Hld, Hhd, Hfd. set_solver. }
  assert (∀ x, entry h4 x = entry (heap self) x) as Hent.
  { intros x. unfold h4, h3, h2, h1. rewrite !entry_insert.
    repeat case_decide; subst; unfold entry; simplify_map_eq; done. }
  clearbody h4. clear h1 h2 h3 H1l H2h H2f H3h.
  split_and!; [done| |done..].
  rewrite !chain_cons. split_and!.
  - rewrite Hnxt. by case_decide.
  - rewrite Hprv. repeat case_decide; done.
  - rewrite Hnxt. repeat case_decide; done.
  - rewrite Hprv. by case_decide.
  - revert Hch. apply chain_agree.
    + intros i x Hi _. rewrite Hnxt.
      assert (x ∈ first :: rest) as Hx by (by eapply list_elem_of_lookup_2, Hi).
      repeat case_decide; set_solver.
    + intros i x Hi. rewrite Hprv.
      assert (x ∈ rest) as Hx by (by eapply list_elem_of_lookup_2, Hi).
      repeat case_decide; set_solver.
Qed.

End Splice.

(** ** The representation invariant *)

Section Rep.
Context {V Time : Type}.
Implicit Types (self : LRUCache V Time) (h : gmap loc (LRUNode V Time)).
Implicit Types (l : loc) (ls pre post : list loc) (k : string).

Lemma Rep_alloc self ls l :
  Rep self ls → l ∈ head self :: ls ++ [tail self] → is_Some (heap self !! l).
Proof.
  intros [_ Hch _] Hl. eapply chain_alloc; [done| |done].
  simpl. rewrite length_app. simpl. lia.
Qed.

Lemma Rep_keys_inj self ls l1 l2 :
  Rep self ls → l1 ∈ ls → l2 ∈ ls →
  (entry (heap self) l1).1 = (entry (heap self) l2).1 → l1 = l2.
Proof.
  intros [_ _ Ht] H1 H2 Heq.
  assert (cache self !! (entry (heap self) l1).1 = Some l1) as E1
    by by apply Ht.
  assert (cache self !! (entry (heap self) l1).1 = Some l2) as E2
    by by apply Ht.
  congruence.
Qed.

Lemma Rep_NoDup self ls : Rep self ls → NoDup ls.
Proof.
  intros [Hnd _ _]. apply NoDup_cons in Hnd as [_ Hnd].
  by apply NoDup_app in Hnd as [? _].
Qed.

Lemma Rep_keys_NoDup self ls : Rep self ls → NoDup (view self ls).*1.
Proof.
  intros HR. unfold view. rewrite <-list_fmap_compose.
  apply NoDup_fmap_2_strong; [|by eapply Rep_NoDup].
  intros l1 l2 H1 H2 Heq. by eapply Rep_keys_inj.
Qed.

Lemma Rep_dom self ls :
  Rep self ls → dom (cache self) = list_to_set (view self ls).*1.
Proof.
  intros [_ _ Ht]. apply set_eq. intros k.
  rewrite elem_of_dom, elem_of_list_to_set. unfold view.
  rewrite <-list_fmap_compose, list_elem_of_fmap. split.
  - intros [l Hl]. apply Ht in Hl as [Hl <-]. eauto.
  - intros (l & -> & Hl). exists l. by apply Ht.
Qed.

(** The table has as many keys as the list has nodes. *)
Lemma Rep_size self ls : Rep self ls → size (cache self) = length ls.
Proof.
  intros HR. rewrite <-size_dom, (Rep_dom _ _ HR).
  rewrite size_list_to_set by by apply Rep_keys_NoDup.
  unfold view. by rewrite !length_fmap.
Qed.

Lemma Rep_lookup_None self ls k :
  Rep self ls → cache self !! k = None ↔ k ∉ (view self ls).*1.
Proof.
  intros HR. rewrite <-not_elem_of_dom, (Rep_dom _ _ HR).
  by rewrite elem_of_list_to_set.
Qed.

(** Changing the order of the nodes, with the table and the entries kept. *)
Lemma Rep_reorder self self' ls ls' :
  Rep self ls →
  NoDup (head self' :: ls' ++ [tail self']) →
  chain (heap self') (head self' :: ls' ++ [tail self']) →
  cache self' = cache self →
  (∀ l, l ∈ ls' ↔ l ∈ ls) →
  (∀ l, l ∈ ls → (entry (heap self') l).1 = (entry (heap self) l).1) →
  Rep self' ls'.
Proof.
  intros [_ _ Ht] Hnd Hch Hc Hl He. split; [done..|].
  intros k l. rewrite Hc, Ht, Hl. split; intros [? ?]; split; try done.
  - by rewrite He.
  - by rewrite <-He.
Qed.

End Rep.
(** ** What each method does to a represented state *)

Section Specs.
Context {V Time : Type}.
Implicit Types (self : LRUCache V Time) (h : gmap loc (LRUNode V Time)).
Implicit Types (l : loc) (ls pre post : list loc) (k : string) (v : option V).

Lemma move_to_head_spec self pre l post :
  NoDup (head self :: (pre ++ l :: post) ++ [tail self]) →
  chain (heap self) (head self :: (pre ++ l :: post) ++ [tail self]) →
  ∃ h', LRUCache._move_to_head l self = Returns (tt, with_heap (λ _, h') self)
      ∧ NoDup (head self :: (l :: pre ++ post) ++ [tail self])
      ∧ chain h' (head self :: (l :: pre ++ post) ++ [tail self])
      ∧ dom h' = dom (heap self)
      ∧ (∀ x, entry h' x = entry (heap self) x).
Proof.
  intros Hnd Hch.
  assert (head self :: (pre ++ l :: post) ++ [tail self]
          = (head self :: pre) ++ l :: (post ++ [tail self])) as E
    by (by rewrite <-app_assoc).
  rewrite E in Hnd, Hch.
  destruct (remove_node_spec self (head self :: pre) l (post ++ [tail self]))
    as (h1 & Hrun1 & Hch1 & Hdom1 & Hl1 & Hent1 & _); [done| |done..|].
  { by destruct post. }
  assert (NoDup (head self :: l :: pre ++ post ++ [tail self])) as Hnd'.
  { eapply NoDup_Permutation_proper; [|exact Hnd]. simpl.
    apply Permutation_skip, Permutation_middle. }
  assert (is_Some (heap self !! l)) as Hl.
  { eapply chain_alloc; [exact Hch| |set_solver].
    simpl. rewrite !length_app. simpl. lia. }
  destruct (pre ++ post ++ [tail self]) as [|first rest] eqn:Erest.
  { by destruct pre, post. }
  simpl in Hch1. rewrite Erest in Hch1.
  destruct (add_node_spec (with_heap (λ _, h1) self) l first rest)
    as (h2 & Hrun2 & Hch2 & Hdom2 & Hent2); simpl.
  - apply NoDup_cons in Hnd' as [? Hnd']. apply NoDup_cons in Hnd' as [? Hnd'].
    apply NoDup_cons. split; [set_solver|done].
  - done.
  - apply NoDup_cons in Hnd' as [? Hnd']. apply NoDup_cons in Hnd' as [? Hnd'].
    set_solver.
  - by rewrite Hl1.
  - exists h2. simpl in *. split_and!.
    + unfold LRUCache._move_to_head.
      by rewrite (run_bind_Returns _ _ _ _ _ Hrun1), Hrun2.
    + by rewrite <-app_assoc, Erest.
    + by rewrite <-app_assoc, Erest.
    + congruence.
    + intros x. by rewrite Hent2, Hent1.
Qed.

Lemma get_miss_spec self k :
  cache self !! k = None →
  LRUCache.get k self = Returns (None, with_metrics count_miss self).
Proof.
  intros Hk. unfold LRUCache.get.
  rewrite (run_bind_Returns _ _ _ _ _ (run_modify _ _)).
  rewrite (run_bind_Returns _ _ _ _ _ (run_gets _ _)).
  simpl. rewrite Hk.
  by rewrite (run_bind_Returns _ _ _ _ _ (run_modify _ _)).
Qed.

Lemma Rep_with_metrics self f ls : Rep (with_metrics f self) ls ↔ Rep self ls.
Proof. split; intros [? ? ?]; by split. Qed.

Lemma get_hit_spec self pre l post k :
  Rep self (pre ++ l :: post) →
  cache self !! k = Some l →
  ∃ h', let self' := mkCache (capacity self) (cache self)
                       (count_hit (metrics self)) (head self) (tail self) h' in
        LRUCache.get k self = Returns ((entry (heap self) l).2, self')
      ∧ Rep self' (l :: pre ++ post)
      ∧ dom h' = dom (heap self)
      ∧ (∀ x, entry h' x = entry (heap self) x).
Proof.
  intros HR Hk. pose proof HR as [Hnd Hch Ht].
  set (self1 := with_metrics
                  (λ m, set_total_requests (total_requests m + 1) m) self).
  destruct (move_to_head_spec self1 pre l post)
    as (h' & Hrun & Hnd' & Hch' & Hdom & Hent); [done..|].
  exists h'. simpl.
  assert (is_Some (heap self !! l)) as Hl
    by (eapply Rep_alloc; [done|set_solver]).
  assert (is_Some (h' !! l)) as [ld Hld].
  { apply elem_of_dom. rewrite Hdom. by apply elem_of_dom. }
  split_and!; [| |done..].
  - unfold LRUCache.get.
    rewrite (run_bind_Returns _ _ _ _ _ (run_modify _ _)).
    rewrite (run_bind_Returns _ _ _ _ _ (run_gets _ _)).
    simpl. rewrite Hk.
    rewrite (run_bind_Returns _ _ _ _ _ Hrun).
    rewrite (run_bind_Returns _ _ _ _ _ (run_modify _ _)).
    erewrite run_bind_Returns; [|by apply run_load].
    rewrite run_ret. f_equal. f_equal.
    rewrite <-Hent. unfold entry. by rewrite Hld.
  - eapply (Rep_reorder self); [done..| |].
    + intros x. set_solver.
    + intros x _. simpl. by rewrite Hent.
Qed.

(** *** Eviction *)

Lemma pop_tail_empty self :
  chain (heap self) [head self; tail self] →
  LRUCache._pop_tail self = Returns (None, self).
Proof.
  intros (_ & Hp & _)%chain_cons.
  destruct (prv_Some _ _ _ Hp) as (tl & Htl & Htl').
  unfold LRUCache._pop_tail.
  rewrite (run_bind_Returns _ _ _ _ _ (run_gets _ _)).
  rewrite (run_bind_Returns _ _ _ _ _ (run_load _ _ _ Htl)).
  rewrite (run_bind_Returns _ _ _ _ _ (run_gets _ _)).
  by rewrite decide_True.
Qed.

Lemma pop_tail_spec self ls0 last :
  NoDup (head self :: (ls0 ++ [last]) ++ [tail self]) →
  chain (heap self) (head self :: (ls0 ++ [last]) ++ [tail self]) →
  ∃ h', LRUCache._pop_tail self
        = Returns (Some last, with_heap (λ _, h') self)
      ∧ chain h' (head self :: ls0 ++ [tail self])
      ∧ dom h' = dom (heap self)
      ∧ h' !! last = heap self !! last
      ∧ (∀ x, entry h' x = entry (heap self) x).
Proof.
  intros Hnd Hch.
  assert (head self :: (ls0 ++ [last]) ++ [tail self]
          = (head self :: ls0) ++ last :: [tail self]) as E
    by (by rewrite <-app_assoc).
  rewrite E in Hnd, Hch.
  destruct (remove_node_spec self (head self :: ls0) last [tail self])
    as (h1 & Hrun1 & Hch1 & Hdom1 & Hl1 & Hent1 & _); [done..|].
  exists h1. split_and!; [|done..].
  apply chain_app in Hch as [_ (_ & Hp & _)%chain_cons].
  destruct (prv_Some _ _ _ Hp) as (tl & Htl & Htl').
  assert (last ≠ head self) as Hne.
  { apply NoDup_cons in Hnd as [Hnd _]. set_solver. }
  unfold LRUCache._pop_tail.
  rewrite (run_bind_Returns _ _ _ _ _ (run_gets _ _)).
  rewrite (run_bind_Returns _ _ _ _ _ (run_load _ _ _ Htl)).
  rewrite (run_bind_Returns _ _ _ _ _ (run_gets _ _)).
  rewrite Htl', decide_False by congruence.
  rewrite (run_bind_Returns _ _ _ _ _ (run_deref _ _)).
  by rewrite (run_bind_Returns _ _ _ _ _ Hrun1).
Qed.

Lemma evict_not_full self :
  ¬ is_full self → LRUCache.evict_if_full self = Returns (tt, self).
Proof.
  intros Hf. unfold LRUCache.evict_if_full.
  rewrite (run_bind_Returns _ _ _ _ _ (run_gets _ _)).
  by rewrite bool_decide_eq_false_2.
Qed.

Lemma evict_full_spec self ls0 last :
  Rep self (ls0 ++ [last]) →
  is_full self →
  ∃ h', let self' := mkCache (capacity self)
                       (delete (entry (heap self) last).1 (cache self))
                       (count_eviction (metrics self))
                       (head self) (tail self) h' in
        LRUCache.evict_if_full self = Returns (tt, self')
      ∧ Rep self' ls0
      ∧ dom h' = dom (heap self)
      ∧ (∀ x, entry h' x = entry (heap self) x).
Proof.
  intros HR Hf. pose proof HR as [Hnd Hch Ht].
  destruct (pop_tail_spec self ls0 last)
    as (h' & Hrun & Hch' & Hdom & Hl & Hent); [done..|].
  exists h'. simpl.
  assert (is_Some (heap self !! last)) as [ld Hld]
    by (eapply Rep_alloc; [done|set_solver]).
  assert (cache self !! key ld = Some last) as Hk.
  { apply Ht. split; [set_solver|]. unfold entry. by rewrite Hld. }
  assert ((entry (heap self) last).1 = key ld) as Ek
    by (unfold entry; by rewrite Hld).
  split_and!; [| |done..].
  - unfold LRUCache.evict_if_full.
    rewrite (run_bind_Returns _ _ _ _ _ (run_gets _ _)).
    rewrite bool_decide_eq_true_2 by done.
    rewrite (run_bind_Returns _ _ _ _ _ Hrun).
    erewrite run_bind_Returns;
      [|apply run_load; simpl; by rewrite Hl, Hld].
    erewrite run_bind_Returns;
      [|unfold LRUCache.cache_del; simpl; by rewrite Hk].
    rewrite run_modify. by rewrite Ek.
  - assert (NoDup (head self :: ls0 ++ [tail self])) as Hnd'.
    { revert Hnd. rewrite <-app_assoc. simpl.
      rewrite !NoDup_cons, !NoDup_app, !NoDup_cons. set_solver. }
    split; simpl; [done..|].
    intros k l. rewrite Hent, Ek.
    destruct (decide (k = key ld)) as [->|Hne].
    + rewrite lookup_delete_eq. split; [done|]. intros [Hin Hkey].
      assert (cache self !! key ld = Some l) as Hk'
        by (apply Ht; set_solver).
      assert (l = last) as -> by congruence.
      apply NoDup_cons in Hnd as [_ Hnd].
      rewrite <-app_assoc in Hnd. apply NoDup_app in Hnd as (_ & Hnd & _).
      set_solver.
    + rewrite lookup_delete_ne by done. rewrite Ht.
      split; intros [Hin Hkey]; (split; [|done]); [|set_solver].
      apply elem_of_app in Hin as [?|Hin]; [done|].
      apply list_elem_of_singleton in Hin as ->. congruence.
Qed.

(** *** Allocation and insertion *)

Lemma chain_ext h h' xs :
  (∀ x, x ∈ xs → nxt h' x = nxt h x) →
  (∀ x, x ∈ xs → prv h' x = prv h x) →
  chain h xs → chain h' xs.
Proof.
  intros Hn Hp. apply chain_agree.
  - intros i x Hi _. apply Hn. by eapply list_elem_of_lookup_2.
  - intros i x Hi. apply Hp. by eapply list_elem_of_lookup_2, Hi.
Qed.

Lemma new_LRUNode_spec self ls k v now :
  Rep self ls →
  let lnew := fresh (dom (heap self)) in
  let self' := with_heap (insert lnew (mkNode k v None None now)) self in
  LRUCache.new_LRUNode k v now self = Returns (lnew, self')
  ∧ Rep self' ls
  ∧ heap self !! lnew = None
  ∧ lnew ∉ head self :: ls ++ [tail self].
Proof.
  intros HR lnew self'. pose proof HR as [Hnd Hch Ht].
  assert (heap self !! lnew = None) as Hnew
    by (apply not_elem_of_dom, is_fresh).
  assert (lnew ∉ head self :: ls ++ [tail self]) as Hnotin.
  { intros Hin. eapply Rep_alloc in Hin as [? ?]; [|done]. congruence. }
  split_and!; [done| |done..].
  split; simpl; [done| |].
  - revert Hch. apply chain_ext; intros x Hx.
    + rewrite nxt_insert. case_decide; [by subst|done].
    + rewrite prv_insert. case_decide; [by subst|done].
  - intros k' l. rewrite Ht. rewrite entry_insert.
    case_decide; [subst|done]. set_solver.
Qed.

(** [self.cache[key] = new_node; self._add_node(new_node)] *)
Lemma insert_spec self ls k lnew :
  Rep self ls →
  cache self !! k = None →
  lnew ∉ head self :: ls ++ [tail self] →
  is_Some (heap self !! lnew) →
  (entry (heap self) lnew).1 = k →
  ∃ h', let self' := mkCache (capacity self) (<[k:=lnew]> (cache self))
                       (metrics self) (head self) (tail self) h' in
        LRUCache._add_node lnew (with_cache (insert k lnew) self)
        = Returns (tt, self')
      ∧ Rep self' (lnew :: ls)
      ∧ dom h' = dom (heap self)
      ∧ (∀ x, entry h' x = entry (heap self) x).
Proof.
  intros HR Hk Hnotin Hl Hkey. pose proof HR as [Hnd Hch Ht].
  destruct (ls ++ [tail self]) as [|first rest] eqn:E; [by destruct ls|].
  destruct (add_node_spec (with_cache (insert k lnew) self) lnew first rest)
    as (h' & Hrun & Hch' & Hdom & Hent); [done..|].
  exists h'. simpl in *. split_and!; [done| |done..].
  - split; simpl.
    + rewrite E. apply NoDup_cons in Hnd as [Hh Hnd].
      apply not_elem_of_cons in Hnotin as [Hne Hnotin].
      apply NoDup_cons. split; [|by apply NoDup_cons].
      apply not_elem_of_cons. by split.
    + by rewrite E.
    + intros k' l. rewrite Hent. rewrite lookup_insert.
      case_decide as Hkk.
      * subst k'. split; [intros [= <-]; set_solver|].
        intros [[->|Hin]%elem_of_cons Hkey']; [done|].
        assert (cache self !! k = Some l) as Hc by (apply Ht; done).
        congruence.
      * rewrite Ht. split; intros [Hin Hkey']; (split; [|done]); [set_solver|].
        apply elem_of_cons in Hin as [->|?]; [congruence|done].
Qed.

(** *** [put] *)

Lemma put_new_spec self ls now k v :
  Rep self ls →
  cache self !! k = None →
  ¬ is_full self →
  ∃ h', let lnew := fresh (dom (heap self)) in
        let cache' := <[k:=lnew]> (cache self) in
        let self' := mkCache (capacity self) cache'
                       (set_cache_size (Z.of_nat (size cache')) (metrics self))
                       (head self) (tail self) h' in
        LRUCache.put now k v self = Returns (true, self')
      ∧ Rep self' (lnew :: ls)
      ∧ entry h' lnew = (k, v)
      ∧ (∀ x, x ∈ ls → entry h' x = entry (heap self) x).
Proof.
  intros HR Hk Hf.
  destruct (new_LRUNode_spec self ls k v now HR)
    as (Hrun1 & HR1 & Hnew & Hnotin).
  set (lnew := fresh (dom (heap self))) in *.
  set (self1 := with_heap (insert lnew (mkNode k v None None now)) self) in *.
  destruct (insert_spec self1 ls k lnew)
    as (h' & Hrun2 & HR2 & Hdom & Hent); [done..| | |].
  { simpl. rewrite lookup_insert_eq. eauto. }
  { simpl. rewrite entry_insert. by rewrite decide_True. }
  exists h'. simpl in *. split_and!.
  - unfold LRUCache.put.
    rewrite (run_bind_Returns _ _ _ _ _ (run_gets _ _)). rewrite Hk.
    rewrite (run_bind_Returns _ _ _ _ _ Hrun1).
    rewrite (run_bind_Returns _ _ _ _ _ (evict_not_full self1 Hf)).
    rewrite (run_bind_Returns _ _ _ _ _ (run_modify _ _)).
    rewrite (run_bind_Returns _ _ _ _ _ Hrun2).
    unfold LRUCache.refresh_cache_size.
    by rewrite (run_bind_Returns _ _ _ _ _ (run_modify _ _)).
  - destruct HR2; by split.
  - rewrite Hent, entry_insert. by rewrite decide_True.
  - intros x Hx. rewrite Hent, entry_insert.
    case_decide; [subst|done]. exfalso. apply Hnotin. set_solver.
Qed.

Lemma put_new_evict_spec self ls0 last now k v :
  Rep self (ls0 ++ [last]) →
  cache self !! k = None →
  is_full self →
  ∃ h', let lnew := fresh (dom (heap self)) in
        let cache' := <[k:=lnew]>
                        (delete (entry (heap self) last).1 (cache self)) in
        let self' := mkCache (capacity self) cache'
                       (set_cache_size (Z.of_nat (size cache'))
                          (count_eviction (metrics self)))
                       (head self) (tail self) h' in
        LRUCache.put now k v self = Returns (true, self')
      ∧ Rep self' (lnew :: ls0)
      ∧ entry h' lnew = (k, v)
      ∧ (∀ x, x ∈ ls0 ++ [last] → entry h' x = entry (heap self) x).
Proof.
  intros HR Hk Hf.
  destruct (new_LRUNode_spec self _ k v now HR)
    as (Hrun1 & HR1 & Hnew & Hnotin).
  set (lnew := fresh (dom (heap self))) in *.
  set (self1 := with_heap (insert lnew (mkNode k v None None now)) self) in *.
  destruct (evict_full_spec self1 ls0 last HR1 Hf)
    as (h2 & Hrun2 & HR2 & Hdom2 & Hent2).
  assert (lnew ≠ last) as Hne.
  { intros ->. apply Hnotin. set_solver. }
  assert (entry (heap self1) last = entry (heap self) last) as Elast.
  { simpl. rewrite entry_insert. by rewrite decide_False. }
  rewrite Elast in Hrun2, HR2.
  set (self2 := mkCache (capacity self1)
                  (delete (entry (heap self) last).1 (cache self1))
                  (count_eviction (metrics self1))
                  (head self1) (tail self1) h2) in *.
  destruct (insert_spec self2 ls0 k lnew)
    as (h' & Hrun3 & HR3 & Hdom3 & Hent3); [done| | | | |].
  { simpl. by rewrite lookup_delete_None; right. }
  { simpl. clear -Hnotin. set_solver. }
  { simpl. apply elem_of_dom. rewrite Hdom2. simpl.
    rewrite dom_insert_L. set_solver. }
  { simpl. rewrite Hent2. simpl. rewrite entry_insert.
    by rewrite decide_True. }
  exists h'. simpl in *. split_and!.
  - unfold LRUCache.put.
    rewrite (run_bind_Returns _ _ _ _ _ (run_gets _ _)). rewrite Hk.
    rewrite (run_bind_Returns _ _ _ _ _ Hrun1).
    rewrite (run_bind_Returns _ _ _ _ _ Hrun2).
    rewrite (run_bind_Returns _ _ _ _ _ (run_modify _ _)).
    rewrite (run_bind_Returns _ _ _ _ _ Hrun3).
    unfold LRUCache.refresh_cache_size.
    by rewrite (run_bind_Returns _ _ _ _ _ (run_modify _ _)).
  - destruct HR3; by split.
  - rewrite Hent3, Hent2, entry_insert. by rewrite decide_True.
  - intros x Hx. rewrite Hent3, Hent2, entry_insert.
    case_decide; [subst|done]. exfalso. apply Hnotin. clear -Hx. set_solver.
Qed.

Lemma put_update_spec self pre l post now k v :
  Rep self (pre ++ l :: post) →
  cache self !! k = Some l →
  ∃ h', let self' := mkCache (capacity self) (cache self) (metrics self)
                       (head self) (tail self) h' in
        LRUCache.put now k v self = Returns (false, self')
      ∧ Rep self' (l :: pre ++ post)
      ∧ dom h' = dom (heap self)
      ∧ entry h' l = (k, v)
      ∧ (∀ x, x ≠ l → entry h' x = entry (heap self) x).
Proof.
  intros HR Hk. pose proof HR as [Hnd Hch Ht].
  assert (is_Some (heap self !! l)) as [ld Hld]
    by (eapply Rep_alloc; [done|set_solver]).
  assert (key ld = k) as Hkey.
  { apply Ht in Hk as [_ Hk]. unfold entry in Hk. by rewrite Hld in Hk. }
  set (nd1 := set_value v ld).
  set (nd2 := set_timestamp now nd1).
  set (self2 := with_heap (insert l nd2) (with_heap (insert l nd1) self)).
  destruct (move_to_head_spec self2 pre l post)
    as (h' & Hrun & Hnd' & Hch' & Hdom & Hent); [done| |].
  { revert Hch. simpl. apply chain_ext; intros x _.
    - rewrite !nxt_insert. case_decide; [subst|done]. unfold nxt. by rewrite Hld.
    - rewrite !prv_insert. case_decide; [subst|done]. unfold prv. by rewrite Hld. }
  exists h'. simpl in *.
  assert (∀ x, entry h' x = if decide (l = x) then (k, v)
                            else entry (heap self) x) as Hent'.
  { intros x. rewrite Hent, !entry_insert. case_decide; [|done].
    simpl. by rewrite Hkey. }
  split_and!.
  - unfold LRUCache.put.
    rewrite (run_bind_Returns _ _ _ _ _ (run_gets _ _)). rewrite Hk.
    rewrite (run_bind_Returns _ _ _ _ _ (run_store _ _ _ _ Hld)).
    erewrite run_bind_Returns;
      [|apply run_store; simpl; apply lookup_insert_eq].
    by rewrite (run_bind_Returns _ _ _ _ _ Hrun).
  - eapply (Rep_reorder self); [done..| |].
    + intros x. set_solver.
    + intros x Hx. simpl. rewrite Hent'. case_decide; [subst x|done].
      simpl. unfold entry. by rewrite Hld.
  - rewrite Hdom, !dom_insert_L. apply elem_of_dom_2 in Hld. set_solver.
  - rewrite Hent'. by rewrite decide_True.
  - intros x Hx. rewrite Hent'. by rewrite decide_False.
Qed.

(** *** [delete] and [clear] *)

Lemma delete_miss_spec self k :
  cache self !! k = None → LRUCache.delete k self = Returns (false, self).
Proof.
  intros Hk. unfold LRUCache.delete.
  rewrite (run_bind_Returns _ _ _ _ _ (run_gets _ _)). by rewrite Hk.
Qed.

Lemma delete_hit_spec self pre l post k :
  Rep self (pre ++ l :: post) →
  cache self !! k = Some l →
  ∃ h', let cache' := delete k (cache self) in
        let self' := mkCache (capacity self) cache'
                       (set_cache_size (Z.of_nat (size cache')) (metrics self))
                       (head self) (tail self) h' in
        LRUCache.delete k self = Returns (true, self')
      ∧ Rep self' (pre ++ post)
      ∧ dom h' = dom (heap self)
      ∧ (∀ x, entry h' x = entry (heap self) x).
Proof.
  intros HR Hk. pose proof HR as [Hnd Hch Ht].
  assert (head self :: (pre ++ l :: post) ++ [tail self]
          = (head self :: pre) ++ l :: (post ++ [tail self])) as E
    by (by rewrite <-app_assoc).
  rewrite E in Hnd, Hch.
  destruct (remove_node_spec self (head self :: pre) l (post ++ [tail self]))
    as (h' & Hrun & Hch' & Hdom & Hl & Hent & _); [done| |done..|].
  { by destruct post. }
  exists h'. simpl. split_and!; [| |done..].
  - unfold LRUCache.delete.
    rewrite (run_bind_Returns _ _ _ _ _ (run_gets _ _)). rewrite Hk.
    rewrite (run_bind_Returns _ _ _ _ _ Hrun).
    erewrite run_bind_Returns;
      [|unfold LRUCache.cache_del; simpl; by rewrite Hk].
    unfold LRUCache.refresh_cache_size.
    by rewrite (run_bind_Returns _ _ _ _ _ (run_modify _ _)).
  - apply NoDup_app in Hnd as (Hnd1 & Hnd2 & Hnd3).
    apply NoDup_cons in Hnd3 as [Hl3 Hnd3].
    assert (l ∉ pre) as Hlpre.
    { intros Hin. apply (Hnd2 l); set_solver. }
    assert (l ∉ post) as Hlpost by set_solver.
    split; simpl.
    + rewrite <-app_assoc.
      change (NoDup ((head self :: pre) ++ post ++ [tail self])).
      apply NoDup_app. split_and!; [done| |done].
      intros x Hx Hx'. apply (Hnd2 x Hx). by right.
    + by rewrite <-app_assoc.
    + intros k' l'. rewrite Hent. rewrite lookup_delete.
      case_decide as Hkk.
      * subst k'. split; [done|]. intros [Hin Hkey].
        assert (cache self !! k = Some l') as Hc by (apply Ht; set_solver).
        assert (l' = l) as -> by congruence. set_solver.
      * rewrite Ht. split; intros [Hin Hkey]; (split; [|done]); [|set_solver].
        apply elem_of_app in Hin as [?|[->|?]%elem_of_cons]; [set_solver| |set_solver].
        apply Ht in Hk as [_ Hk]. congruence.
Qed.

Lemma clear_spec self ls :
  Rep self ls →
  ∃ h', let self' := mkCache (capacity self) ∅
                       (set_cache_size 0 (metrics self))
                       (head self) (tail self) h' in
        LRUCache.clear self = Returns (tt, self')
      ∧ Rep self' []
      ∧ dom h' = dom (heap self).
Proof.
  intros HR. pose proof HR as [Hnd Hch Ht].
  assert (head self ≠ tail self) as Hne.
  { apply NoDup_cons in Hnd as [Hnd _]. set_solver. }
  assert (is_Some (heap self !! head self)) as [hd Hhd]
    by (eapply Rep_alloc; [done|set_solver]).
  assert (is_Some (heap self !! tail self)) as [td Htd]
    by (eapply Rep_alloc; [done|set_solver]).
  set (h1 := <[head self := set_next (Some (tail self)) hd]> (heap self)).
  set (h2 := <[tail self := set_prev (Some (head self)) td]> h1).
  assert (h1 !! tail self = Some td) as H1t
    by (unfold h1; by rewrite lookup_insert_ne).
  exists h2. simpl. split_and!.
  - unfold LRUCache.clear.
    rewrite (run_bind_Returns _ _ _ _ _ (run_modify _ _)).
    rewrite (run_bind_Returns _ _ _ _ _ (run_gets _ _)).
    rewrite (run_bind_Returns _ _ _ _ _ (run_gets _ _)).
    rewrite (run_bind_Returns _ _ _ _ _ (run_gets _ _)).
    erewrite run_bind_Returns; [|by apply run_store].
    rewrite (run_bind_Returns _ _ _ _ _ (run_gets _ _)).
    erewrite run_bind_Returns; [|by apply run_store].
    by rewrite run_modify.
  - split; simpl.
    + apply NoDup_cons. split; [set_solver|apply NoDup_singleton].
    + apply chain_cons. split_and!; [| |done].
      * unfold h2. rewrite (nxt_set_prev _ _ _ _ _ H1t).
        unfold h1. rewrite nxt_set_next. by rewrite decide_True.
      * unfold h2. rewrite prv_set_prev. by rewrite decide_True.
    + intros k l. rewrite lookup_empty. set_solver.
  - unfold h2, h1. rewrite !dom_insert_L.
    apply elem_of_dom_2 in Hhd, Htd. set_solver.
Qed.

(** *** The constructor *)

Lemma init_spec (c : Z) (t_head t_tail : Time) :
  (0 < c)%Z →
  ∃ (lh lt : loc) hp,
    LRUCache.__init__ (V:=V) c t_head t_tail
    = Returns (mkCache c ∅ (mkMetrics 0 0 0 0 0 c) lh lt hp)
    ∧ Rep (mkCache c ∅ (mkMetrics 0 0 0 0 0 c) lh lt hp) [].
Proof.
  intros Hc. unfold LRUCache.__init__.
  rewrite bool_decide_eq_false_2 by lia.
  set (lh := fresh (dom (∅ : gmap loc (LRUNode V Time)))).
  set (heap1 := <[lh := mkNode "" None None None t_head]> ∅).
  set (t := fresh (dom heap1)).
  set (heap2 := <[t := mkNode "" None None None t_tail]> heap1).
  assert (lh ≠ t) as Hne.
  { intros E. apply (is_fresh (dom heap1)). fold t. rewrite <-E.
    unfold heap1. rewrite dom_insert_L. set_solver. }
  assert (heap2 !! lh = Some (mkNode "" None None None t_head)) as Hh.
  { unfold heap2, heap1. rewrite lookup_insert_ne by done.
    by rewrite lookup_insert_eq. }
  set (heap3 := <[lh := set_next (Some t) (mkNode "" None None None t_head)]>
                  heap2).
  assert (heap3 !! t = Some (mkNode "" None None None t_tail)) as Ht.
  { unfold heap3, heap2. rewrite lookup_insert_ne by done.
    by rewrite lookup_insert_eq. }
  cbv zeta.
  erewrite run_bind_Returns; [|by apply run_store].
  erewrite run_store; [|by apply Ht].
  eexists lh, t, _. split; [done|]. simpl.
  split; simpl.
  - apply NoDup_cons. split; [set_solver|apply NoDup_singleton].
  - apply chain_cons. split_and!; [| |done].
    + rewrite (nxt_set_prev _ _ _ _ _ Ht).
      unfold heap3. rewrite nxt_set_next. by rewrite decide_True.
    + rewrite prv_set_prev. by rewrite decide_True.
  - intros k l. rewrite lookup_empty. set_solver.
Qed.

Lemma init_fails (c : Z) (t_head t_tail : Time) :
  (c ≤ 0)%Z →
  LRUCache.__init__ (V:=V) c t_head t_tail
  = Raises (ValueError "Capacity must be greater than 0").
Proof.
  intros Hc. unfold LRUCache.__init__. by rewrite bool_decide_eq_true_2.
Qed.

End Specs.

(** ** Reading the list off the store *)

Section Recency.
Context {V Time : Type}.
Implicit Types (self : LRUCache V Time) (h : gmap loc (LRUNode V Time)).
Implicit Types (l : loc) (ls xs : list loc).

Lemma walk_chain h stop fuel a xs :
  chain h (a :: xs ++ [stop]) →
  NoDup (xs ++ [stop]) →
  length xs < fuel →
  walk h stop fuel (nxt h a) = Some xs.
Proof.
  revert a fuel. induction xs as [|x xs IH]; intros a fuel Hch Hnd Hlen.
  - apply chain_cons in Hch as (-> & _). destruct fuel; [simpl in *; lia|].
    simpl. by rewrite decide_True.
  - simpl in Hch. apply chain_cons in Hch as (-> & _ & Hch).
    destruct fuel as [|fuel]; [simpl in *; lia|]. simpl.
    simpl in Hnd. apply NoDup_cons in Hnd as [Hx Hnd].
    rewrite decide_False by (intros ->; apply Hx; set_solver).
    rewrite IH; [done..|]. simpl in Hlen. lia.
Qed.

Lemma NoDup_alloc_length h xs :
  NoDup xs → (∀ x, x ∈ xs → is_Some (h !! x)) → length xs ≤ size h.
Proof.
  intros Hnd Hall. rewrite <-size_dom.
  rewrite <-(size_list_to_set (C:=gset nat) xs) by done.
  apply subseteq_size. intros x Hx. apply elem_of_list_to_set in Hx.
  by apply elem_of_dom, Hall.
Qed.

Lemma Rep_recency_list self ls : Rep self ls → recency_list self = Some ls.
Proof.
  intros HR. pose proof HR as [Hnd Hch _]. unfold recency_list.
  apply walk_chain; [done|by apply NoDup_cons in Hnd as [_ ?]|].
  pose proof (NoDup_alloc_length (heap self) _ Hnd) as Hlen.
  simpl in Hlen. rewrite length_app in Hlen. simpl in Hlen.
  specialize (Hlen (λ x Hx, Rep_alloc self ls x HR Hx)). lia.
Qed.

Lemma Rep_recency_entries self ls :
  Rep self ls → recency_entries self = Some (view self ls).
Proof.
  intros HR. unfold recency_entries. by rewrite (Rep_recency_list _ _ HR).
Qed.

End Recency.

(** ** Reachable states *)

Section Reachable.
Context {V Time : Type}.
Implicit Types (self : LRUCache V Time) (ls : list loc) (k : string).

Lemma Inv_size self ls : Inv self ls → size (cache self) = length ls.
Proof. intros [HR _ _ _ _]. by apply Rep_size. Qed.

Lemma init_Inv c (t_head t_tail : Time) (self : LRUCache V Time) :
  LRUCache.__init__ c t_head t_tail = Returns self →
  Inv self [] ∧ capacity self = c ∧ cache self = ∅
  ∧ metrics self = mkMetrics 0 0 0 0 0 c.
Proof.
  intros Hinit. destruct (decide (c ≤ 0)%Z) as [Hc|Hc].
  { by rewrite init_fails in Hinit. }
  destruct (init_spec (V:=V) c t_head t_tail) as (lh & lt & hp & E & HR); [lia|].
  rewrite E in Hinit. injection Hinit as <-.
  split_and!; [|done..]. split; simpl; [done|lia..|done].
Qed.

Lemma elem_of_split_list (l : loc) ls : l ∈ ls → ∃ pre post, ls = pre ++ l :: post.
Proof. apply list_elem_of_split. Qed.

Lemma nonempty_snoc ls : ls ≠ [] → ∃ ls0 last, ls = ls0 ++ [last].
Proof.
  intros H. destruct (exists_last H) as (ls0 & last & ->). eauto.
Qed.

Lemma get_Inv self ls k :
  Inv self ls →
  ∃ r self' ls', LRUCache.get k self = Returns (r, self') ∧ Inv self' ls'
    ∧ capacity self' = capacity self.
Proof.
  intros [HR Hc Hlen Hreq Hmax].
  destruct (cache self !! k) as [l|] eqn:Hk.
  - pose proof HR as [_ _ Ht]. apply Ht in Hk as Hl. destruct Hl as [Hl _].
    apply list_elem_of_split in Hl as (pre & post & ->).
    destruct (get_hit_spec self pre l post k HR Hk)
      as (h' & Hrun & HR' & _ & _).
    eexists _, _, _. split; [exact Hrun|]. split; [|done].
    split; simpl; [done|done| |lia|done].
    rewrite length_app in *. simpl in *. rewrite length_app. lia.
  - eexists _, _, ls. split; [by apply get_miss_spec|]. split; [|done].
    split; simpl; [by apply Rep_with_metrics|done|done|lia|done].
Qed.

Lemma put_Inv self ls now k v :
  Inv self ls →
  ∃ r self' ls', LRUCache.put now k v self = Returns (r, self') ∧ Inv self' ls'
    ∧ capacity self' = capacity self.
Proof.
  intros [HR Hc Hlen Hreq Hmax].
  pose proof (Rep_size _ _ HR) as Hsz.
  destruct (cache self !! k) as [l|] eqn:Hk.
  - pose proof HR as [_ _ Ht]. apply Ht in Hk as Hl. destruct Hl as [Hl _].
    apply list_elem_of_split in Hl as (pre & post & ->).
    destruct (put_update_spec self pre l post now k v HR Hk)
      as (h' & Hrun & HR' & _).
    eexists _, _, _. split; [exact Hrun|]. split; [|done].
    split; simpl; [done|done| |lia|done].
    rewrite length_app in *. simpl in *. rewrite length_app. lia.
  - destruct (decide (capacity self ≤ Z.of_nat (size (cache self)))%Z)
      as [Hf|Hf]; fold (is_full self) in Hf.
    + assert (ls ≠ []) as Hne.
      { intros ->. unfold is_full in Hf. rewrite Hsz in Hf. simpl in *. lia. }
      apply nonempty_snoc in Hne as (ls0 & last & ->).
      destruct (put_new_evict_spec self ls0 last now k v HR Hk Hf)
        as (h' & Hrun & HR' & _).
      eexists _, _, _. split; [exact Hrun|]. split; [|done].
      split; [done|done| |done|done].
      rewrite length_app in Hlen. simpl length in *. simpl capacity. lia.
    + destruct (put_new_spec self ls now k v HR Hk Hf)
        as (h' & Hrun & HR' & _).
      eexists _, _, _. split; [exact Hrun|]. split; [|done].
      split; [done|done| |done|done].
      unfold is_full in Hf. rewrite Hsz in Hf. simpl length. simpl capacity. lia.
Qed.

Lemma delete_Inv self ls k :
  Inv self ls →
  ∃ r self' ls', LRUCache.delete k self = Returns (r, self') ∧ Inv self' ls'
    ∧ capacity self' = capacity self.
Proof.
  intros [HR Hc Hlen Hreq Hmax].
  destruct (cache self !! k) as [l|] eqn:Hk.
  - pose proof HR as [_ _ Ht]. apply Ht in Hk as Hl. destruct Hl as [Hl _].
    apply list_elem_of_split in Hl as (pre & post & ->).
    destruct (delete_hit_spec self pre l post k HR Hk)
      as (h' & Hrun & HR' & _).
    eexists _, _, _. split; [exact Hrun|]. split; [|done].
    split; simpl; [done|done| |done|done].
    rewrite length_app in *. simpl in *. lia.
  - eexists _, _, ls. split; [by apply delete_miss_spec|]. done.
Qed.

Lemma clear_Inv self ls :
  Inv self ls →
  ∃ self', LRUCache.clear self = Returns (tt, self') ∧ Inv self' []
    ∧ capacity self' = capacity self.
Proof.
  intros [HR Hc Hlen Hreq Hmax].
  destruct (clear_spec self ls HR) as (h' & Hrun & HR' & _).
  eexists. split; [exact Hrun|]. split; [|done].
  split; simpl; [done|done|lia|done|done].
Qed.

Lemma call_Inv self ls now (o : op V) :
  Inv self ls →
  ∃ r self' ls', LRUCache.call now o self = Returns (r, self') ∧ Inv self' ls'
    ∧ capacity self' = capacity self.
Proof.
  intros HI. destruct o as [k|k v|k| | |]; simpl.
  - destruct (get_Inv self ls k HI) as (r & self' & ls' & Hrun & HI' & Hcap).
    exists (RGet r), self', ls'.
    by rewrite (run_bind_Returns _ _ _ _ _ Hrun).
  - destruct (put_Inv self ls now k v HI) as (r & self' & ls' & Hrun & HI' & Hcap).
    exists (RPut r), self', ls'.
    by rewrite (run_bind_Returns _ _ _ _ _ Hrun).
  - destruct (delete_Inv self ls k HI) as (r & self' & ls' & Hrun & HI' & Hcap).
    exists (RDelete r), self', ls'.
    by rewrite (run_bind_Returns _ _ _ _ _ Hrun).
  - destruct (clear_Inv self ls HI) as (self' & Hrun & HI' & Hcap).
    exists RClear, self', [].
    by rewrite (run_bind_Returns _ _ _ _ _ Hrun).
  - exists (RSize (Z.of_nat (size (cache self)))), self, ls. done.
  - eexists (RMetrics _), _, ls. split; [done|]. split; [|done].
    destruct HI as [HR ? ? ? ?]. split; simpl; try done.
    by apply Rep_with_metrics.
Qed.

Lemma reachable_Inv self : reachable self → ∃ ls, Inv self ls.
Proof.
  induction 1 as [c t1 t2 self Hinit|self now o r self' _ [ls HI] Hcall].
  - exists []. by apply init_Inv in Hinit as [? _].
  - destruct (call_Inv self ls now o HI) as (r' & s' & ls' & Hrun & HI' & _).
    rewrite Hrun in Hcall. injection Hcall as _ <-. eauto.
Qed.

Lemma run_Inv self ls (script : list (Time * op V)) :
  Inv self ls →
  ∃ rs self' ls', LRUCache.run script self = Returns (rs, self')
    ∧ Inv self' ls' ∧ capacity self' = capacity self.
Proof.
  revert self ls. induction script as [|[now o] script IH]; intros self ls HI.
  - exists [], self, ls. done.
  - destruct (call_Inv self ls now o HI) as (r & s1 & ls1 & Hrun & HI1 & Hc1).
    destruct (IH s1 ls1 HI1) as (rs & s2 & ls2 & Hrun2 & HI2 & Hc2).
    exists (r :: rs), s2, ls2. simpl.
    rewrite (run_bind_Returns _ _ _ _ _ Hrun).
    rewrite (run_bind_Returns _ _ _ _ _ Hrun2).
    split; [done|]. split; [done|congruence].
Qed.

Lemma reachable_run self (script : list (Time * op V)) rs self' :
  reachable self → LRUCache.run script self = Returns (rs, self') →
  reachable self'.
Proof.
  revert self rs. induction script as [|[now o] script IH]; intros self rs Hr.
  - simpl. intros [= _ <-]. done.
  - simpl. rewrite run_bind.
    destruct (LRUCache.call now o self) as [[r s1]|] eqn:Hcall; [|done].
    rewrite run_bind.
    destruct (LRUCache.run script s1) as [[rs1 s2]|] eqn:Hrun; [|done].
    intros [= _ <-]. eapply IH; [|done].
    by eapply reachable_call.
Qed.

End Reachable.

(** ** Entries in recency order *)

Section View.
Context {V Time : Type}.
Implicit Types (self : LRUCache V Time) (ls : list loc) (k : string).
Implicit Types (v : option V).

Lemma view_ext self self' ls :
  (∀ x, x ∈ ls → entry (heap self') x = entry (heap self) x) →
  view self' ls = view self ls.
Proof.
  intros H. unfold view. apply list_fmap_ext. intros i x Hi.
  apply H. by eapply list_elem_of_lookup_2.
Qed.

Lemma view_app self ls1 ls2 : view self (ls1 ++ ls2) = view self ls1 ++ view self ls2.
Proof. unfold view. by rewrite fmap_app. Qed.

Lemma view_elem_of self ls k v :
  Rep self ls → (k, v) ∈ view self ls →
  ∃ l pre post, ls = pre ++ l :: post ∧ cache self !! k = Some l
                ∧ entry (heap self) l = (k, v).
Proof.
  intros HR Hin. unfold view in Hin.
  apply list_elem_of_fmap in Hin as (l & He & Hl).
  pose proof (list_elem_of_split _ _ Hl) as (pre & post & ->).
  exists l, pre, post. split_and!; [done| |done].
  apply (rep_table _ _ HR). by rewrite <-He.
Qed.

Lemma get_view_hit self ls k v :
  Rep self ls → (k, v) ∈ view self ls →
  ∃ self', LRUCache.get k self = Returns (v, self').
Proof.
  intros HR Hin.
  destruct (view_elem_of _ _ _ _ HR Hin) as (l & pre & post & -> & Hk & He).
  destruct (get_hit_spec self pre l post k HR Hk) as (h' & Hrun & _).
  rewrite He in Hrun. eauto.
Qed.

Lemma get_view_miss self ls k :
  Rep self ls → k ∉ (view self ls).*1 →
  cache self !! k = None
  ∧ LRUCache.get k self = Returns (None, with_metrics count_miss self).
Proof.
  intros HR Hk. apply (Rep_lookup_None _ _ _ HR) in Hk.
  split; [done|by apply get_miss_spec].
Qed.

Lemma run_app (s1 s2 : list (Time * op V)) self rs1 self1 :
  LRUCache.run s1 self = Returns (rs1, self1) →
  LRUCache.run (s1 ++ s2) self
  = match LRUCache.run s2 self1 with
    | Returns (rs2, self2) => Returns (rs1 ++ rs2, self2)
    | Raises e => Raises e
    end.
Proof.
  revert self rs1. induction s1 as [|[now o] s1 IH]; intros self rs1; simpl.
  - intros [= <- <-]. by destruct (LRUCache.run s2 _) as [[??]|].
  - rewrite !run_bind.
    destruct (LRUCache.call now o self) as [[r s']|]; [|done].
    rewrite !run_bind.
    destruct (LRUCache.run s1 s') as [[rs1' s'']|] eqn:E; [|done].
    intros [= <- <-]. rewrite (IH _ _ E).
    by destruct (LRUCache.run s2 _) as [[??]|].
Qed.

(** Putting fresh keys into a cache that has room for all of them. *)
Lemma puts_fill (kvs : list (Time * (string * option V))) self ls :
  Inv self ls →
  NoDup (kvs.*2.*1) →
  (∀ k, k ∈ kvs.*2.*1 → k ∉ (view self ls).*1) →
  (Z.of_nat (length ls + length kvs) ≤ capacity self)%Z →
  ∃ self' ls',
    LRUCache.run (put_script kvs) self
    = Returns ((λ _, RPut true) <$> kvs, self')
    ∧ Inv self' ls'
    ∧ view self' ls' = reverse kvs.*2 ++ view self ls
    ∧ capacity self' = capacity self
    ∧ evictions (metrics self') = evictions (metrics self).
Proof.
  revert self ls. induction kvs as [|[now [k v]] kvs IH]; intros self ls.
  - intros HI _ _ _. exists self, ls. done.
  - intros HI Hnd Hfresh Hlen. pose proof HI as [HR Hc Hlen' Hreq Hmax].
    simpl in Hnd. apply NoDup_cons in Hnd as [Hk Hnd].
    assert (cache self !! k = None) as Hnone.
    { apply (Rep_lookup_None _ _ _ HR), Hfresh. simpl. left. }
    pose proof (Rep_size _ _ HR) as Hsz.
    assert (¬ is_full self) as Hnf.
    { unfold is_full. rewrite Hsz. simpl length in Hlen. lia. }
    destruct (put_new_spec self ls now k v HR Hnone Hnf)
      as (h' & Hrun & HR' & Hent & Hents).
    set (lnew := fresh (dom (heap self))) in *.
    set (cache' := <[k:=lnew]> (cache self)) in *.
    set (self1 := mkCache (capacity self) cache'
                    (set_cache_size (Z.of_nat (size cache')) (metrics self))
                    (head self) (tail self) h') in *.
    assert (view self1 (lnew :: ls) = (k, v) :: view self ls) as Hview.
    { unfold view at 1. simpl. rewrite Hent. f_equal.
      by apply (view_ext self self1). }
    destruct (IH self1 (lnew :: ls)) as (self2 & ls2 & Hrun2 & HI2 & Hv2 & Hc2 & He2).
    + split; [done|done| |done|done].
      simpl length in *. simpl capacity. lia.
    + done.
    + intros k' Hk'. rewrite Hview. simpl.
      apply not_elem_of_cons. split; [intros ->; done|].
      apply Hfresh. simpl. by right.
    + simpl length in *. simpl capacity. lia.
    + exists self2, ls2. split_and!; [|done| |done|done].
      * simpl. rewrite (run_bind_Returns _ _ _ _ _
                          (run_bind_Returns _ _ _ _ _ Hrun)).
        by rewrite (run_bind_Returns _ _ _ _ _ Hrun2).
      * rewrite Hv2, Hview. simpl. rewrite reverse_cons.
        by rewrite <-app_assoc.
Qed.

End View.

(** ** Eviction order *)

Section Eviction.
Context {V Time : Type}.
Implicit Types (self : LRUCache V Time) (ls : list loc) (k : string).
Implicit Types (v : option V).

(** C1. After constructing a cache of capacity [c > 0] and putting [c + 1]
    distinct keys in order, with no [get] in between, exactly the key that
    was put first is evicted ([get] on it returns [None]) and every other
    key is retrievable with its value. *)
Theorem lru_evicts_first_inserted (c : Z) (t_head t_tail : Time)
    (first : Time * (string * option V))
    (rest : list (Time * (string * option V))) :
  (0 < c)%Z →
  length rest = Z.to_nat c →
  NoDup (first :: rest).*2.*1 →
  ∃ self0 self,
    LRUCache.__init__ c t_head t_tail = Returns self0
    ∧ LRUCache.run (put_script (first :: rest)) self0
      = Returns ((λ _, RPut true) <$> first :: rest, self)
    ∧ cache self !! first.2.1 = None
    ∧ LRUCache.get first.2.1 self
      = Returns (None, with_metrics count_miss self)
    ∧ (∀ now k v, (now, (k, v)) ∈ rest →
         is_Some (cache self !! k)
         ∧ ∃ self', LRUCache.get k self = Returns (v, self'))
    ∧ dom (cache self) = list_to_set rest.*2.*1
    ∧ evictions (metrics self) = 1%Z.
Proof.
  intros Hc Hlen Hnd.
  destruct (init_spec (V:=V) c t_head t_tail Hc) as (lh & lt & hp & Hinit & _).
  destruct (init_Inv _ _ _ _ Hinit) as (HI0 & Hcap0 & Hcache0 & Hm0).
  set (self0 := mkCache c ∅ (mkMetrics 0 0 0 0 0 c) lh lt hp) in *.
  destruct rest as [|lastp mid _] using rev_ind.
  { simpl in Hlen. lia. }
  rewrite length_app in Hlen. simpl in Hlen.
  destruct (puts_fill (first :: mid) self0 [] HI0)
    as (self1 & ls1 & Hrun1 & HI1 & Hv1 & Hcap1 & Hev1).
  { rewrite app_comm_cons, !fmap_app in Hnd. by apply NoDup_app in Hnd as [? _]. }
  { intros k _. simpl. apply not_elem_of_nil. }
  { simpl length. simpl capacity. lia. }
  simpl in Hv1. rewrite app_nil_r, reverse_cons in Hv1.
  pose proof HI1 as [HR1 _ _ _ _].
  pose proof (Rep_size _ _ HR1) as Hsz1.
  assert (length ls1 = S (length mid)) as Hlen1.
  { rewrite <-(length_fmap (entry (heap self1)) ls1). fold (view self1 ls1).
    rewrite Hv1, length_app, length_reverse, length_fmap. simpl. lia. }
  destruct ls1 as [|last ls0 _] using rev_ind; [done|].
  rewrite view_app in Hv1. apply app_inj_tail in Hv1 as [Hv0 Hlast].
  assert (is_full self1) as Hfull.
  { unfold is_full. rewrite Hsz1, Hlen1, Hcap1. simpl. lia. }
  destruct lastp as [now [k v]].
  assert (cache self1 !! k = None) as Hnone.
  { apply (Rep_lookup_None _ _ _ HR1). rewrite view_app, Hv0. simpl.
    rewrite Hlast. rewrite fmap_app, fmap_reverse. simpl.
    rewrite app_comm_cons, !fmap_app in Hnd.
    apply NoDup_app in Hnd as (_ & Hnd & _).
    intros Hin. apply (Hnd k); [|simpl; left].
    rewrite elem_of_app, elem_of_reverse in Hin.
    destruct Hin as [Hin|Hin%list_elem_of_singleton].
    - simpl. by right.
    - rewrite Hin. simpl. left. }
  destruct (put_new_evict_spec self1 ls0 last now k v HR1 Hnone Hfull)
    as (h' & Hrun2 & HR2 & Hent & Hents).
  set (lnew := fresh (dom (heap self1))) in *.
  set (cache' := <[k:=lnew]> (delete (entry (heap self1) last).1 (cache self1)))
    in *.
  set (self2 := mkCache (capacity self1) cache'
                  (set_cache_size (Z.of_nat (size cache'))
                     (count_eviction (metrics self1)))
                  (head self1) (tail self1) h') in *.
  assert (view self2 (lnew :: ls0) = reverse (mid ++ [(now, (k, v))]).*2)
    as Hv2.
  { unfold view at 1. simpl. rewrite Hent.
    rewrite fmap_app, reverse_app. simpl. f_equal.
    transitivity (view self1 ls0); [|exact Hv0].
    apply (view_ext self1 self2).
    intros x Hx. apply Hents. set_solver. }
  exists self0, self2. split; [done|]. split.
  { rewrite app_comm_cons. unfold put_script. rewrite !fmap_app.
    fold (put_script (first :: mid)).
    rewrite (run_app _ _ _ _ _ Hrun1). simpl.
    rewrite (run_bind_Returns _ _ _ _ _ (run_bind_Returns _ _ _ _ _ Hrun2)).
    done. }
  assert (first.2.1 ∉ (view self2 (lnew :: ls0)).*1) as Hfirst.
  { rewrite Hv2, fmap_reverse. rewrite elem_of_reverse.
    simpl in Hnd. by apply NoDup_cons in Hnd as [? _]. }
  destruct (get_view_miss self2 _ _ HR2 Hfirst) as [Hm1 Hm2].
  split; [done|]. split; [done|]. split; [|split].
  - intros now' k' v' Hin.
    assert ((k', v') ∈ view self2 (lnew :: ls0)) as Hin'.
    { rewrite Hv2. apply elem_of_reverse, list_elem_of_fmap.
      by exists (now', (k', v')). }
    split.
    + destruct (view_elem_of _ _ _ _ HR2 Hin') as (l & _ & _ & _ & -> & _).
      eauto.
    + by eapply get_view_hit.
  - rewrite (Rep_dom _ _ HR2), Hv2, fmap_reverse.
    apply set_eq. intros x. by rewrite !elem_of_list_to_set, elem_of_reverse.
  - simpl. rewrite Hev1. simpl. lia.
Qed.

End Eviction.

(** ** Recency refresh *)

Section Refresh.
Context {V Time : Type}.
Implicit Types (self : LRUCache V Time) (ls : list loc) (k : string).
Implicit Types (v : option V).

Lemma session_reachable c t_head t_tail script rs self :
  session c t_head t_tail script = Returns (rs, self) → reachable self.
Proof.
  unfold session.
  destruct (LRUCache.__init__ c t_head t_tail) as [self0|] eqn:E; [|done].
  apply reachable_run. by eapply reachable_init.
Qed.

(** C2, amended. In a full cache of capacity two or more, a successful
    [get] on a resident key followed by a [put] of a new key does not evict
    the key that was just accessed: the evicted key is the least recently
    used among the others, and [get] on the accessed key still returns its
    value. *)
Theorem get_protects_from_eviction self k now k' v' :
  reachable self →
  (2 ≤ capacity self)%Z →
  is_full self →
  is_Some (cache self !! k) →
  cache self !! k' = None →
  refreshed_key_survives self k now k' v'.
Proof.
  intros Hreach Hc2 Hfull [l Hk] Hk'.
  destruct (reachable_Inv _ Hreach) as [ls [HR Hc Hlen Hreq Hmax]].
  pose proof (Rep_size _ _ HR) as Hsz.
  pose proof (rep_table _ _ HR k l) as [Hin _].
  destruct (Hin Hk) as [Hl Hkey]. clear Hin.
  apply list_elem_of_split in Hl as (pre & post & ->).
  destruct (get_hit_spec self pre l post k HR Hk)
    as (h1 & Hrun1 & HR1 & Hdom1 & Hent1).
  set (self1 := mkCache (capacity self) (cache self)
                  (count_hit (metrics self)) (head self) (tail self) h1) in *.
  assert (pre ++ post ≠ []) as Hne.
  { intros E. unfold is_full in Hfull. rewrite Hsz in Hfull.
    rewrite length_app in Hfull. simpl in Hfull.
    apply (f_equal length) in E. rewrite length_app in E. simpl in E. lia. }
  destruct (exists_last Hne) as (ls0 & victim & E).
  rewrite E in HR1.
  destruct (put_new_evict_spec self1 (l :: ls0) victim now k' v' HR1 Hk' Hfull)
    as (h2 & Hrun2 & HR2 & Hent2 & Hents2).
  simpl in Hrun2, HR2. rewrite Hent1 in Hrun2, HR2.
  set (lnew := fresh (dom h1)) in *.
  set (cache2 := <[k':=lnew]>
                   (delete (entry (heap self) victim).1 (cache self))) in *.
  set (self2 := mkCache (capacity self) cache2
                  (set_cache_size (Z.of_nat (size cache2))
                     (count_eviction (count_hit (metrics self))))
                  (head self) (tail self) h2) in *.
  assert (entry h2 l = entry (heap self) l) as Hl2.
  { rewrite Hents2 by set_solver. apply Hent1. }
  assert (cache self2 !! k = Some l) as Hk2.
  { apply (rep_table _ _ HR2). split; [set_solver|]. simpl. by rewrite Hl2. }
  destruct (get_hit_spec self2 [lnew] l ls0 k HR2 Hk2) as (h3 & Hrun3 & _).
  simpl in Hrun3. rewrite Hl2 in Hrun3.
  eexists (entry (heap self) l).2, self1, self2, _, l, lnew, victim, pre, post, ls0.
  split_and!.
  - exact Hrun1.
  - exact Hrun2.
  - exact Hk.
  - by apply Rep_recency_list.
  - exact E.
  - by apply Rep_recency_list in HR1.
  - by apply Rep_recency_list in HR2.
  - done.
  - exact Hk2.
  - exact Hrun3.
Qed.

End Refresh.

(** C2 as stated fails in a cache of capacity one: the key that was just
    accessed is the only entry, and the [put] evicts it. *)
Lemma get_protects_from_eviction_capacity_one :
  ∃ (rs : list (result string)) (self self1 self2 self3 : LRUCache string Z),
    session 1 0%Z 0%Z [(0%Z, Put "a" (Some "1"))] = Returns (rs, self)
    ∧ is_full self
    ∧ is_Some (cache self !! "a")
    ∧ cache self !! "b" = None
    ∧ LRUCache.get "a" self = Returns (Some "1", self1)
    ∧ LRUCache.put 0%Z "b" (Some "2") self1 = Returns (true, self2)
    ∧ cache self2 !! "a" = None
    ∧ LRUCache.get "a" self2 = Returns (None, self3)
    ∧ ¬ refreshed_key_survives self "a" 0%Z "b" (Some "2").
Proof.
  eexists _, _, _, _, _. split; [vm_compute; reflexivity|].
  split; [by vm_compute|]. split; [by vm_compute; eauto|].
  split; [by vm_compute|].
  split; [vm_compute; reflexivity|]. split; [vm_compute; reflexivity|].
  split; [by vm_compute|]. split; [vm_compute; reflexivity|].
  intros (v & s1 & s2 & s3 & l & lnew & victim & pre & post & ls0
          & Hget & Hput & _ & _ & _ & _ & _ & _ & Hres & _).
  vm_compute in Hget. injection Hget as _ <-.
  vm_compute in Hput. injection Hput as <-.
  vm_compute in Hres. discriminate.
Qed.

(** ** Updates, misses, clearing and eviction events *)

Section Operations.
Context {V Time : Type}.
Implicit Types (self : LRUCache V Time) (ls : list loc) (k : string).
Implicit Types (v : option V).

(** C5. [put] on a key that is already present returns [False], leaves
    [size()] unchanged, evicts nothing (the table and all the counters are
    unchanged), overwrites the value so that a following [get] returns the
    new one, and moves the entry to the head of the recency order, whether
    or not the cache is full. *)
Theorem put_existing_updates self now k v :
  reachable self →
  is_Some (cache self !! k) →
  ∃ self' self'' (n : Z) (l : loc) pre post,
    LRUCache.put now k v self = Returns (false, self')
    ∧ LRUCache.size self = Returns (n, self)
    ∧ LRUCache.size self' = Returns (n, self')
    ∧ cache self' = cache self
    ∧ metrics self' = metrics self
    ∧ LRUCache.get k self' = Returns (v, self'')
    ∧ cache self !! k = Some l
    ∧ recency_list self = Some (pre ++ l :: post)
    ∧ recency_list self' = Some (l :: pre ++ post).
Proof.
  intros Hreach [l Hk].
  destruct (reachable_Inv _ Hreach) as [ls [HR Hc Hlen Hreq Hmax]].
  pose proof (rep_table _ _ HR k l) as [Hin _].
  destruct (Hin Hk) as [Hl Hkey]. clear Hin.
  apply list_elem_of_split in Hl as (pre & post & ->).
  destruct (put_update_spec self pre l post now k v HR Hk)
    as (h' & Hrun & HR' & Hdom & Hent & Hents).
  set (self' := mkCache (capacity self) (cache self) (metrics self)
                  (head self) (tail self) h') in *.
  destruct (get_hit_spec self' [] l (pre ++ post) k HR' Hk)
    as (h'' & Hrun' & _).
  simpl in Hrun'. rewrite Hent in Hrun'.
  eexists self', _, (Z.of_nat (size (cache self))), l, pre, post.
  split_and!.
  - exact Hrun.
  - done.
  - done.
  - done.
  - done.
  - exact Hrun'.
  - exact Hk.
  - by apply Rep_recency_list.
  - by apply Rep_recency_list in HR'.
Qed.

(** C6. [get] on a key that is not in the table returns [None], increments
    [misses] and [total_requests], and changes nothing else: the store (and
    with it the recency list), the table, [size()], and the counters [hits]
    and [evictions] are unchanged. *)
Theorem get_absent_frame self k :
  cache self !! k = None →
  ∃ self' (n : Z),
    LRUCache.get k self = Returns (None, self')
    ∧ misses (metrics self') = (misses (metrics self) + 1)%Z
    ∧ total_requests (metrics self')
      = (total_requests (metrics self) + 1)%Z
    ∧ hits (metrics self') = hits (metrics self)
    ∧ evictions (metrics self') = evictions (metrics self)
    ∧ cache_size (metrics self') = cache_size (metrics self)
    ∧ max_size (metrics self') = max_size (metrics self)
    ∧ capacity self' = capacity self
    ∧ cache self' = cache self
    ∧ head self' = head self
    ∧ tail self' = tail self
    ∧ heap self' = heap self
    ∧ recency_list self' = recency_list self
    ∧ LRUCache.size self = Returns (n, self)
    ∧ LRUCache.size self' = Returns (n, self').
Proof.
  intros Hk.
  exists (with_metrics count_miss self), (Z.of_nat (size (cache self))).
  split; [by apply get_miss_spec|]. done.
Qed.

(** C8. After [clear()] the size is 0 and [get] on every key returns
    [None] and counts a miss, while [hits], [misses], [evictions],
    [total_requests] and [max_size] keep the values they had before. *)
Theorem clear_keeps_counters self :
  reachable self →
  ∃ self',
    LRUCache.clear self = Returns (tt, self')
    ∧ LRUCache.size self' = Returns (0%Z, self')
    ∧ recency_list self' = Some []
    ∧ (∀ k, LRUCache.get k self'
            = Returns (None, with_metrics count_miss self'))
    ∧ hits (metrics self') = hits (metrics self)
    ∧ misses (metrics self') = misses (metrics self)
    ∧ evictions (metrics self') = evictions (metrics self)
    ∧ total_requests (metrics self') = total_requests (metrics self)
    ∧ max_size (metrics self') = max_size (metrics self)
    ∧ capacity self' = capacity self.
Proof.
  intros Hreach.
  destruct (reachable_Inv _ Hreach) as [ls [HR Hc Hlen Hreq Hmax]].
  destruct (clear_spec self ls HR) as (h' & Hrun & HR' & _).
  eexists. split; [exact Hrun|].
  split_and!; [done| |intros k; by apply get_miss_spec|done..].
  by apply Rep_recency_list in HR'.
Qed.

(** C10. When [put] of a new key finds the table full, [_pop_tail] returns
    a real entry (never [None]), and the eviction removes exactly that one
    entry from the table and from the list and adds one to [evictions]. *)
Theorem eviction_pops_real_entry self now k v :
  reachable self →
  cache self !! k = None →
  is_full self →
  ∃ (lnew victim : loc) self1 self1' self' ls0,
    LRUCache.new_LRUNode k v now self = Returns (lnew, self1)
    ∧ LRUCache._pop_tail self1 = Returns (Some victim, self1')
    ∧ LRUCache.put now k v self = Returns (true, self')
    ∧ evictions (metrics self') = (evictions (metrics self) + 1)%Z
    ∧ recency_list self = Some (ls0 ++ [victim])
    ∧ cache self !! (entry (heap self) victim).1 = Some victim
    ∧ cache self'
      = <[k:=lnew]> (delete (entry (heap self) victim).1 (cache self))
    ∧ recency_list self' = Some (lnew :: ls0)
    ∧ size (cache self') = size (cache self).
Proof.
  intros Hreach Hk Hfull.
  destruct (reachable_Inv _ Hreach) as [ls [HR Hc Hlen Hreq Hmax]].
  pose proof (Rep_size _ _ HR) as Hsz.
  assert (ls ≠ []) as Hne.
  { intros ->. unfold is_full in Hfull. rewrite Hsz in Hfull. simpl in *. lia. }
  destruct (exists_last Hne) as (ls0 & victim & ->).
  destruct (new_LRUNode_spec self _ k v now HR) as (Hrun1 & HR1 & Hnew & Hnotin).
  set (lnew := fresh (dom (heap self))) in *.
  set (self1 := with_heap (insert lnew (mkNode k v None None now)) self) in *.
  destruct (pop_tail_spec self1 ls0 victim) as (h1 & Hpop & _);
    [by destruct HR1..|].
  destruct (put_new_evict_spec self ls0 victim now k v HR Hk Hfull)
    as (h' & Hrun & HR' & Hent & Hents).
  eexists lnew, victim, self1, _, _, ls0. split_and!.
  - exact Hrun1.
  - exact Hpop.
  - exact Hrun.
  - done.
  - by apply Rep_recency_list.
  - apply (rep_table _ _ HR). split; [set_solver|done].
  - done.
  - by apply Rep_recency_list in HR'.
  - rewrite (Rep_size _ _ HR'), Hsz. rewrite length_app. simpl. lia.
Qed.

End Operations.

(** ** Counters and totality *)

Section Counters.
Context {V Time : Type}.
Implicit Types (self : LRUCache V Time) (ls : list loc) (k : string).
Implicit Types (v : option V).

Lemma get_counters self ls k r self' :
  Inv self ls →
  LRUCache.get k self = Returns (r, self') →
  metrics self' = count_hit (metrics self)
  ∨ metrics self' = count_miss (metrics self).
Proof.
  intros [HR _ _ _ _] Hget.
  destruct (cache self !! k) as [l|] eqn:Hk.
  - pose proof (rep_table _ _ HR k l) as [Hin _].
    destruct (Hin Hk) as [Hl _].
    apply list_elem_of_split in Hl as (pre & post & ->).
    destruct (get_hit_spec self pre l post k HR Hk) as (h' & Hrun & _).
    rewrite Hrun in Hget. injection Hget as _ <-. by left.
  - rewrite (get_miss_spec _ _ Hk) in Hget. injection Hget as _ <-. by right.
Qed.

Lemma put_counters self ls now k v r self' :
  Inv self ls →
  LRUCache.put now k v self = Returns (r, self') →
  requests (metrics self') = requests (metrics self).
Proof.
  intros [HR Hc Hlen _ _] Hput.
  pose proof (Rep_size _ _ HR) as Hsz.
  destruct (cache self !! k) as [l|] eqn:Hk.
  - pose proof (rep_table _ _ HR k l) as [Hin _].
    destruct (Hin Hk) as [Hl _].
    apply list_elem_of_split in Hl as (pre & post & ->).
    destruct (put_update_spec self pre l post now k v HR Hk)
      as (h' & Hrun & _).
    rewrite Hrun in Hput. by injection Hput as _ <-.
  - destruct (decide (capacity self ≤ Z.of_nat (size (cache self)))%Z)
      as [Hf|Hf]; fold (is_full self) in Hf.
    + assert (ls ≠ []) as Hne.
      { intros ->. unfold is_full in Hf. rewrite Hsz in Hf. simpl in *. lia. }
      destruct (exists_last Hne) as (ls0 & last & ->).
      destruct (put_new_evict_spec self ls0 last now k v HR Hk Hf)
        as (h' & Hrun & _).
      rewrite Hrun in Hput. by injection Hput as _ <-.
    + destruct (put_new_spec self ls now k v HR Hk Hf) as (h' & Hrun & _).
      rewrite Hrun in Hput. by injection Hput as _ <-.
Qed.

Lemma delete_counters self ls k r self' :
  Inv self ls →
  LRUCache.delete k self = Returns (r, self') →
  requests (metrics self') = requests (metrics self).
Proof.
  intros [HR _ _ _ _] Hdel.
  destruct (cache self !! k) as [l|] eqn:Hk.
  - pose proof (rep_table _ _ HR k l) as [Hin _].
    destruct (Hin Hk) as [Hl _].
    apply list_elem_of_split in Hl as (pre & post & ->).
    destruct (delete_hit_spec self pre l post k HR Hk) as (h' & Hrun & _).
    rewrite Hrun in Hdel. by injection Hdel as _ <-.
  - rewrite (delete_miss_spec _ _ Hk) in Hdel. by injection Hdel as _ <-.
Qed.

Lemma call_counters self ls now (o : op V) r self' :
  Inv self ls →
  LRUCache.call now o self = Returns (r, self') →
  (∀ k, o ≠ Get k) →
  requests (metrics self') = requests (metrics self).
Proof.
  intros HI Hcall Hget. destruct o as [k|k v|k| | |]; simpl in Hcall.
  - by destruct (Hget k).
  - rewrite run_bind in Hcall.
    destruct (LRUCache.put now k v self) as [[b s]|] eqn:E; [|done].
    injection Hcall as _ <-. by eapply put_counters.
  - rewrite run_bind in Hcall.
    destruct (LRUCache.delete k self) as [[b s]|] eqn:E; [|done].
    injection Hcall as _ <-. by eapply delete_counters.
  - destruct HI as [HR _ _ _ _].
    destruct (clear_spec self ls HR) as (h' & Hrun & _).
    rewrite (run_bind_Returns _ _ _ _ _ Hrun) in Hcall.
    by injection Hcall as _ <-.
  - by injection Hcall as _ <-.
  - by injection Hcall as _ <-.
Qed.

(** C3. In every state a sequence of calls can reach on a constructed
    cache, [hits + misses == total_requests]; [get] adds one to
    [total_requests] on every call; and no call other than [get] changes
    [hits], [misses] or [total_requests]. *)
Theorem requests_counter_invariant self :
  reachable self →
  (hits (metrics self) + misses (metrics self)
   = total_requests (metrics self))%Z
  ∧ (∀ k, ∃ r self',
       LRUCache.get k self = Returns (r, self')
       ∧ total_requests (metrics self')
         = (total_requests (metrics self) + 1)%Z)
  ∧ (∀ now (o : op V) r self',
       LRUCache.call now o self = Returns (r, self') →
       (∀ k, o ≠ Get k) →
       hits (metrics self') = hits (metrics self)
       ∧ misses (metrics self') = misses (metrics self)
       ∧ total_requests (metrics self') = total_requests (metrics self)).
Proof.
  intros Hreach. destruct (reachable_Inv _ Hreach) as [ls HI].
  split; [by destruct HI|]. split.
  - intros k.
    destruct (get_Inv self ls k HI) as (r & self' & ls' & Hrun & _).
    exists r, self'. split; [done|].
    by destruct (get_counters _ _ _ _ _ HI Hrun) as [-> | ->].
  - intros now o r self' Hcall Ho.
    pose proof (call_counters _ _ _ _ _ _ HI Hcall Ho) as E.
    unfold requests in E. by injection E as -> -> ->.
Qed.

(** C7. Construction raises the configuration error exactly when
    [capacity <= 0] and succeeds for every positive capacity; on a
    constructed cache every sequence of [get], [put], [delete], [clear],
    [size] and [get_metrics], with any keys and values, runs to the end
    without raising. *)
Theorem construction_and_totality (c : Z) (t_head t_tail : Time) :
  (LRUCache.__init__ (V:=V) c t_head t_tail
   = Raises (ValueError "Capacity must be greater than 0") ↔ (c ≤ 0)%Z)
  ∧ ((∃ self, LRUCache.__init__ (V:=V) c t_head t_tail = Returns self)
     ↔ (0 < c)%Z)
  ∧ (∀ self (script : list (Time * op V)),
       LRUCache.__init__ c t_head t_tail = Returns self →
       ∃ rs self', LRUCache.run script self = Returns (rs, self')).
Proof.
  split_and!.
  - split; [|apply init_fails]. intros Hinit.
    destruct (decide (c ≤ 0)%Z) as [?|Hc]; [done|].
    destruct (init_spec (V:=V) c t_head t_tail) as (? & ? & ? & E & _); [lia|].
    congruence.
  - split.
    + intros [self Hinit]. destruct (decide (0 < c)%Z) as [?|Hc]; [done|].
      rewrite init_fails in Hinit by lia. done.
    + intros Hc.
      destruct (init_spec (V:=V) c t_head t_tail Hc) as (? & ? & ? & E & _).
      eauto.
  - intros self script Hinit. apply init_Inv in Hinit as [HI _].
    destruct (run_Inv self [] script HI) as (rs & self' & _ & Hrun & _).
    eauto.
Qed.

End Counters.

(** ** The size, between and inside operations *)

Section Size.
Context {V Time : Type}.
Implicit Types (self : LRUCache V Time) (ls : list loc) (k : string).
Implicit Types (v : option V).

Lemma heap_only_ret {A} (a : A) :
  heap_only (V:=V) (Time:=Time) (ret a).
Proof. by intros self a' self' [= _ <-]. Qed.

Lemma heap_only_gets {A} (f : LRUCache V Time → A) : heap_only (gets f).
Proof. by intros self a' self' [= _ <-]. Qed.

Lemma heap_only_bind {A B} (m : M (LRUCache V Time) A)
    (f : A → M (LRUCache V Time) B) :
  heap_only m → (∀ a, heap_only (f a)) → heap_only (m ≫= f).
Proof.
  intros Hm Hf self b self'. rewrite run_bind.
  destruct (m self) as [[a s1]|] eqn:E; [|done].
  intros Hfa. apply Hm in E as [E1 E2]. apply Hf in Hfa as [-> ->]. done.
Qed.

Lemma heap_only_load l : heap_only (LRUCache.load (V:=V) (Time:=Time) l).
Proof.
  intros self a self'. unfold LRUCache.load.
  destruct (heap self !! l); [|done]. by intros [= _ <-].
Qed.

Lemma heap_only_store l f : heap_only (LRUCache.store (V:=V) (Time:=Time) l f).
Proof.
  apply heap_only_bind; [apply heap_only_load|].
  intros nd self a self'. by intros [= _ <-].
Qed.

Lemma heap_only_deref r : heap_only (LRUCache.deref (V:=V) (Time:=Time) r).
Proof. destruct r; [apply heap_only_ret|done]. Qed.

Lemma heap_only_modify_heap f :
  heap_only (modify (with_heap (V:=V) (Time:=Time) f)).
Proof. by intros self a self' [= _ <-]. Qed.

Create HintDb heap_only.
#[local] Hint Resolve heap_only_ret heap_only_gets heap_only_load
  heap_only_store heap_only_deref heap_only_modify_heap : heap_only.

Ltac heap_only_steps :=
  repeat first
    [ solve [auto with heap_only]
    | apply heap_only_bind; [|intros ?] ].

Lemma heap_only_remove_node l :
  heap_only (LRUCache._remove_node (V:=V) (Time:=Time) l).
Proof. unfold LRUCache._remove_node. heap_only_steps. Qed.

Lemma heap_only_add_node l :
  heap_only (LRUCache._add_node (V:=V) (Time:=Time) l).
Proof. unfold LRUCache._add_node. heap_only_steps. Qed.

Lemma heap_only_pop_tail : heap_only (LRUCache._pop_tail (V:=V) (Time:=Time)).
Proof.
  unfold LRUCache._pop_tail. heap_only_steps.
  case_decide; heap_only_steps.
Qed.

Lemma heap_only_new_LRUNode k v (now : Time) :
  heap_only (LRUCache.new_LRUNode k v now).
Proof.
  unfold LRUCache.new_LRUNode. heap_only_steps.
Qed.

(** [put] ends in the last of its states. *)
Lemma put_points_last self now k v b self' :
  LRUCache.put now k v self = Returns (b, self') →
  last (LRUCache.put_points now k v self) = Some self'.
Proof.
  unfold LRUCache.put, LRUCache.put_points, LRUCache.after.
  rewrite run_bind, run_gets. destruct (cache self !! k) as [node|].
  - rewrite run_bind.
    destruct (LRUCache.store node (set_value v) self) as [[[] s1]|]; [|done].
    rewrite run_bind.
    destruct (LRUCache.store node (set_timestamp now) s1) as [[[] s2]|];
      [|done].
    unfold LRUCache._move_to_head. rewrite !run_bind.
    destruct (LRUCache._remove_node node s2) as [[[] s3]|]; [|done].
    destruct (LRUCache._add_node node s3) as [[[] s4]|]; [|done].
    by intros [= _ <-].
  - rewrite run_bind.
    destruct (LRUCache.new_LRUNode k v now self) as [[new_node s1]|]; [|done].
    rewrite run_bind.
    destruct (LRUCache.evict_if_full s1) as [[[] s2]|]; [|done].
    rewrite run_bind, run_modify, run_bind.
    destruct (LRUCache._add_node new_node _) as [[[] s4]|]; [|done].
    unfold LRUCache.refresh_cache_size. rewrite run_bind, !run_modify.
    intros [= _ <-]. rewrite last_cons, last_app.
    by rewrite !last_cons.
Qed.

Lemma evict_points_bound self :
  Forall (λ s, size (cache s) ≤ size (cache self)
               ∧ capacity s = capacity self)
         (LRUCache.evict_points self).
Proof.
  unfold LRUCache.evict_points, LRUCache.after. case_bool_decide; [|done].
  destruct (LRUCache._pop_tail self) as [[tail s1]|] eqn:Hpop; [|done].
  apply heap_only_pop_tail in Hpop as [Hc1 Hcap1].
  apply Forall_cons. split; [by rewrite Hc1|].
  destruct tail as [tail|]; [|done].
  rewrite run_bind.
  destruct (LRUCache.load tail s1) as [[tl s1']|] eqn:Hload; [|done].
  apply heap_only_load in Hload as [Hc1' Hcap1'].
  unfold LRUCache.cache_del.
  destruct (cache s1' !! key tl) eqn:Hdel; [|done].
  assert (size (delete (key tl) (cache s1')) ≤ size (cache self)) as Hle.
  { rewrite map_size_delete, Hdel, Hc1', Hc1. simpl. lia. }
  repeat (apply Forall_cons; split; [split; simpl; [done|congruence]|]).
  done.
Qed.

(** C4. In every reachable state of a cache built with capacity [c > 0],
    [0 <= size() <= c]; [size()] is the number of keys of the table, which
    is the number of nodes between the sentinels of the recency list; and
    the table never holds more than [c] keys inside [put] either, since the
    eviction comes before the insertion. *)
Theorem size_within_capacity self :
  reachable self →
  (0 < capacity self)%Z
  ∧ LRUCache.size self = Returns (Z.of_nat (size (cache self)), self)
  ∧ (0 ≤ Z.of_nat (size (cache self)) ≤ capacity self)%Z
  ∧ (∃ ls, recency_list self = Some ls ∧ length ls = size (cache self))
  ∧ (∀ now k v, ∃ b self',
       LRUCache.put now k v self = Returns (b, self')
       ∧ last (LRUCache.put_points now k v self) = Some self'
       ∧ Forall (λ s, (Z.of_nat (size (cache s)) ≤ capacity self)%Z)
                (LRUCache.put_points now k v self)).
Proof.
  intros Hreach. destruct (reachable_Inv _ Hreach) as [ls HI].
  pose proof HI as [HR Hc Hlen Hreq Hmax].
  pose proof (Rep_size _ _ HR) as Hsz.
  split; [done|]. split; [done|]. split; [lia|]. split.
  { exists ls. split; [by apply Rep_recency_list|done]. }
  intros now k v.
  destruct (put_Inv self ls now k v HI) as (b & self' & ls' & Hrun & _).
  exists b, self'. split; [done|]. split; [by eapply put_points_last|].
  unfold LRUCache.put_points, LRUCache.after.
  destruct (cache self !! k) as [node|] eqn:Hk.
  - destruct (LRUCache.store node (set_value v) self) as [[[] s1]|] eqn:E1;
      [|done].
    apply heap_only_store in E1 as [C1 _].
    apply Forall_cons. split; [rewrite C1; lia|].
    destruct (LRUCache.store node (set_timestamp now) s1) as [[[] s2]|] eqn:E2;
      [|done].
    apply heap_only_store in E2 as [C2 _].
    apply Forall_cons. split; [rewrite C2, C1; lia|].
    destruct (LRUCache._remove_node node s2) as [[[] s3]|] eqn:E3; [|done].
    apply heap_only_remove_node in E3 as [C3 _].
    apply Forall_cons. split; [rewrite C3, C2, C1; lia|].
    destruct (LRUCache._add_node node s3) as [[[] s4]|] eqn:E4; [|done].
    apply heap_only_add_node in E4 as [C4 _].
    apply Forall_cons. split; [rewrite C4, C3, C2, C1; lia|done].
  - destruct (new_LRUNode_spec self ls k v now HR) as (Hrun1 & HR1 & _).
    rewrite Hrun1.
    set (self1 := with_heap _ self) in *.
    apply Forall_cons. split; [simpl; lia|].
    apply Forall_app. split.
    { eapply Forall_impl; [apply evict_points_bound|].
      intros s [Hs _]. simpl in Hs. lia. }
    assert (∃ self2, LRUCache.evict_if_full self1 = Returns (tt, self2)
                     ∧ (Z.of_nat (size (cache self2)) < capacity self)%Z
                     ∧ capacity self2 = capacity self)
      as (self2 & -> & Hlt & Hcap2).
    { destruct (decide (capacity self1 ≤ Z.of_nat (size (cache self1)))%Z)
        as [Hf|Hf]; fold (is_full self1) in Hf.
      - assert (ls ≠ []) as Hne.
        { intros ->. unfold is_full in Hf. simpl in Hf. rewrite Hsz in Hf.
          simpl in Hf. lia. }
        destruct (exists_last Hne) as (ls0 & victim & ->).
        destruct (evict_full_spec self1 ls0 victim HR1 Hf)
          as (h2 & Hrun2 & HR2 & _).
        eexists. split; [exact Hrun2|]. split; [|done].
        rewrite (Rep_size _ _ HR2). rewrite length_app in Hlen.
        simpl in Hlen. lia.
      - exists self1. split; [by apply evict_not_full|]. split; [|done].
        unfold is_full in Hf. simpl in *. lia. }
    rewrite run_modify.
    assert (Z.of_nat (size (<[k:=fresh (dom (heap self))]> (cache self2)))
            ≤ capacity self)%Z as Hle.
    { rewrite map_size_insert. destruct (cache self2 !! k); simpl; lia. }
    apply Forall_cons. split; [done|].
    destruct (LRUCache._add_node _ _) as [[[] s4]|] eqn:E4; [|done].
    apply heap_only_add_node in E4 as [C4 _].
    apply Forall_cons. split; [by rewrite C4|].
    unfold LRUCache.refresh_cache_size. rewrite run_modify.
    apply Forall_cons. split; [by simpl; rewrite C4|done].
Qed.

End Size.

(** ** Timestamps *)

Section Timestamps.
Context {V T T' : Type} (f : T → T').
#[local] Abbreviation nat_f := (natural (V:=V) f).

Lemma natural_ret {A B} (g : A → B) a :
  nat_f g (ret a) (ret (g a)).
Proof. done. Qed.

Lemma natural_bind {A B A' B'} (g : A → A') (g' : B → B') m m' k k' :
  nat_f g m m' →
  (∀ a, nat_f g' (k a) (k' (g a))) →
  nat_f g' (m ≫= k) (m' ≫= k').
Proof.
  intros Hm Hk self. rewrite !run_bind, Hm.
  destruct (m self) as [[a s]|]; simpl; [apply Hk|done].
Qed.

Lemma natural_gets {A} (p : LRUCache V T → A) (p' : LRUCache V T' → A) :
  (∀ self, p' (cache_map f self) = p self) → nat_f id (gets p) (gets p').
Proof. intros H self. unfold gets. simpl. by rewrite H. Qed.

Lemma natural_modify (u : LRUCache V T → LRUCache V T)
    (u' : LRUCache V T' → LRUCache V T') :
  (∀ self, u' (cache_map f self) = cache_map f (u self)) →
  nat_f id (modify u) (modify u').
Proof. intros H self. unfold modify. simpl. by rewrite H. Qed.

Lemma natural_load l :
  nat_f (node_map f) (LRUCache.load l) (LRUCache.load l).
Proof.
  intros self. unfold LRUCache.load. simpl. rewrite lookup_fmap.
  by destruct (heap self !! l).
Qed.

Lemma natural_store l (u : LRUNode V T → LRUNode V T)
    (u' : LRUNode V T' → LRUNode V T') :
  (∀ n, u' (node_map f n) = node_map f (u n)) →
  nat_f id (LRUCache.store l u) (LRUCache.store l u').
Proof.
  intros H. eapply natural_bind; [apply natural_load|].
  intros n. apply natural_modify. intros self.
  unfold cache_map, with_heap. simpl. by rewrite fmap_insert, H.
Qed.

Lemma natural_deref r : nat_f id (LRUCache.deref r) (LRUCache.deref r).
Proof. by destruct r. Qed.

Lemma natural_new_LRUNode k v now :
  nat_f id (LRUCache.new_LRUNode k v now) (LRUCache.new_LRUNode k v (f now)).
Proof.
  intros self. unfold LRUCache.new_LRUNode.
  rewrite !run_bind, !run_gets, !run_bind, !run_modify. simpl.
  unfold cache_map, with_heap. simpl.
  by rewrite dom_fmap_L, fmap_insert.
Qed.

Ltac natural_step :=
  first
    [ apply natural_ret
    | apply natural_load
    | apply natural_deref
    | apply natural_new_LRUNode
    | apply natural_store; intros ?; reflexivity
    | apply natural_gets; intros ?; reflexivity
    | apply natural_modify; intros ?; reflexivity ].

Ltac natural_case :=
  match goal with
  | |- nat_f _ (match ?x with _ => _ end) _ => destruct x; simpl
  end.

Ltac natural_steps :=
  repeat first
    [ natural_step
    | eapply natural_bind; [natural_step|intros ?; simpl] ].

Lemma natural_remove_node l :
  nat_f id (LRUCache._remove_node l) (LRUCache._remove_node l).
Proof. unfold LRUCache._remove_node. natural_steps. Qed.

Lemma natural_add_node l :
  nat_f id (LRUCache._add_node l) (LRUCache._add_node l).
Proof. unfold LRUCache._add_node. natural_steps. Qed.

Lemma natural_move_to_head l :
  nat_f id (LRUCache._move_to_head l) (LRUCache._move_to_head l).
Proof.
  unfold LRUCache._move_to_head.
  eapply natural_bind; [apply natural_remove_node|].
  intros _. apply natural_add_node.
Qed.

Lemma natural_pop_tail : nat_f id LRUCache._pop_tail LRUCache._pop_tail.
Proof.
  unfold LRUCache._pop_tail. natural_steps.
  natural_case; natural_steps.
  eapply natural_bind; [apply natural_remove_node|].
  intros _. natural_steps.
Qed.

Lemma natural_cache_del k :
  nat_f id (LRUCache.cache_del k) (LRUCache.cache_del k).
Proof.
  intros self. unfold LRUCache.cache_del. simpl.
  by destruct (cache self !! k).
Qed.

Lemma natural_refresh_cache_size :
  nat_f id LRUCache.refresh_cache_size LRUCache.refresh_cache_size.
Proof. unfold LRUCache.refresh_cache_size. natural_steps. Qed.

Lemma natural_evict_if_full :
  nat_f id LRUCache.evict_if_full LRUCache.evict_if_full.
Proof.
  unfold LRUCache.evict_if_full. natural_steps.
  natural_case; [|natural_steps].
  eapply natural_bind; [apply natural_pop_tail|].
  intros [victim|]; simpl; [|natural_steps].
  natural_steps.
  eapply natural_bind; [apply natural_cache_del|].
  intros _. natural_steps.
Qed.

Lemma natural_get k : nat_f id (LRUCache.get k) (LRUCache.get k).
Proof.
  unfold LRUCache.get. natural_steps.
  natural_case; [|natural_steps].
  eapply natural_bind; [apply natural_move_to_head|].
  intros _. natural_steps.
Qed.

Lemma natural_put now k v :
  nat_f id (LRUCache.put now k v) (LRUCache.put (f now) k v).
Proof.
  unfold LRUCache.put. natural_steps.
  natural_case.
  - natural_steps.
    eapply natural_bind; [apply natural_move_to_head|].
    intros _. natural_steps.
  - natural_steps.
    eapply natural_bind; [apply natural_evict_if_full|].
    intros _. natural_steps.
    eapply natural_bind; [apply natural_add_node|].
    intros _.
    eapply natural_bind; [apply natural_refresh_cache_size|].
    intros _. natural_steps.
Qed.

Lemma natural_delete k : nat_f id (LRUCache.delete k) (LRUCache.delete k).
Proof.
  unfold LRUCache.delete. natural_steps.
  natural_case; [|natural_steps].
  eapply natural_bind; [apply natural_remove_node|].
  intros _.
  eapply natural_bind; [apply natural_cache_del|].
  intros _.
  eapply natural_bind; [apply natural_refresh_cache_size|].
  intros _. natural_steps.
Qed.

Lemma natural_clear : nat_f id LRUCache.clear LRUCache.clear.
Proof. unfold LRUCache.clear. natural_steps. Qed.

Lemma natural_size : nat_f id LRUCache.size LRUCache.size.
Proof. unfold LRUCache.size. natural_steps. Qed.

Lemma natural_get_metrics :
  nat_f id LRUCache.get_metrics LRUCache.get_metrics.
Proof.
  unfold LRUCache.get_metrics.
  eapply natural_bind; [apply natural_refresh_cache_size|].
  intros _. natural_steps.
Qed.

Lemma natural_call now (o : op V) :
  nat_f id (LRUCache.call now o) (LRUCache.call (f now) o).
Proof.
  destruct o as [k|k v|k| | |]; simpl.
  - eapply natural_bind; [apply natural_get|]. intros a. natural_steps.
  - eapply natural_bind; [apply natural_put|]. intros a. natural_steps.
  - eapply natural_bind; [apply natural_delete|]. intros a. natural_steps.
  - eapply natural_bind; [apply natural_clear|]. intros a. natural_steps.
  - eapply natural_bind; [apply natural_size|]. intros a. natural_steps.
  - eapply natural_bind; [apply natural_get_metrics|]. intros a. natural_steps.
Qed.

Lemma natural_run (script : list (T * op V)) :
  nat_f id (LRUCache.run script) (LRUCache.run (script_map f script)).
Proof.
  induction script as [|[now o] script IH]; simpl; [natural_steps|].
  eapply natural_bind; [apply natural_call|]. intros r.
  eapply natural_bind; [apply IH|]. intros rs. natural_steps.
Qed.

Lemma init_map (c : Z) (t_head t_tail : T) :
  LRUCache.__init__ (V:=V) c (f t_head) (f t_tail)
  = outcome_map (cache_map f) (LRUCache.__init__ c t_head t_tail).
Proof.
  unfold LRUCache.__init__. case_bool_decide; [done|]. cbv zeta.
  assert (fresh (dom (∅ : gmap loc (LRUNode V T')))
          = fresh (dom (∅ : gmap loc (LRUNode V T)))) as ->
    by (by rewrite !dom_empty_L).
  set (lh := fresh (dom (∅ : gmap loc (LRUNode V T)))).
  set (heap1 := <[lh := mkNode "" None None None t_head]> ∅).
  assert (<[lh := mkNode "" None None None (f t_head)]> ∅
          = node_map f <$> heap1) as ->
    by (unfold heap1; by rewrite fmap_insert, fmap_empty).
  rewrite dom_fmap_L.
  set (lt := fresh (dom heap1)).
  set (heap2 := <[lt := mkNode "" None None None t_tail]> heap1).
  assert (<[lt := mkNode "" None None None (f t_tail)]> (node_map f <$> heap1)
          = node_map f <$> heap2) as ->
    by (unfold heap2; by rewrite fmap_insert).
  set (self := mkCache c ∅ (mkMetrics 0 0 0 0 0 c) lh lt heap2).
  change (mkCache c ∅ (mkMetrics 0 0 0 0 0 c) lh lt (node_map f <$> heap2))
    with (cache_map f self).
  assert (nat_f id (LRUCache.store lh (set_next (Some lt));;
                      LRUCache.store lt (set_prev (Some lh)))
                     (LRUCache.store lh (set_next (Some lt));;
                      LRUCache.store lt (set_prev (Some lh)))) as Hnat.
  { natural_steps. }
  rewrite (Hnat self).
  match goal with
  | |- context [outcome_map _ ?x] => by destruct x as [[[] s]|]
  end.
Qed.

(** A session with other clock readings. *)
Lemma session_map c t_head t_tail (script : list (T * op V)) :
  session c (f t_head) (f t_tail) (script_map f script)
  = outcome_map (λ p, (p.1, cache_map f p.2))
      (session c t_head t_tail script).
Proof.
  unfold session. rewrite init_map.
  destruct (LRUCache.__init__ c t_head t_tail) as [self|]; simpl; [|done].
  rewrite (natural_run script self).
  by destruct (LRUCache.run script self) as [[rs s]|].
Qed.

End Timestamps.

Section Observation.
Context {V Time : Type}.

(** C9. Two sessions that make the same calls in the same order and differ
    only in the clock readings give the same results, evict the same keys
    and end with the same counters: what is observable does not depend on
    the timestamps stored in the entries. *)
Theorem timestamps_not_observable (c : Z)
    (t_head t_tail t_head' t_tail' : Time)
    (script script' : list (Time * op V)) :
  script.*2 = script'.*2 →
  observe (session c t_head t_tail script)
  = observe (session c t_head' t_tail' script').
Proof.
  intros Hops. unfold observe, erase.
  rewrite <-!(session_map (λ _, ())).
  f_equal. unfold script_map.
  transitivity ((λ o : op V, ((), o)) <$> script.*2).
  - by rewrite <-list_fmap_compose.
  - rewrite Hops. by rewrite <-list_fmap_compose.
Qed.

End Observation.

(** ** The theorems on concrete sessions *)

Lemma session_total {V Time} c (t_head t_tail : Time)
    (script : list (Time * op V)) :
  (0 < c)%Z →
  ∃ rs self, session c t_head t_tail script = Returns (rs, self)
             ∧ reachable self.
Proof.
  intros Hc. unfold session.
  destruct (init_spec (V:=V) c t_head t_tail Hc) as (lh & lt & hp & E & _).
  rewrite E. destruct (init_Inv _ _ _ _ E) as (HI & _).
  destruct (run_Inv _ [] script HI) as (rs & self & _ & Hrun & _).
  exists rs, self. split; [done|].
  eapply reachable_run; [|done]. by eapply reachable_init.
Qed.

Lemma lru_evicts_first_inserted_witness :
  (0 < 2)%Z
  ∧ ∃ (self0 self : LRUCache string Z),
      LRUCache.__init__ 2 0%Z 0%Z = Returns self0
      ∧ LRUCache.run (put_script [(1%Z, ("a", Some "1"));
                                  (2%Z, ("b", Some "2"));
                                  (3%Z, ("c", Some "3"))]) self0
        = Returns ([RPut true; RPut true; RPut true], self)
      ∧ cache self !! "a" = None
      ∧ dom (cache self) = {["b"; "c"]}
      ∧ evictions (metrics self) = 1%Z.
Proof.
  split; [lia|].
  destruct (lru_evicts_first_inserted (V:=string) 2 0%Z 0%Z
              (1%Z, ("a", Some "1"))
              [(2%Z, ("b", Some "2")); (3%Z, ("c", Some "3"))])
    as (self0 & self & Hinit & Hrun & Hnone & _ & _ & Hdom & Hev).
  - lia.
  - reflexivity.
  - simpl. repeat (apply NoDup_cons; split; [set_solver|]). apply NoDup_nil_2.
  - exists self0, self. split_and!; [done..| |done].
    rewrite Hdom. simpl. set_solver.
Defined.

Lemma get_protects_from_eviction_witness :
  ∃ self : LRUCache string Z,
    reachable self
    ∧ (2 ≤ capacity self)%Z
    ∧ is_full self
    ∧ is_Some (cache self !! "a")
    ∧ cache self !! "c" = None
    ∧ refreshed_key_survives self "a" 3%Z "c" (Some "3").
Proof.
  destruct (session_total (V:=string) 2 0%Z 0%Z two_puts)
    as (rs & self & Hs & Hr); [lia|].
  vm_compute in Hs. injection Hs as _ Hs.
  exists self. split; [exact Hr|].
  assert (2 ≤ capacity self)%Z as H2 by (rewrite <-Hs; by vm_compute).
  assert (is_full self) as Hf by (rewrite <-Hs; by vm_compute).
  assert (is_Some (cache self !! "a")) as Hk
    by (rewrite <-Hs; vm_compute; eauto).
  assert (cache self !! "c" = None) as Hk'
    by (rewrite <-Hs; vm_compute; reflexivity).
  split; [exact H2|]. split; [exact Hf|]. split; [exact Hk|].
  split; [exact Hk'|].
  exact (get_protects_from_eviction self "a" 3%Z "c" (Some "3")
           Hr H2 Hf Hk Hk').
Defined.

Lemma requests_counter_invariant_witness :
  ∃ self : LRUCache string Z,
    reachable self
    ∧ (hits (metrics self) + misses (metrics self)
       = total_requests (metrics self))%Z
    ∧ ∃ r self', LRUCache.get "a" self = Returns (r, self')
                 ∧ total_requests (metrics self')
                   = (total_requests (metrics self) + 1)%Z.
Proof.
  destruct (session_total (V:=string) 2 0%Z 0%Z
              (two_puts ++ [(3%Z, Get "a"); (4%Z, Get "z")]))
    as (rs & self & Hs & Hr); [lia|].
  vm_compute in Hs. injection Hs as _ Hs.
  exists self. split; [exact Hr|].
  destruct (requests_counter_invariant _ Hr) as (Hsum & Hget & _).
  split; [exact Hsum|exact (Hget "a")].
Defined.

Lemma size_within_capacity_witness :
  ∃ self : LRUCache string Z,
    reachable self
    ∧ (0 ≤ Z.of_nat (size (cache self)) ≤ capacity self)%Z
    ∧ (∃ ls, recency_list self = Some ls ∧ length ls = size (cache self))
    ∧ Forall (λ s, (Z.of_nat (size (cache s)) ≤ capacity self)%Z)
             (LRUCache.put_points 3%Z "c" (Some "3") self).
Proof.
  destruct (session_total (V:=string) 2 0%Z 0%Z two_puts)
    as (rs & self & Hs & Hr); [lia|].
  vm_compute in Hs. injection Hs as _ Hs.
  exists self. split; [exact Hr|].
  destruct (size_within_capacity _ Hr) as (_ & _ & Hb & Hl & Hput).
  split; [exact Hb|]. split; [exact Hl|].
  destruct (Hput 3%Z "c" (Some "3")) as (b & self' & _ & _ & Hall).
  exact Hall.
Defined.

Lemma put_existing_updates_witness :
  ∃ self : LRUCache string Z,
    reachable self
    ∧ is_Some (cache self !! "a")
    ∧ ∃ self' self'',
        LRUCache.put 3%Z "a" (Some "9") self = Returns (false, self')
        ∧ cache self' = cache self
        ∧ metrics self' = metrics self
        ∧ LRUCache.get "a" self' = Returns (Some "9", self'').
Proof.
  destruct (session_total (V:=string) 2 0%Z 0%Z two_puts)
    as (rs & self & Hs & Hr); [lia|].
  vm_compute in Hs. injection Hs as _ Hs.
  exists self. split; [exact Hr|].
  assert (is_Some (cache self !! "a")) as Hk;
    [|split; [exact Hk|]].
  { rewrite <-Hs. vm_compute. eauto. }
  destruct (put_existing_updates _ 3%Z "a" (Some "9") Hr Hk)
    as (self' & self'' & n & l & pre & post
        & Hput & _ & _ & Hc & Hm & Hget & _).
  exists self', self''. split_and!; [exact Hput|exact Hc|exact Hm|exact Hget].
Defined.

Lemma get_absent_frame_witness :
  ∃ self : LRUCache string Z,
    cache self !! "z" = None
    ∧ ∃ self', LRUCache.get "z" self = Returns (None, self')
               ∧ misses (metrics self') = (misses (metrics self) + 1)%Z
               ∧ heap self' = heap self
               ∧ cache self' = cache self.
Proof.
  destruct (session_total (V:=string) 2 0%Z 0%Z two_puts)
    as (rs & self & Hs & Hr); [lia|].
  vm_compute in Hs. injection Hs as _ Hs.
  exists self.
  assert (cache self !! "z" = None) as Hk;
    [|split; [exact Hk|]].
  { rewrite <-Hs. vm_compute. reflexivity. }
  destruct (get_absent_frame _ "z" Hk)
    as (self' & n & Hget & Hmiss & _ & _ & _ & _ & _ & _ & Hc & _ & _ & Hh & _).
  exists self'. split_and!; [exact Hget|exact Hmiss|exact Hh|exact Hc].
Defined.

Lemma construction_and_totality_witness :
  (0 < 3)%Z
  ∧ ∃ (self : LRUCache string Z) rs self',
      LRUCache.__init__ 3 0%Z 0%Z = Returns self
      ∧ LRUCache.run two_puts self = Returns (rs, self').
Proof.
  split; [lia|].
  destruct (construction_and_totality (V:=string) 3 0%Z 0%Z)
    as (_ & Hok & Hrun).
  destruct (proj2 Hok) as [self Hinit]; [lia|].
  destruct (Hrun self two_puts Hinit) as (rs & self' & E).
  exists self, rs, self'. split; [exact Hinit|exact E].
Defined.

Lemma clear_keeps_counters_witness :
  ∃ self : LRUCache string Z,
    reachable self
    ∧ ∃ self', LRUCache.clear self = Returns (tt, self')
               ∧ LRUCache.size self' = Returns (0%Z, self')
               ∧ hits (metrics self') = hits (metrics self)
               ∧ misses (metrics self') = misses (metrics self)
               ∧ evictions (metrics self') = evictions (metrics self)
               ∧ total_requests (metrics self')
                 = total_requests (metrics self).
Proof.
  destruct (session_total (V:=string) 2 0%Z 0%Z
              (two_puts ++ [(3%Z, Get "a"); (4%Z, Get "z")]))
    as (rs & self & Hs & Hr); [lia|].
  vm_compute in Hs. injection Hs as _ Hs.
  exists self. split; [exact Hr|].
  destruct (clear_keeps_counters _ Hr)
    as (self' & Hclear & Hsize & _ & _ & H1 & H2 & H3 & H4 & _).
  exists self'. split_and!; [exact Hclear|exact Hsize|exact H1|exact H2
                            |exact H3|exact H4].
Defined.

Lemma timestamps_not_observable_witness :
  two_puts.*2 = [(7%Z, Put "a" (Some "1")); (9%Z, Put "b" (Some "2"))].*2
  ∧ observe (session 2 0%Z 0%Z two_puts)
    = observe (session 2 5%Z 6%Z
                 [(7%Z, Put "a" (Some "1")); (9%Z, Put "b" (Some "2"))]).
Proof.
  split; [reflexivity|].
  apply timestamps_not_observable. reflexivity.
Defined.

Lemma eviction_pops_real_entry_witness :
  ∃ self : LRUCache string Z,
    reachable self
    ∧ cache self !! "c" = None
    ∧ is_full self
    ∧ ∃ (lnew victim : loc) self1 self1' self',
        LRUCache.new_LRUNode "c" (Some "3") 3%Z self = Returns (lnew, self1)
        ∧ LRUCache._pop_tail self1 = Returns (Some victim, self1')
        ∧ LRUCache.put 3%Z "c" (Some "3") self = Returns (true, self')
        ∧ evictions (metrics self') = (evictions (metrics self) + 1)%Z
        ∧ size (cache self') = size (cache self).
Proof.
  destruct (session_total (V:=string) 2 0%Z 0%Z two_puts)
    as (rs & self & Hs & Hr); [lia|].
  vm_compute in Hs. injection Hs as _ Hs.
  exists self. split; [exact Hr|].
  assert (cache self !! "c" = None) as Hk;
    [|split; [exact Hk|]].
  { rewrite <-Hs. vm_compute. reflexivity. }
  assert (is_full self) as Hf; [|split; [exact Hf|]].
  { rewrite <-Hs. by vm_compute. }
  destruct (eviction_pops_real_entry _ 3%Z "c" (Some "3") Hr Hk Hf)
    as (lnew & victim & self1 & self1' & self' & ls0
        & H1 & H2 & H3 & H4 & _ & _ & _ & _ & H5).
  exists lnew, victim, self1, self1', self'.
  split_and!; [exact H1|exact H2|exact H3|exact H4|exact H5].
Defined.

(** ** The tests of the repository *)

(** [TestLRUCache.test_eviction] *)
Example test_eviction :
  results_of 3 [Put "k0" (Some "v0"); Put "k1" (Some "v1");
                Put "k2" (Some "v2"); Put "k3" (Some "v3");
                Get "k0"; Get "k3"]
  = Returns [RPut true; RPut true; RPut true; RPut true;
             RGet None; RGet (Some "v3")].
Proof. vm_compute. reflexivity. Qed.

(** [TestLRUCache.test_lru_order] *)
Example test_lru_order :
  results_of 3 [Put "k1" (Some "v1"); Put "k2" (Some "v2");
                Put "k3" (Some "v3"); Get "k1"; Put "k4" (Some "v4");
                Get "k2"; Get "k1"]
  = Returns [RPut true; RPut true; RPut true; RGet (Some "v1"); RPut true;
             RGet None; RGet (Some "v1")].
Proof. vm_compute. reflexivity. Qed.

(** [TestLRUCache.test_update_no_eviction] *)
Example test_update_no_eviction :
  results_of 3 [Put "k0" (Some "v0"); Put "k1" (Some "v1");
                Put "k2" (Some "v2"); Put "k0" (Some "updated");
                Size; Get "k0"]
  = Returns [RPut true; RPut true; RPut true; RPut false;
             RSize 3; RGet (Some "updated")].
Proof. vm_compute. reflexivity. Qed.

(** [TestLRUCache.test_delete_clear] *)
Example test_delete_clear :
  results_of 3 [Put "k1" (Some "v1"); Put "k2" (Some "v2");
                Delete "k1"; Clear; Size]
  = Returns [RPut true; RPut true; RDelete true; RClear; RSize 0].
Proof. vm_compute. reflexivity. Qed.

(** [TestMetrics.test_eviction_count] *)
Example test_eviction_count :
  results_of 3 [Put "k0" (Some "v0"); Put "k1" (Some "v1");
                Put "k2" (Some "v2"); Put "k3" (Some "v3"); GetMetrics;
                Put "k4" (Some "v4"); GetMetrics]
  = Returns [RPut true; RPut true; RPut true; RPut true;
             RMetrics (mkMetrics 0 0 1 0 3 3);
             RPut true;
             RMetrics (mkMetrics 0 0 2 0 3 3)].
Proof. vm_compute. reflexivity. Qed.

(** [TestEdgeCases.test_invalid_capacity] *)
Example test_invalid_capacity :
  results_of 0 [] = Raises (ValueError "Capacity must be greater than 0")
  ∧ results_of (-1) []
    = Raises (ValueError "Capacity must be greater than 0").
Proof. split; reflexivity. Qed.

(** [TestEdgeCases.test_single_capacity] *)
Example test_single_capacity :
  results_of 1 [Put "k1" (Some "v1"); Put "k2" (Some "v2");
                Get "k1"; Get "k2"]
  = Returns [RPut true; RPut true; RGet None; RGet (Some "v2")].
Proof. vm_compute. reflexivity. Qed.

(** The states inside a [put] that evicts: after the allocation, three
    for the eviction, then the insertion in the table, the insertion in
    the list and the refreshed size. *)
Example put_points_evicting :
  match session 1 0%Z 0%Z [(1%Z, Put "a" (Some "1"))] with
  | Returns (_, self) =>
      (λ s : LRUCache string Z, size (cache s))
        <$> LRUCache.put_points 2%Z "b" (Some "2") self
      = [1; 1; 0; 0; 1; 1; 1]
  | Raises _ => False
  end.
Proof. vm_compute. reflexivity. Qed.

(** * Further properties of the methods *)

(** ** Single calls on a reachable cache *)

Section Calls.
Context {V Time : Type}.
Implicit Types (self : LRUCache V Time) (ls : list loc) (k : string).
Implicit Types (v : option V).

Lemma reachable_Rep_split self k (l : loc) :
  reachable self →
  cache self !! k = Some l →
  ∃ pre post, Inv self (pre ++ l :: post)
              ∧ entry (heap self) l = (k, (entry (heap self) l).2).
Proof.
  intros Hreach Hk. destruct (reachable_Inv _ Hreach) as [ls HI].
  pose proof (rep_table _ _ (inv_rep _ _ HI) k l) as [Hin _].
  destruct (Hin Hk) as [Hl Hkey].
  apply list_elem_of_split in Hl as (pre & post & ->).
  exists pre, post. split; [done|].
  destruct (entry (heap self) l) as [k0 v0]. simpl in *. by subst.
Qed.

(** X5. [get] on a key of the table returns the value its node holds,
    counts a hit, leaves the table and all keys and values as they are, and
    moves the node to the front of the recency list, the others keeping
    their order. *)
Theorem get_hit_moves_to_front self k (l : loc) :
  reachable self →
  cache self !! k = Some l →
  ∃ self' pre post,
    LRUCache.get k self = Returns ((entry (heap self) l).2, self')
    ∧ metrics self' = count_hit (metrics self)
    ∧ cache self' = cache self
    ∧ recency_list self = Some (pre ++ l :: post)
    ∧ recency_list self' = Some (l :: pre ++ post)
    ∧ (∀ x, entry (heap self') x = entry (heap self) x).
Proof.
  intros Hreach Hk.
  destruct (reachable_Rep_split _ _ _ Hreach Hk) as (pre & post & HI & _).
  pose proof (inv_rep _ _ HI) as HR.
  destruct (get_hit_spec self pre l post k HR Hk)
    as (h' & Hrun & HR' & _ & Hent).
  eexists _, pre, post. split; [exact Hrun|].
  split_and!; [done|done| | |done].
  - by apply Rep_recency_list.
  - by apply Rep_recency_list in HR'.
Qed.

(** X1. [delete] on a key that is not in the table returns [False] and
    changes nothing. On a key of the table it returns [True], removes that
    key from the table and its node from the recency list, keeps the order
    and the contents of the others, leaves the counters of requests and
    evictions alone, and a following [get] on the key is a miss. *)
Theorem delete_removes_exactly self k :
  reachable self →
  (cache self !! k = None →
   LRUCache.delete k self = Returns (false, self))
  ∧ (∀ l : loc, cache self !! k = Some l →
     ∃ self' pre post,
       LRUCache.delete k self = Returns (true, self')
       ∧ cache self' = delete k (cache self)
       ∧ size (cache self') = pred (size (cache self))
       ∧ recency_list self = Some (pre ++ l :: post)
       ∧ recency_list self' = Some (pre ++ post)
       ∧ (∀ x, entry (heap self') x = entry (heap self) x)
       ∧ requests (metrics self') = requests (metrics self)
       ∧ evictions (metrics self') = evictions (metrics self)
       ∧ LRUCache.get k self'
         = Returns (None, with_metrics count_miss self')).
Proof.
  intros Hreach. split; [apply delete_miss_spec|].
  intros l Hk.
  destruct (reachable_Rep_split _ _ _ Hreach Hk) as (pre & post & HI & _).
  pose proof (inv_rep _ _ HI) as HR.
  destruct (delete_hit_spec self pre l post k HR Hk)
    as (h' & Hrun & HR' & _ & Hent).
  eexists _, pre, post. split; [exact Hrun|].
  split_and!; [done| | | |done|done|done|].
  - simpl. by rewrite map_size_delete, Hk.
  - by apply Rep_recency_list.
  - by apply Rep_recency_list in HR'.
  - apply get_miss_spec. simpl. apply lookup_delete_eq.
Qed.

(** X6. [put] of a new key into a cache that is not full returns [True]
    and evicts nothing: the table gains exactly that key, the new node
    holds the key and the value and stands at the front of the recency
    list, before the others in their order. *)
Theorem put_new_with_room self now k v :
  reachable self →
  cache self !! k = None →
  ¬ is_full self →
  ∃ self' (lnew : loc) ls,
    LRUCache.put now k v self = Returns (true, self')
    ∧ cache self' = <[k:=lnew]> (cache self)
    ∧ size (cache self') = S (size (cache self))
    ∧ recency_list self = Some ls
    ∧ recency_list self' = Some (lnew :: ls)
    ∧ entry (heap self') lnew = (k, v)
    ∧ (∀ x, x ∈ ls → entry (heap self') x = entry (heap self) x)
    ∧ evictions (metrics self') = evictions (metrics self)
    ∧ cache_size (metrics self') = Z.of_nat (S (size (cache self))).
Proof.
  intros Hreach Hk Hnf. destruct (reachable_Inv _ Hreach) as [ls HI].
  pose proof (inv_rep _ _ HI) as HR.
  destruct (put_new_spec self ls now k v HR Hk Hnf)
    as (h' & Hrun & HR' & Hent & Hents).
  eexists _, _, ls. split; [exact Hrun|].
  assert (size (<[k:=fresh (dom (heap self))]> (cache self))
          = S (size (cache self))) as Hsz
    by by apply map_size_insert_None.
  split_and!; [done|done| | |done|done|done|].
  - by apply Rep_recency_list.
  - by apply Rep_recency_list in HR'.
  - simpl. by rewrite Hsz.
Qed.

(** What every [put] establishes. *)
Lemma put_binds self ls now k v :
  Inv self ls →
  ∃ b self' ls' (l : loc),
    LRUCache.put now k v self = Returns (b, self')
    ∧ Inv self' ls'
    ∧ l ∈ ls'
    ∧ cache self' !! k = Some l
    ∧ entry (heap self') l = (k, v)
    ∧ capacity self' = capacity self.
Proof.
  intros HI. pose proof HI as [HR Hc Hlen Hreq Hmax].
  pose proof (Rep_size _ _ HR) as Hsz.
  destruct (put_Inv self ls now k v HI) as (b & self' & ls' & Hput & HI' & Hcap).
  destruct (cache self !! k) as [l|] eqn:Hk.
  - pose proof (rep_table _ _ HR k l) as [Hin _].
    destruct (Hin Hk) as [Hl _].
    apply list_elem_of_split in Hl as (pre & post & ->).
    destruct (put_update_spec self pre l post now k v HR Hk)
      as (h' & Hrun & HR' & _ & Hent & _).
    eexists false, _, _, l. split; [exact Hrun|].
    rewrite Hrun in Hput. injection Hput as _ <-.
    split_and!; [| |done..].
    + split; [done|done| |done|done]. simpl capacity.
      rewrite length_app in *. simpl length in *. rewrite length_app. lia.
    + set_solver.
  - destruct (decide (capacity self ≤ Z.of_nat (size (cache self)))%Z)
      as [Hf|Hf]; fold (is_full self) in Hf.
    + assert (ls ≠ []) as Hne.
      { intros ->. unfold is_full in Hf. rewrite Hsz in Hf. simpl in *. lia. }
      destruct (exists_last Hne) as (ls0 & last & ->).
      destruct (put_new_evict_spec self ls0 last now k v HR Hk Hf)
        as (h' & Hrun & HR' & Hent & _).
      eexists true, _, _, _. split; [exact Hrun|].
      split_and!; [|left| |exact Hent|done].
      * split; [exact HR'|done| |done|done]. simpl capacity.
        rewrite length_app in Hlen. simpl length in *. lia.
      * apply (rep_table _ _ HR'). split; [left|]. simpl. by rewrite Hent.
    + destruct (put_new_spec self ls now k v HR Hk Hf)
        as (h' & Hrun & HR' & Hent & _).
      eexists true, _, _, _. split; [exact Hrun|].
      split_and!; [|left| |exact Hent|done].
      * split; [exact HR'|done| |done|done]. simpl capacity.
        unfold is_full in Hf. rewrite Hsz in Hf. simpl length. lia.
      * apply (rep_table _ _ HR'). split; [left|]. simpl. by rewrite Hent.
Qed.

(** X7. After [put(k, v)], whichever branch it takes, [get(k)] returns
    [v] and counts a hit. *)
Theorem put_then_get self now k v :
  reachable self →
  ∃ b self1 self2,
    LRUCache.put now k v self = Returns (b, self1)
    ∧ LRUCache.get k self1 = Returns (v, self2)
    ∧ metrics self2 = count_hit (metrics self1).
Proof.
  intros Hreach. destruct (reachable_Inv _ Hreach) as [ls HI].
  destruct (put_binds self ls now k v HI)
    as (b & self1 & ls1 & l & Hput & HI1 & Hl & Hk & Hent & _).
  apply list_elem_of_split in Hl as (pre & post & ->).
  destruct (get_hit_spec self1 pre l post k (inv_rep _ _ HI1) Hk)
    as (h' & Hget & _).
  rewrite Hent in Hget. eexists b, self1, _. split; [exact Hput|].
  split; [exact Hget|done].
Qed.

(** X9. In a cache of capacity 1, after any [put(k, v)] the table holds
    the key [k] and no other. *)
Theorem capacity_one_keeps_last self now k v :
  reachable self →
  capacity self = 1%Z →
  ∃ b self',
    LRUCache.put now k v self = Returns (b, self')
    ∧ dom (cache self') = {[k]}.
Proof.
  intros Hreach Hc1. destruct (reachable_Inv _ Hreach) as [ls HI].
  destruct (put_binds self ls now k v HI)
    as (b & self' & ls' & l & Hput & HI' & Hl & Hk & Hent & Hcap).
  exists b, self'. split; [exact Hput|].
  pose proof HI' as [HR' _ Hlen' _ _].
  rewrite (Rep_dom _ _ HR').
  destruct ls' as [|l' [|l'' ls']].
  - by apply elem_of_nil in Hl.
  - apply list_elem_of_singleton in Hl as <-.
    unfold view. simpl. rewrite Hent. simpl. set_solver.
  - rewrite Hcap, Hc1 in Hlen'. simpl in Hlen'. lia.
Qed.

(** X2. [delete] makes room: after deleting a key of the table, a [put] of
    a new key evicts nothing, even when the cache was full. The table then
    holds the new key and all the keys it held, but the deleted one. *)
Theorem delete_frees_slot self now k k' v' :
  reachable self →
  is_Some (cache self !! k) →
  cache self !! k' = None →
  ∃ self1 self2,
    LRUCache.delete k self = Returns (true, self1)
    ∧ LRUCache.put now k' v' self1 = Returns (true, self2)
    ∧ evictions (metrics self2) = evictions (metrics self)
    ∧ dom (cache self2) = {[k']} ∪ (dom (cache self) ∖ {[k]}).
Proof.
  intros Hreach [l Hk] Hk'.
  destruct (reachable_Rep_split _ _ _ Hreach Hk) as (pre & post & HI & _).
  pose proof HI as [HR Hc Hlen _ _].
  destruct (delete_hit_spec self pre l post k HR Hk)
    as (h1 & Hdel & HR1 & _ & _).
  set (cache1 := delete k (cache self)) in *.
  set (self1 := mkCache (capacity self) cache1
                  (set_cache_size (Z.of_nat (size cache1)) (metrics self))
                  (head self) (tail self) h1) in *.
  assert (cache self1 !! k' = None) as Hk1.
  { simpl. unfold cache1. rewrite lookup_delete_None. by right. }
  assert (¬ is_full self1) as Hnf.
  { unfold is_full. rewrite (Rep_size _ _ HR1). simpl capacity.
    rewrite length_app in *. simpl length in *. lia. }
  destruct (put_new_spec self1 _ now k' v' HR1 Hk1 Hnf) as (h2 & Hput & _).
  eexists self1, _. split; [exact Hdel|]. split; [exact Hput|].
  split; [done|]. simpl. unfold cache1.
  rewrite dom_insert_L, dom_delete_L. set_solver.
Qed.

End Calls.

(** ** Bookkeeping *)

Section Bookkeeping.
Context {V Time : Type}.
Implicit Types (self : LRUCache V Time) (ls : list loc) (k : string).
Implicit Types (v : option V).

(** What one call does to the table size and to the counters. *)
Lemma call_effect self ls now (o : op V) r self' :
  Inv self ls →
  LRUCache.call now o self = Returns (r, self') →
  let n := Z.of_nat (size (cache self)) in
  let n' := Z.of_nat (size (cache self')) in
  let m := metrics self in
  let m' := metrics self' in
  match o, r with
  | Get _, RGet _ => n' = n ∧ (m' = count_hit m ∨ m' = count_miss m)
  | Put _ _, RPut false => n' = n ∧ m' = m
  | Put _ _, RPut true =>
      (n' = (n + 1)%Z ∧ m' = set_cache_size n' m)
      ∨ (n' = n ∧ m' = set_cache_size n' (count_eviction m))
  | Delete _, RDelete false => n' = n ∧ m' = m
  | Delete _, RDelete true => n' = (n - 1)%Z ∧ m' = set_cache_size n' m
  | Clear, RClear => n' = 0%Z ∧ m' = set_cache_size 0 m
  | Size, RSize z => n' = n ∧ m' = m ∧ z = n
  | GetMetrics, RMetrics mr => n' = n ∧ m' = set_cache_size n m ∧ mr = m'
  | _, _ => False
  end.
Proof.
  intros HI Hcall. pose proof HI as [HR Hc Hlen _ _].
  pose proof (Rep_size _ _ HR) as Hsz.
  destruct o as [k|k v|k| | |]; simpl in Hcall; rewrite run_bind in Hcall.
  - destruct (LRUCache.get k self) as [[x s]|] eqn:Hget; [|done].
    injection Hcall as <- <-.
    destruct (cache self !! k) as [l|] eqn:Hk.
    + pose proof (rep_table _ _ HR k l) as [Hin _].
      destruct (Hin Hk) as [Hl _].
      apply list_elem_of_split in Hl as (pre & post & ->).
      destruct (get_hit_spec self pre l post k HR Hk) as (h' & Hrun & _).
      rewrite Hrun in Hget. injection Hget as _ <-. simpl. by split; [|left].
    + rewrite (get_miss_spec _ _ Hk) in Hget. injection Hget as _ <-.
      simpl. by split; [|right].
  - destruct (LRUCache.put now k v self) as [[b s]|] eqn:Hput; [|done].
    injection Hcall as <- <-.
    destruct (cache self !! k) as [l|] eqn:Hk.
    + pose proof (rep_table _ _ HR k l) as [Hin _].
      destruct (Hin Hk) as [Hl _].
      apply list_elem_of_split in Hl as (pre & post & ->).
      destruct (put_update_spec self pre l post now k v HR Hk)
        as (h' & Hrun & _).
      rewrite Hrun in Hput. injection Hput as <- <-. by simpl.
    + destruct (decide (capacity self ≤ Z.of_nat (size (cache self)))%Z)
        as [Hf|Hf]; fold (is_full self) in Hf.
      * assert (ls ≠ []) as Hne.
        { intros ->. unfold is_full in Hf. rewrite Hsz in Hf. simpl in *. lia. }
        destruct (exists_last Hne) as (ls0 & last & ->).
        destruct (put_new_evict_spec self ls0 last now k v HR Hk Hf)
          as (h' & Hrun & HR' & _).
        rewrite Hrun in Hput. injection Hput as <- <-.
        right. split; [|done].
        rewrite (Rep_size _ _ HR'), Hsz, length_app. simpl. lia.
      * destruct (put_new_spec self ls now k v HR Hk Hf)
          as (h' & Hrun & HR' & _).
        rewrite Hrun in Hput. injection Hput as <- <-.
        left. split; [|done].
        rewrite (Rep_size _ _ HR'), Hsz. simpl length. lia.
  - destruct (LRUCache.delete k self) as [[b s]|] eqn:Hdel; [|done].
    injection Hcall as <- <-.
    destruct (cache self !! k) as [l|] eqn:Hk.
    + pose proof (rep_table _ _ HR k l) as [Hin _].
      destruct (Hin Hk) as [Hl _].
      apply list_elem_of_split in Hl as (pre & post & ->).
      destruct (delete_hit_spec self pre l post k HR Hk)
        as (h' & Hrun & HR' & _).
      rewrite Hrun in Hdel. injection Hdel as <- <-.
      split; [|done].
      rewrite (Rep_size _ _ HR'), Hsz, !length_app. simpl. lia.
    + rewrite (delete_miss_spec _ _ Hk) in Hdel. by injection Hdel as <- <-.
  - destruct (clear_spec self ls HR) as (h' & Hrun & _).
    rewrite Hrun in Hcall. by injection Hcall as <- <-.
  - unfold LRUCache.size in Hcall. rewrite run_gets in Hcall.
    by injection Hcall as <- <-.
  - unfold LRUCache.get_metrics, LRUCache.refresh_cache_size in Hcall.
    rewrite run_bind, run_modify, run_gets in Hcall.
    by injection Hcall as <- <-.
Qed.

Lemma set_cache_size_id (m : CacheMetrics) : set_cache_size (cache_size m) m = m.
Proof. by destruct m. Qed.

Lemma with_metrics_id self f : f (metrics self) = metrics self → with_metrics f self = self.
Proof. intros E. unfold with_metrics. rewrite E. by destruct self. Qed.

(** The invariant of the counters [cache_size] and [max_size], and the
    sign of the others. *)
Lemma reachable_metrics self :
  reachable self →
  cache_size (metrics self) = Z.of_nat (size (cache self))
  ∧ max_size (metrics self) = capacity self
  ∧ (0 ≤ hits (metrics self))%Z
  ∧ (0 ≤ misses (metrics self))%Z
  ∧ (0 ≤ evictions (metrics self))%Z
  ∧ (0 ≤ total_requests (metrics self))%Z.
Proof.
  induction 1 as [c t1 t2 self Hinit
                 |self now o r self' Hreach (IH1 & IH2 & IH3 & IH4 & IH5 & IH6)
                  Hcall].
  - apply init_Inv in Hinit as (_ & Hcap & -> & ->). simpl.
    rewrite map_size_empty. simpl. lia.
  - destruct (reachable_Inv _ Hreach) as [ls HI].
    destruct (call_Inv self ls now o HI) as (r' & s' & ls' & Hrun & HI' & Hcap).
    rewrite Hrun in Hcall. injection Hcall as -> ->.
    pose proof (call_effect _ _ _ _ _ _ HI Hrun) as He. simpl in He.
    pose proof (inv_max_size _ _ HI') as Hmax.
    split; [|split; [done|]].
    + destruct o, r; try done; destruct_and?; try destruct b;
        destruct_and?; destruct_or?; destruct_and?;
        repeat match goal with H : metrics self' = _ |- _ => rewrite H end;
        simpl; congruence.
    + destruct o, r; try done; destruct_and?; try destruct b;
        destruct_and?; destruct_or?; destruct_and?;
        repeat match goal with H : metrics self' = _ |- _ => rewrite H end;
        simpl; lia.
Qed.

(** X3. In every reachable state the counters [cache_size] and [max_size]
    are up to date: [cache_size] is the number of keys of the table, which
    [size()] returns, and [max_size] is the capacity. [get_metrics()]
    therefore returns the counters as they are and changes nothing. *)
Theorem cache_size_accurate self :
  reachable self →
  cache_size (metrics self) = Z.of_nat (size (cache self))
  ∧ LRUCache.size self = Returns (cache_size (metrics self), self)
  ∧ max_size (metrics self) = capacity self
  ∧ LRUCache.get_metrics self = Returns (metrics self, self).
Proof.
  intros Hreach.
  destruct (reachable_metrics _ Hreach) as (Hsz & Hmax & _).
  split; [done|]. split; [|split; [done|]].
  - unfold LRUCache.size. by rewrite run_gets, Hsz.
  - unfold LRUCache.get_metrics, LRUCache.refresh_cache_size.
    rewrite run_bind, run_modify, run_gets.
    rewrite with_metrics_id; [done|].
    rewrite <-Hsz. apply set_cache_size_id.
Qed.

(** X10. The counters [hits], [misses], [evictions] and [total_requests]
    are cumulative: they start at 0 and no call makes any of them
    smaller. *)
Theorem counters_never_decrease self now (o : op V) r self' :
  reachable self →
  LRUCache.call now o self = Returns (r, self') →
  (0 ≤ hits (metrics self) ≤ hits (metrics self'))%Z
  ∧ (0 ≤ misses (metrics self) ≤ misses (metrics self'))%Z
  ∧ (0 ≤ evictions (metrics self) ≤ evictions (metrics self'))%Z
  ∧ (0 ≤ total_requests (metrics self) ≤ total_requests (metrics self'))%Z.
Proof.
  intros Hreach Hcall.
  destruct (reachable_metrics _ Hreach) as (_ & _ & H1 & H2 & H3 & H4).
  destruct (reachable_Inv _ Hreach) as [ls HI].
  pose proof (call_effect _ _ _ _ _ _ HI Hcall) as He. simpl in He.
  destruct o, r; try done; destruct_and?; try destruct b;
    destruct_and?; destruct_or?; destruct_and?;
    repeat match goal with H : metrics self' = _ |- _ => rewrite H end;
    simpl; lia.
Qed.

End Bookkeeping.

(** ** Accounting of entries, and [clear] twice *)

Section Accounting.
Context {V Time : Type}.
Implicit Types (self : LRUCache V Time) (ls : list loc) (k : string).
Implicit Types (v : option V).

(** X4. Over any sequence of calls without [clear], the number of entries
    grows by one for each [put] that returns [True], and shrinks by one
    for each [delete] that returns [True] and for each eviction. *)
Theorem size_accounting (script : list (Time * op V)) self rs self' :
  reachable self →
  Forall (λ p, p.2 ≠ Clear) script →
  LRUCache.run script self = Returns (rs, self') →
  (Z.of_nat (size (cache self'))
   = Z.of_nat (size (cache self)) + net_inserted rs
     - (evictions (metrics self') - evictions (metrics self)))%Z.
Proof.
  revert self rs. induction script as [|[now o] script IH];
    intros self rs Hreach Hnc Hrun; simpl in Hrun.
  - injection Hrun as <- <-. simpl. lia.
  - rewrite run_bind in Hrun.
    destruct (LRUCache.call now o self) as [[r s1]|] eqn:Hcall; [|done].
    rewrite run_bind in Hrun.
    destruct (LRUCache.run script s1) as [[rs1 s2]|] eqn:Hrun1; [|done].
    injection Hrun as <- <-.
    apply Forall_cons in Hnc as [Ho Hnc]. simpl in Ho.
    assert (reachable s1) as Hreach1 by by eapply reachable_call.
    specialize (IH s1 rs1 Hreach1 Hnc Hrun1). rewrite IH.
    destruct (reachable_Inv _ Hreach) as [ls HI].
    pose proof (call_effect _ _ _ _ _ _ HI Hcall) as He. simpl in He.
    destruct o, r; try done; destruct_and?; try destruct b;
      destruct_and?; destruct_or?; destruct_and?;
      repeat match goal with H : metrics s1 = _ |- _ => rewrite H end;
      simpl; lia.
Qed.

Lemma clear_explicit self hd td :
  head self ≠ tail self →
  heap self !! head self = Some hd →
  heap self !! tail self = Some td →
  LRUCache.clear self
  = Returns (tt, mkCache (capacity self) ∅ (set_cache_size 0 (metrics self))
                   (head self) (tail self)
                   (<[tail self := set_prev (Some (head self)) td]>
                      (<[head self := set_next (Some (tail self)) hd]>
                         (heap self)))).
Proof.
  intros Hne Hhd Htd. unfold LRUCache.clear.
  rewrite (run_bind_Returns _ _ _ _ _ (run_modify _ _)).
  rewrite (run_bind_Returns _ _ _ _ _ (run_gets _ _)).
  rewrite (run_bind_Returns _ _ _ _ _ (run_gets _ _)).
  rewrite (run_bind_Returns _ _ _ _ _ (run_gets _ _)).
  erewrite run_bind_Returns; [|by apply run_store].
  rewrite (run_bind_Returns _ _ _ _ _ (run_gets _ _)).
  erewrite run_bind_Returns;
    [|apply run_store; simpl; by rewrite lookup_insert_ne].
  by rewrite run_modify.
Qed.

(** X11. [clear()] is idempotent: a second [clear()] leaves the object
    exactly as the first one left it. *)
Theorem clear_idempotent self self1 :
  reachable self →
  LRUCache.clear self = Returns (tt, self1) →
  LRUCache.clear self1 = Returns (tt, self1).
Proof.
  intros Hreach Hclear. destruct (reachable_Inv _ Hreach) as [ls HI].
  pose proof (inv_rep _ _ HI) as HR. pose proof HR as [Hnd _ _].
  assert (head self ≠ tail self) as Hne.
  { apply NoDup_cons in Hnd as [Hnd _]. set_solver. }
  assert (is_Some (heap self !! head self)) as [hd Hhd]
    by (eapply Rep_alloc; [done|set_solver]).
  assert (is_Some (heap self !! tail self)) as [td Htd]
    by (eapply Rep_alloc; [done|set_solver]).
  rewrite (clear_explicit self hd td Hne Hhd Htd) in Hclear.
  injection Hclear as <-.
  set (h1 := <[head self := set_next (Some (tail self)) hd]> (heap self)).
  set (h2 := <[tail self := set_prev (Some (head self)) td]> h1).
  assert (h2 !! head self = Some (set_next (Some (tail self)) hd)) as Hhd2.
  { unfold h2, h1. rewrite lookup_insert_ne by done. apply lookup_insert_eq. }
  assert (h2 !! tail self = Some (set_prev (Some (head self)) td)) as Htd2
    by apply lookup_insert_eq.
  set (self1 := mkCache (capacity self) ∅ (set_cache_size 0 (metrics self))
                  (head self) (tail self) h2).
  rewrite (clear_explicit self1 _ _ Hne Hhd2 Htd2). simpl.
  do 3 f_equal.
  rewrite (insert_id h2 (head self)) by exact Hhd2.
  by rewrite insert_id by exact Htd2.
Qed.

End Accounting.

(** ** Which calls write timestamps *)

Section Stamps.
Context {V Time : Type}.
Implicit Types (self : LRUCache V Time) (ls : list loc) (k : string).
Implicit Types (v : option V).

#[local] Abbreviation keeps := (keeps_stamps (V:=V) (Time:=Time)).

Lemma keeps_ret {A} (a : A) : keeps (ret a).
Proof. by intros self a' self' [= _ <-]. Qed.

Lemma keeps_gets {A} (f : LRUCache V Time → A) : keeps (gets f).
Proof. by intros self a' self' [= _ <-]. Qed.

Lemma keeps_bind {A B} (m : M (LRUCache V Time) A)
    (f : A → M (LRUCache V Time) B) :
  keeps m → (∀ a, keeps (f a)) → keeps (m ≫= f).
Proof.
  intros Hm Hf self b self'. rewrite run_bind.
  destruct (m self) as [[a s1]|] eqn:E; [|done].
  intros Hfa l t Hl. eapply Hf; [exact Hfa|]. by eapply Hm.
Qed.

Lemma keeps_load l : keeps (LRUCache.load l).
Proof.
  intros self a self'. unfold LRUCache.load.
  destruct (heap self !! l); [|done]. by intros [= _ <-].
Qed.

Lemma keeps_deref r : keeps (LRUCache.deref r).
Proof. destruct r; [apply keeps_ret|done]. Qed.

Lemma keeps_modify (u : LRUCache V Time → LRUCache V Time) :
  (∀ self, heap (u self) = heap self) → keeps (modify u).
Proof. intros H self a self' [= _ <-] l t. by rewrite H. Qed.

(** An assignment to an attribute other than [timestamp]. *)
Lemma keeps_store l (u : LRUNode V Time → LRUNode V Time) :
  (∀ nd, timestamp (u nd) = timestamp nd) → keeps (LRUCache.store l u).
Proof.
  intros Hu self a self'. unfold LRUCache.store.
  rewrite run_bind. unfold LRUCache.load.
  destruct (heap self !! l) as [nd|] eqn:Hl; [|done].
  intros [= _ <-] l' t. unfold stamp. simpl. rewrite lookup_insert.
  case_decide; [subst l'|done]. rewrite Hl. simpl. by rewrite Hu.
Qed.

Lemma keeps_new_LRUNode k v now : keeps (LRUCache.new_LRUNode k v now).
Proof.
  intros self a self'. unfold LRUCache.new_LRUNode.
  rewrite run_bind, run_gets, run_bind, run_modify.
  intros [= _ <-] l t. unfold stamp. simpl. rewrite lookup_insert.
  case_decide; [subst l|done].
  assert (heap self !! fresh (dom (heap self)) = None) as ->
    by apply not_elem_of_dom, is_fresh.
  done.
Qed.

Lemma keeps_cache_del k : keeps (LRUCache.cache_del k).
Proof.
  intros self a self'. unfold LRUCache.cache_del.
  destruct (cache self !! k); [|done]. by intros [= _ <-].
Qed.

Create HintDb keeps.
#[local] Hint Resolve keeps_ret keeps_gets keeps_load keeps_deref
  keeps_new_LRUNode keeps_cache_del : keeps.
#[local] Hint Extern 1 (keeps_stamps (LRUCache.store _ _)) =>
  apply keeps_store; intros ?; reflexivity : keeps.
#[local] Hint Extern 1 (keeps_stamps (modify _)) =>
  apply keeps_modify; intros ?; reflexivity : keeps.

Ltac keeps_steps :=
  repeat first
    [ solve [auto with keeps]
    | apply keeps_bind; [|intros ?]
    | match goal with
      | |- keeps_stamps (match ?x with _ => _ end) => destruct x
      end ].

Lemma keeps_remove_node l : keeps (LRUCache._remove_node l).
Proof. unfold LRUCache._remove_node. keeps_steps. Qed.

Lemma keeps_add_node l : keeps (LRUCache._add_node l).
Proof. unfold LRUCache._add_node. keeps_steps. Qed.

Lemma keeps_move_to_head l : keeps (LRUCache._move_to_head l).
Proof. unfold LRUCache._move_to_head. keeps_steps. Qed.

Lemma keeps_pop_tail : keeps LRUCache._pop_tail.
Proof. unfold LRUCache._pop_tail. keeps_steps. Qed.

Lemma keeps_evict_if_full : keeps LRUCache.evict_if_full.
Proof. unfold LRUCache.evict_if_full. keeps_steps. Qed.

Lemma keeps_refresh_cache_size : keeps LRUCache.refresh_cache_size.
Proof. unfold LRUCache.refresh_cache_size. keeps_steps. Qed.

#[local] Hint Resolve keeps_refresh_cache_size : keeps.

Lemma keeps_get k : keeps (LRUCache.get k).
Proof. unfold LRUCache.get. keeps_steps. Qed.

Lemma keeps_delete k : keeps (LRUCache.delete k).
Proof. unfold LRUCache.delete. keeps_steps. Qed.

Lemma keeps_clear : keeps LRUCache.clear.
Proof. unfold LRUCache.clear. keeps_steps. Qed.

(** X13. Only [put] writes timestamps: [get], [delete], [clear], [size]
    and [get_metrics] leave every node of the store with the timestamp it
    has. In particular a [get] does not refresh the timestamp of the entry
    it returns. *)
Theorem only_put_writes_timestamps self now (o : op V) r self' :
  (∀ k v, o ≠ Put k v) →
  LRUCache.call now o self = Returns (r, self') →
  ∀ l t, stamp (heap self) l = Some t → stamp (heap self') l = Some t.
Proof.
  intros Ho Hcall.
  assert (keeps (LRUCache.call now o)) as Hkeeps; [|by eapply Hkeeps].
  destruct o as [k|k v|k| | |]; simpl;
    [|by destruct (Ho k v)|..];
    unfold LRUCache.get, LRUCache.delete, LRUCache.clear, LRUCache.size,
      LRUCache.get_metrics, LRUCache.refresh_cache_size;
    keeps_steps.
Qed.

(** X12. [put(k, v)] stores the reading of the clock in the node of [k],
    for a new key and for an update alike, and leaves the timestamp of
    every other node of the store as it is. *)
Theorem put_stamps_now self now k v b self' :
  LRUCache.put now k v self = Returns (b, self') →
  (∃ l : loc, cache self' !! k = Some l
              ∧ stamp (heap self') l = Some now)
  ∧ (∀ (l : loc) t, stamp (heap self) l = Some t →
       cache self !! k ≠ Some l →
       stamp (heap self') l = Some t).
Proof.
  unfold LRUCache.put. rewrite run_bind, run_gets.
  destruct (cache self !! k) as [node|] eqn:Hk.
  - rewrite run_bind.
    destruct (LRUCache.store node (set_value v) self) as [[[] s1]|] eqn:E1;
      [|done].
    rewrite run_bind.
    destruct (LRUCache.store node (set_timestamp now) s1) as [[[] s2]|] eqn:E2;
      [|done].
    rewrite run_bind.
    destruct (LRUCache._move_to_head node s2) as [[[] s3]|] eqn:E3; [|done].
    intros [= <- <-].
    pose proof (heap_only_store _ _ _ _ _ E1) as [C1 _].
    pose proof (heap_only_store _ _ _ _ _ E2) as [C2 _].
    assert (cache s3 = cache s2) as C3.
    { unfold LRUCache._move_to_head in E3. rewrite run_bind in E3.
      destruct (LRUCache._remove_node node s2) as [[[] sa]|] eqn:Ea; [|done].
      apply heap_only_remove_node in Ea as [Ca _].
      apply heap_only_add_node in E3 as [Cb _]. congruence. }
    pose proof (keeps_store node (set_value v) (λ _, eq_refl) _ _ _ E1) as K1.
    unfold LRUCache.store in E2. rewrite run_bind in E2.
    unfold LRUCache.load in E2.
    destruct (heap s1 !! node) as [nd|] eqn:Hnd; [|done].
    injection E2 as <-.
    split.
    + exists node. split; [congruence|].
      eapply keeps_move_to_head; [exact E3|].
      unfold stamp. simpl. by rewrite lookup_insert_eq.
    + intros l t Hl Hne.
      eapply keeps_move_to_head; [exact E3|].
      unfold stamp. simpl. rewrite lookup_insert_ne by congruence.
      by apply K1.
  - rewrite run_bind.
    destruct (LRUCache.new_LRUNode k v now self) as [[new_node s1]|] eqn:E1;
      [|done].
    rewrite run_bind.
    destruct (LRUCache.evict_if_full s1) as [[[] s2]|] eqn:E2; [|done].
    rewrite run_bind, run_modify, run_bind.
    destruct (LRUCache._add_node new_node _) as [[[] s4]|] eqn:E4; [|done].
    unfold LRUCache.refresh_cache_size. rewrite run_bind, !run_modify.
    intros [= <- <-]. simpl.
    pose proof (heap_only_add_node _ _ _ _ E4) as [C4 _]. simpl in C4.
    assert (∀ l t, stamp (heap s1) l = Some t → stamp (heap s4) l = Some t)
      as K.
    { intros l t Hl. eapply keeps_add_node; [exact E4|]. simpl.
      by eapply keeps_evict_if_full. }
    split.
    + exists new_node. split; [by rewrite C4, lookup_insert_eq|].
      apply K. unfold LRUCache.new_LRUNode in E1.
      rewrite run_bind, run_gets, run_bind, run_modify in E1.
      injection E1 as <- <-. unfold stamp. simpl.
      by rewrite lookup_insert_eq.
    + intros l t Hl _. apply K. by eapply keeps_new_LRUNode.
Qed.

End Stamps.

(** ** The cache is a list in recency order *)

Section Refinement.
Context {V Time : Type}.
Implicit Types (self : LRUCache V Time) (ls : list loc) (k : string).
Implicit Types (v : option V) (al : list (string * option V)).

Lemma assoc_None k al : k ∉ al.*1 → assoc k al = None.
Proof.
  induction al as [|[k' v'] al IH]; [done|]. simpl.
  intros Hk. apply not_elem_of_cons in Hk as [Hne Hk].
  rewrite decide_False by done. by apply IH.
Qed.

Lemma without_notin k al : k ∉ al.*1 → without k al = al.
Proof.
  induction al as [|[k' v'] al IH]; [done|]. simpl.
  intros Hk. apply not_elem_of_cons in Hk as [Hne Hk].
  unfold without in *. rewrite filter_cons_True by (simpl; congruence).
  by rewrite IH.
Qed.

Lemma assoc_middle k v al1 al2 :
  k ∉ al1.*1 → assoc k (al1 ++ (k, v) :: al2) = Some v.
Proof.
  induction al1 as [|[k' v'] al1 IH]; simpl.
  - intros _. by rewrite decide_True.
  - intros Hk. apply not_elem_of_cons in Hk as [Hne Hk].
    rewrite decide_False by done. by apply IH.
Qed.

Lemma without_middle k v al1 al2 :
  k ∉ al1.*1 → k ∉ al2.*1 →
  without k (al1 ++ (k, v) :: al2) = al1 ++ al2.
Proof.
  intros H1 H2. unfold without. rewrite filter_app, filter_cons_False.
  - fold (without k al1) (without k al2).
    by rewrite !without_notin.
  - simpl. by intros ?.
Qed.

(** The keys around a node of the list are other keys. *)
Lemma Rep_keys_apart self pre (l : loc) post :
  Rep self (pre ++ l :: post) →
  (entry (heap self) l).1 ∉ (view self pre).*1
  ∧ (entry (heap self) l).1 ∉ (view self post).*1.
Proof.
  intros HR. pose proof (Rep_keys_NoDup _ _ HR) as Hnd.
  rewrite view_app, fmap_app in Hnd. unfold view at 2 in Hnd. simpl in Hnd.
  apply NoDup_app in Hnd as (_ & Hnd1 & Hnd2).
  apply NoDup_cons in Hnd2 as [Hnd2 _]. split; [|done].
  intros Hin. apply (Hnd1 _ Hin). left.
Qed.

Lemma view_cons self (l : loc) ls :
  view self (l :: ls) = entry (heap self) l :: view self ls.
Proof. done. Qed.

Lemma view_length self ls : length (view self ls) = length ls.
Proof. unfold view. by rewrite length_fmap. Qed.

Lemma view_split self pre (l : loc) post k :
  Rep self (pre ++ l :: post) →
  cache self !! k = Some l →
  ∃ vl, entry (heap self) l = (k, vl)
        ∧ view self (pre ++ l :: post)
          = view self pre ++ (k, vl) :: view self post
        ∧ k ∉ (view self pre).*1
        ∧ k ∉ (view self post).*1.
Proof.
  intros HR Hk.
  pose proof (rep_table _ _ HR k l) as [Hin _].
  destruct (Hin Hk) as [_ Hkey].
  destruct (Rep_keys_apart _ _ _ _ HR) as [Hpre Hpost].
  rewrite Hkey in Hpre, Hpost.
  destruct (entry (heap self) l) as [k0 vl] eqn:El. simpl in Hkey. subst k0.
  exists vl. split; [done|]. split; [|done].
  by rewrite view_app, view_cons, El.
Qed.

(** One call on the cache and on the list. *)
Lemma call_refines self ls now (o : op V) :
  Inv self ls →
  ∃ r self' ls',
    LRUCache.call now o self = Returns (r, self')
    ∧ Inv self' ls'
    ∧ capacity self' = capacity self
    ∧ list_call (capacity self) o (view self ls, metrics self)
      = (r, (view self' ls', metrics self')).
Proof.
  intros HI. pose proof HI as [HR Hc Hlen Hreq Hmax].
  pose proof (Rep_size _ _ HR) as Hsz.
  destruct o as [k|k v|k| | |]; unfold list_call.
  - (* get *)
    destruct (cache self !! k) as [l|] eqn:Hk.
    + pose proof (rep_table _ _ HR k l) as [Hin _].
      destruct (Hin Hk) as [Hl _].
      apply list_elem_of_split in Hl as (pre & post & ->).
      destruct (view_split _ _ _ _ _ HR Hk) as (vl & El & Hv & Hpre & Hpost).
      destruct (get_hit_spec self pre l post k HR Hk)
        as (h' & Hrun & HR' & _ & Hent).
      eexists _, _, (l :: pre ++ post).
      split; [simpl; by rewrite (run_bind_Returns _ _ _ _ _ Hrun)|].
      split.
      { split; [exact HR'|done| |simpl; lia|done].
        simpl capacity. rewrite length_app in *. simpl length in *.
        rewrite length_app. lia. }
      split; [done|].
      rewrite Hv, assoc_middle, without_middle by done.
      rewrite El, view_cons. simpl heap. rewrite Hent, El.
      do 3 f_equal. rewrite <-view_app. symmetry.
      apply (view_ext self). intros x _. apply Hent.
    + eexists _, _, ls.
      split; [simpl; by rewrite (run_bind_Returns _ _ _ _ _
                                   (get_miss_spec _ _ Hk))|].
      split; [split; simpl; [by apply Rep_with_metrics|done|done|lia|done]|].
      split; [done|].
      apply (Rep_lookup_None _ _ _ HR) in Hk. by rewrite assoc_None.
  - (* put *)
    destruct (cache self !! k) as [l|] eqn:Hk.
    + pose proof (rep_table _ _ HR k l) as [Hin _].
      destruct (Hin Hk) as [Hl _].
      apply list_elem_of_split in Hl as (pre & post & ->).
      destruct (view_split _ _ _ _ _ HR Hk) as (vl & El & Hv & Hpre & Hpost).
      destruct (put_update_spec self pre l post now k v HR Hk)
        as (h' & Hrun & HR' & _ & Hent & Hents).
      eexists _, _, (l :: pre ++ post).
      split; [simpl; by rewrite (run_bind_Returns _ _ _ _ _ Hrun)|].
      split.
      { split; [exact HR'|done| |simpl; lia|done].
        simpl capacity. rewrite length_app in *. simpl length in *.
        rewrite length_app. lia. }
      split; [done|].
      rewrite Hv, assoc_middle, without_middle by done.
      rewrite view_cons. simpl heap. rewrite Hent.
      do 3 f_equal. rewrite <-view_app. symmetry.
      apply (view_ext self). intros x Hx.
      apply Hents. intros ->.
      pose proof (Rep_NoDup _ _ HR) as Hnd.
      apply NoDup_app in Hnd as (_ & Hnd1 & Hnd2).
      apply NoDup_cons in Hnd2 as [Hnd2 _].
      apply elem_of_app in Hx as [Hx|Hx]; [|done].
      apply (Hnd1 _ Hx). left.
    + apply (Rep_lookup_None _ _ _ HR) in Hk as Hnotin.
      rewrite (assoc_None _ _ Hnotin), view_length, <-Hsz.
      destruct (decide (capacity self ≤ Z.of_nat (size (cache self)))%Z)
        as [Hf|Hf]; fold (is_full self) in Hf.
      * rewrite bool_decide_eq_true_2 by done.
        assert (ls ≠ []) as Hne.
        { intros ->. unfold is_full in Hf. rewrite Hsz in Hf. simpl in *. lia. }
        destruct (exists_last Hne) as (ls0 & last & ->).
        destruct (put_new_evict_spec self ls0 last now k v HR Hk Hf)
          as (h' & Hrun & HR' & Hent & Hents).
        eexists _, _, (_ :: ls0).
        split; [simpl; by rewrite (run_bind_Returns _ _ _ _ _ Hrun)|].
        split.
        { split; [exact HR'|done| |simpl; lia|done].
          simpl capacity. rewrite length_app in Hlen. simpl length in *. lia. }
        split; [done|].
        rewrite view_app, view_cons.
        change (view self []) with (@nil (string * option V)).
        rewrite removelast_last.
        rewrite view_cons. simpl heap. rewrite Hent.
        assert (view (mkCache _ _ _ _ _ h') ls0 = view self ls0) as ->.
        { apply (view_ext self). intros x Hx. apply Hents. set_solver. }
        do 3 f_equal. simpl metrics. cbv zeta.
        pose proof (Rep_size _ _ HR') as Hsz'. simpl cache in Hsz'.
        rewrite Hsz'. simpl length. by rewrite view_length.
      * rewrite bool_decide_eq_false_2 by done.
        destruct (put_new_spec self ls now k v HR Hk Hf)
          as (h' & Hrun & HR' & Hent & Hents).
        eexists _, _, (_ :: ls).
        split; [simpl; by rewrite (run_bind_Returns _ _ _ _ _ Hrun)|].
        split.
        { split; [exact HR'|done| |simpl; lia|done].
          simpl capacity. unfold is_full in Hf. rewrite Hsz in Hf.
          simpl length. lia. }
        split; [done|].
        rewrite view_cons. simpl heap. rewrite Hent.
        assert (view (mkCache _ _ _ _ _ h') ls = view self ls) as ->
          by by apply (view_ext self).
        do 3 f_equal. simpl metrics. cbv zeta.
        pose proof (Rep_size _ _ HR') as Hsz'. simpl cache in Hsz'.
        rewrite Hsz'. simpl length. by rewrite view_length.
  - (* delete *)
    destruct (cache self !! k) as [l|] eqn:Hk.
    + pose proof (rep_table _ _ HR k l) as [Hin _].
      destruct (Hin Hk) as [Hl _].
      apply list_elem_of_split in Hl as (pre & post & ->).
      destruct (view_split _ _ _ _ _ HR Hk) as (vl & El & Hv & Hpre & Hpost).
      destruct (delete_hit_spec self pre l post k HR Hk)
        as (h' & Hrun & HR' & _ & Hent).
      eexists _, _, (pre ++ post).
      split; [simpl; by rewrite (run_bind_Returns _ _ _ _ _ Hrun)|].
      split.
      { split; [exact HR'|done| |simpl; lia|done].
        simpl capacity. rewrite length_app in *. simpl length in *. lia. }
      split; [done|].
      rewrite Hv, assoc_middle, without_middle by done.
      rewrite <-view_app.
      assert (view (mkCache _ _ _ _ _ h') (pre ++ post)
              = view self (pre ++ post)) as ->
        by (apply (view_ext self); intros x _; apply Hent).
      do 3 f_equal. simpl metrics. cbv zeta.
      pose proof (Rep_size _ _ HR') as Hsz'. simpl cache in Hsz'.
      rewrite Hsz'. by rewrite view_length.
    + eexists _, _, ls.
      split; [simpl; by rewrite (run_bind_Returns _ _ _ _ _
                                   (delete_miss_spec _ _ Hk))|].
      split; [done|]. split; [done|].
      apply (Rep_lookup_None _ _ _ HR) in Hk. by rewrite assoc_None.
  - (* clear *)
    destruct (clear_spec self ls HR) as (h' & Hrun & HR' & _).
    eexists _, _, [].
    split; [simpl; by rewrite (run_bind_Returns _ _ _ _ _ Hrun)|].
    split.
    { split; [exact HR'|done|simpl; lia|simpl; lia|done]. }
    done.
  - (* size *)
    eexists _, _, ls. split; [done|]. split; [done|]. split; [done|].
    by rewrite view_length, Hsz.
  - (* get_metrics *)
    eexists _, _, ls. split; [done|].
    split.
    { split; simpl; [by apply Rep_with_metrics|done|done|lia|done]. }
    split; [done|]. simpl.
    by rewrite view_length, Hsz.
Qed.

Lemma run_refines self ls (script : list (Time * op V)) :
  Inv self ls →
  ∃ rs self' ls',
    LRUCache.run script self = Returns (rs, self')
    ∧ Inv self' ls'
    ∧ list_run (capacity self) script.*2 (view self ls, metrics self)
      = (rs, (view self' ls', metrics self')).
Proof.
  revert self ls. induction script as [|[now o] script IH]; intros self ls HI.
  - exists [], self, ls. done.
  - destruct (call_refines self ls now o HI)
      as (r & s1 & ls1 & Hcall & HI1 & Hcap1 & Hlist).
    destruct (IH s1 ls1 HI1) as (rs & s2 & ls2 & Hrun & HI2 & Hlrun).
    exists (r :: rs), s2, ls2. split; [|split; [done|]].
    + simpl. rewrite (run_bind_Returns _ _ _ _ _ Hcall).
      by rewrite (run_bind_Returns _ _ _ _ _ Hrun).
    + change (list_run (capacity self) ((now, o) :: script).*2
                (view self ls, metrics self))
        with (let '(r, st') := list_call (capacity self) o
                                 (view self ls, metrics self) in
              let '(rs, st'') := list_run (capacity self) script.*2 st' in
              (r :: rs, st'')).
      rewrite Hlist, <-Hcap1. by rewrite Hlrun.
Qed.

(** X8. A constructed cache is, for its clients, a list of pairs of keys
    and values in recency order: whatever the calls, their results and the
    counters are those of the list [list_run] computes, and the nodes
    of the recency list hold the pairs of that list, in its order. *)
Theorem cache_refines_list (c : Z) (t_head t_tail : Time)
    (script : list (Time * op V)) :
  (0 < c)%Z →
  ∃ rs self al,
    session c t_head t_tail script = Returns (rs, self)
    ∧ list_run c script.*2 ([], mkMetrics 0 0 0 0 0 c)
      = (rs, (al, metrics self))
    ∧ recency_entries self = Some al.
Proof.
  intros Hc. unfold session.
  destruct (init_spec (V:=V) c t_head t_tail Hc) as (lh & lt & hp & E & _).
  rewrite E. destruct (init_Inv _ _ _ _ E) as (HI & _).
  destruct (run_refines _ _ script HI) as (rs & self & ls & Hrun & HI' & Hl).
  exists rs, self, (view self ls). split; [exact Hrun|].
  split; [exact Hl|]. by apply Rep_recency_entries, inv_rep.
Qed.

End Refinement.

(** ** The product page cache *)

Section ProductPages.
Context {V Time : Type}.

(** X14. A [ProductPageCache] is built exactly when the capacity is
    positive, the [ValueError] of the [LRUCache] it builds reaching the
    caller otherwise; and a product stored with [cache_product] is what
    [get_product] returns for the same identifier right after. *)
Theorem product_page_round_trip (c : Z) (t_head t_tail : Time) :
  ((c ≤ 0)%Z →
   ProductPageCache.__init__ (V:=V) c t_head t_tail
   = Raises (ValueError "Capacity must be greater than 0"))
  ∧ ((0 < c)%Z →
     ∃ pp, ProductPageCache.__init__ (V:=V) c t_head t_tail = Returns pp
           ∧ reachable (ProductPageCache.cache pp))
  ∧ (∀ (pp : ProductPageCache.t V Time) now product_id product_data,
       reachable (ProductPageCache.cache pp) →
       ∃ b pp1 pp2,
         ProductPageCache.cache_product now product_id product_data pp
         = Returns (b, pp1)
         ∧ reachable (ProductPageCache.cache pp1)
         ∧ ProductPageCache.get_product product_id pp1
           = Returns (product_data, pp2)
         ∧ reachable (ProductPageCache.cache pp2)).
Proof.
  split_and!.
  - intros Hc. unfold ProductPageCache.__init__. by rewrite init_fails.
  - intros Hc. unfold ProductPageCache.__init__.
    destruct (init_spec (V:=V) c t_head t_tail Hc) as (lh & lt & hp & E & _).
    rewrite E. eexists. split; [done|]. simpl. by eapply reachable_init.
  - intros [self] now k v Hreach. simpl in Hreach.
    destruct (reachable_Inv _ Hreach) as [ls HI].
    destruct (put_binds self ls now k v HI)
      as (b & self1 & ls1 & l & Hput & HI1 & Hl & Hk & Hent & _).
    apply list_elem_of_split in Hl as (pre & post & ->).
    destruct (get_hit_spec self1 pre l post k (inv_rep _ _ HI1) Hk)
      as (h' & Hget & _).
    rewrite Hent in Hget.
    assert (reachable self1) as Hreach1.
    { eapply (reachable_call _ now (Put k v)); [exact Hreach|]. simpl.
      by rewrite (run_bind_Returns _ _ _ _ _ Hput). }
    eexists b, (ProductPageCache.mk self1), (ProductPageCache.mk _).
    unfold ProductPageCache.cache_product, ProductPageCache.get_product,
      ProductPageCache.on_cache. simpl.
    rewrite Hput, Hget. split_and!; [done|done|done|].
    eapply (reachable_call _ now (Get k)); [exact Hreach1|]. simpl.
    by rewrite (run_bind_Returns _ _ _ _ _ Hget).
Qed.

End ProductPages.

(** ** The properties of the methods on concrete sessions *)

Lemma get_hit_moves_to_front_witness :
  ∃ (self self' : LRUCache string Z) (l : loc),
    reachable self
    ∧ cache self !! "a" = Some l
    ∧ LRUCache.get "a" self = Returns (Some "1", self')
    ∧ metrics self' = count_hit (metrics self)
    ∧ cache self' = cache self.
Proof.
  destruct (session_total (V:=string) 2 0%Z 0%Z two_puts)
    as (rs & self & Hs & Hr); [lia|].
  vm_compute in Hs. injection Hs as _ Hs.
  assert (cache self !! "a" = Some 2) as Hk
    by (rewrite <-Hs; vm_compute; reflexivity).
  destruct (get_hit_moves_to_front self "a" 2 Hr Hk)
    as (self' & pre & post & Hget & Hm & Hc & _).
  assert ((entry (heap self) 2).2 = Some "1") as E
    by (rewrite <-Hs; vm_compute; reflexivity).
  rewrite E in Hget.
  exists self, self', 2. split_and!; [exact Hr|exact Hk|exact Hget|exact Hm
                                    |exact Hc].
Defined.

Lemma delete_removes_exactly_witness :
  ∃ (self self' : LRUCache string Z),
    reachable self
    ∧ LRUCache.delete "z" self = Returns (false, self)
    ∧ LRUCache.delete "a" self = Returns (true, self')
    ∧ cache self' = delete "a" (cache self)
    ∧ size (cache self') = pred (size (cache self)).
Proof.
  destruct (session_total (V:=string) 2 0%Z 0%Z two_puts)
    as (rs & self & Hs & Hr); [lia|].
  vm_compute in Hs. injection Hs as _ Hs.
  assert (cache self !! "a" = Some 2) as Hk
    by (rewrite <-Hs; vm_compute; reflexivity).
  assert (cache self !! "z" = None) as Hz
    by (rewrite <-Hs; vm_compute; reflexivity).
  destruct (delete_removes_exactly self "z" Hr) as [Hmiss _].
  destruct (delete_removes_exactly self "a" Hr) as [_ Hhit].
  destruct (Hhit 2 Hk) as (self' & pre & post & Hdel & Hc & Hsz & _).
  exists self, self'. split_and!; [exact Hr|exact (Hmiss Hz)|exact Hdel
                                  |exact Hc|exact Hsz].
Defined.

Lemma put_new_with_room_witness :
  ∃ (self self' : LRUCache string Z) (lnew : loc),
    reachable self
    ∧ cache self !! "c" = None
    ∧ ¬ is_full self
    ∧ LRUCache.put 3%Z "c" (Some "3") self = Returns (true, self')
    ∧ cache self' = <[("c" : string) := lnew]> (cache self)
    ∧ evictions (metrics self') = evictions (metrics self).
Proof.
  destruct (session_total (V:=string) 3 0%Z 0%Z two_puts)
    as (rs & self & Hs & Hr); [lia|].
  vm_compute in Hs. injection Hs as _ Hs.
  assert (cache self !! "c" = None) as Hk
    by (rewrite <-Hs; vm_compute; reflexivity).
  assert (¬ is_full self) as Hnf.
  { rewrite <-Hs. vm_compute. intros H. by apply H. }
  destruct (put_new_with_room self 3%Z "c" (Some "3") Hr Hk Hnf)
    as (self' & lnew & ls & Hput & Hc & _ & _ & _ & _ & _ & Hev & _).
  exists self, self', lnew.
  split_and!; [exact Hr|exact Hk|exact Hnf|exact Hput|exact Hc|exact Hev].
Defined.

Lemma put_then_get_witness :
  ∃ (self self1 self2 : LRUCache string Z) b,
    reachable self
    ∧ LRUCache.put 3%Z "c" (Some "3") self = Returns (b, self1)
    ∧ LRUCache.get "c" self1 = Returns (Some "3", self2).
Proof.
  destruct (session_total (V:=string) 2 0%Z 0%Z two_puts)
    as (rs & self & Hs & Hr); [lia|].
  destruct (put_then_get self 3%Z "c" (Some "3") Hr)
    as (b & self1 & self2 & Hput & Hget & _).
  exists self, self1, self2, b. split_and!; [exact Hr|exact Hput|exact Hget].
Defined.

Lemma capacity_one_keeps_last_witness :
  ∃ (self self' : LRUCache string Z) b,
    reachable self
    ∧ capacity self = 1%Z
    ∧ LRUCache.put 3%Z "c" (Some "3") self = Returns (b, self')
    ∧ dom (cache self') = {["c"]}.
Proof.
  destruct (session_total (V:=string) 1 0%Z 0%Z two_puts)
    as (rs & self & Hs & Hr); [lia|].
  vm_compute in Hs. injection Hs as _ Hs.
  assert (capacity self = 1%Z) as Hc by (by rewrite <-Hs).
  destruct (capacity_one_keeps_last self 3%Z "c" (Some "3") Hr Hc)
    as (b & self' & Hput & Hdom).
  exists self, self', b. split_and!; [exact Hr|exact Hc|exact Hput|exact Hdom].
Defined.

Lemma delete_frees_slot_witness :
  ∃ (self self1 self2 : LRUCache string Z),
    reachable self
    ∧ is_full self
    ∧ is_Some (cache self !! "a")
    ∧ cache self !! "c" = None
    ∧ LRUCache.delete "a" self = Returns (true, self1)
    ∧ LRUCache.put 3%Z "c" (Some "3") self1 = Returns (true, self2)
    ∧ evictions (metrics self2) = evictions (metrics self).
Proof.
  destruct (session_total (V:=string) 2 0%Z 0%Z two_puts)
    as (rs & self & Hs & Hr); [lia|].
  vm_compute in Hs. injection Hs as _ Hs.
  assert (is_full self) as Hf by (rewrite <-Hs; by vm_compute).
  assert (is_Some (cache self !! "a")) as Hk
    by (rewrite <-Hs; vm_compute; eauto).
  assert (cache self !! "c" = None) as Hk'
    by (rewrite <-Hs; vm_compute; reflexivity).
  destruct (delete_frees_slot self 3%Z "a" "c" (Some "3") Hr Hk Hk')
    as (self1 & self2 & Hdel & Hput & Hev & _).
  exists self, self1, self2.
  split_and!; [exact Hr|exact Hf|exact Hk|exact Hk'|exact Hdel|exact Hput
              |exact Hev].
Defined.

Lemma cache_size_accurate_witness :
  ∃ self : LRUCache string Z,
    reachable self
    ∧ cache_size (metrics self) = Z.of_nat (size (cache self))
    ∧ LRUCache.get_metrics self = Returns (metrics self, self).
Proof.
  destruct (session_total (V:=string) 2 0%Z 0%Z
              (two_puts ++ [(3%Z, Get "a"); (4%Z, Delete "b")]))
    as (rs & self & Hs & Hr); [lia|].
  destruct (cache_size_accurate self Hr) as (H1 & _ & _ & H2).
  exists self. split_and!; [exact Hr|exact H1|exact H2].
Defined.

Lemma counters_never_decrease_witness :
  ∃ (self self' : LRUCache string Z) r,
    reachable self
    ∧ LRUCache.call 3%Z (Get "a") self = Returns (r, self')
    ∧ (0 ≤ hits (metrics self) ≤ hits (metrics self'))%Z
    ∧ (0 ≤ evictions (metrics self) ≤ evictions (metrics self'))%Z.
Proof.
  destruct (session_total (V:=string) 2 0%Z 0%Z two_puts)
    as (rs & self & Hs & Hr); [lia|].
  vm_compute in Hs. injection Hs as _ Hs.
  assert (∃ r self', LRUCache.call 3%Z (Get "a") self = Returns (r, self'))
    as (r & self' & Hcall)
    by (rewrite <-Hs; vm_compute; eauto).
  destruct (counters_never_decrease self 3%Z (Get "a") r self' Hr Hcall)
    as (H1 & _ & H3 & _).
  exists self, self', r.
  split; [exact Hr|split; [exact Hcall|split; [exact H1|exact H3]]].
Defined.

Lemma size_accounting_witness :
  ∃ (self0 self : LRUCache string Z) rs,
    reachable self0
    ∧ Forall (λ p : Z * op string, p.2 ≠ Clear)
             [(3%Z, Put "c" (Some "3")); (4%Z, Delete "b");
              (5%Z, Delete "z")]
    ∧ LRUCache.run [(3%Z, Put "c" (Some "3")); (4%Z, Delete "b");
                    (5%Z, Delete "z")] self0
      = Returns (rs, self)
    ∧ (Z.of_nat (size (cache self))
       = Z.of_nat (size (cache self0)) + net_inserted rs
         - (evictions (metrics self) - evictions (metrics self0)))%Z.
Proof.
  destruct (session_total (V:=string) 2 0%Z 0%Z two_puts)
    as (rs0 & self0 & Hs & Hr); [lia|].
  vm_compute in Hs. injection Hs as _ Hs.
  assert (∃ rs self,
            LRUCache.run [(3%Z, Put "c" (Some "3")); (4%Z, Delete "b");
                          (5%Z, Delete "z")] self0
            = Returns (rs, self)) as (rs & self & Hrun)
    by (rewrite <-Hs; vm_compute; eauto).
  assert (Forall (λ p : Z * op string, p.2 ≠ Clear)
            [(3%Z, Put "c" (Some "3")); (4%Z, Delete "b");
             (5%Z, Delete "z")]) as Hnc
    by (repeat constructor; simpl; discriminate).
  exists self0, self, rs.
  split_and!; [exact Hr|exact Hnc|exact Hrun|].
  exact (size_accounting _ self0 rs self Hr Hnc Hrun).
Defined.

Lemma clear_idempotent_witness :
  ∃ (self self1 : LRUCache string Z),
    reachable self
    ∧ LRUCache.clear self = Returns (tt, self1)
    ∧ LRUCache.clear self1 = Returns (tt, self1).
Proof.
  destruct (session_total (V:=string) 2 0%Z 0%Z two_puts)
    as (rs & self & Hs & Hr); [lia|].
  vm_compute in Hs. injection Hs as _ Hs.
  assert (∃ self1, LRUCache.clear self = Returns (tt, self1))
    as (self1 & Hclear)
    by (rewrite <-Hs; vm_compute; eauto).
  exists self, self1. split_and!; [exact Hr|exact Hclear|].
  exact (clear_idempotent self self1 Hr Hclear).
Defined.

Lemma only_put_writes_timestamps_witness :
  ∃ (self self' : LRUCache string Z) r,
    LRUCache.call 9%Z (Get "a") self = Returns (r, self')
    ∧ stamp (heap self) 2 = Some 1%Z
    ∧ stamp (heap self') 2 = Some 1%Z.
Proof.
  destruct (session_total (V:=string) 2 0%Z 0%Z two_puts)
    as (rs & self & Hs & Hr); [lia|].
  vm_compute in Hs. injection Hs as _ Hs.
  assert (∃ r self', LRUCache.call 9%Z (Get "a") self = Returns (r, self'))
    as (r & self' & Hcall)
    by (rewrite <-Hs; vm_compute; eauto).
  assert (stamp (heap self) 2 = Some 1%Z) as Hst
    by (rewrite <-Hs; vm_compute; reflexivity).
  exists self, self', r. split_and!; [exact Hcall|exact Hst|].
  apply (only_put_writes_timestamps self 9%Z (Get "a") r self');
    [discriminate|exact Hcall|exact Hst].
Defined.

Lemma put_stamps_now_witness :
  ∃ (self self' : LRUCache string Z) b (l : loc),
    LRUCache.put 9%Z "a" (Some "7") self = Returns (b, self')
    ∧ cache self' !! "a" = Some l
    ∧ stamp (heap self') l = Some 9%Z.
Proof.
  destruct (session_total (V:=string) 2 0%Z 0%Z two_puts)
    as (rs & self & Hs & Hr); [lia|].
  vm_compute in Hs. injection Hs as _ Hs.
  assert (∃ b self', LRUCache.put 9%Z "a" (Some "7") self = Returns (b, self'))
    as (b & self' & Hput)
    by (rewrite <-Hs; vm_compute; eauto).
  destruct (put_stamps_now self 9%Z "a" (Some "7") b self' Hput)
    as [(l & Hk & Hst) _].
  exists self, self', b, l. split_and!; [exact Hput|exact Hk|exact Hst].
Defined.

Lemma cache_refines_list_witness :
  (0 < 2)%Z
  ∧ ∃ (rs : list (result string)) (self : LRUCache string Z) al,
      session 2 0%Z 0%Z (two_puts ++ [(3%Z, Get "a"); (4%Z, Put "c" None)])
      = Returns (rs, self)
      ∧ list_run 2 (two_puts ++ [(3%Z, Get "a"); (4%Z, Put "c" None)]).*2
          ([], mkMetrics 0 0 0 0 0 2)
        = (rs, (al, metrics self))
      ∧ recency_entries self = Some al.
Proof.
  split; [lia|].
  apply (cache_refines_list (V:=string) 2 0%Z 0%Z). lia.
Defined.

Lemma product_page_round_trip_witness :
  (0 < 3)%Z
  ∧ ∃ (pp pp1 pp2 : ProductPageCache.t string Z) b,
      ProductPageCache.__init__ 3 0%Z 0%Z = Returns pp
      ∧ ProductPageCache.cache_product 1%Z "p1" (Some "Laptop") pp
        = Returns (b, pp1)
      ∧ ProductPageCache.get_product "p1" pp1
        = Returns (Some "Laptop", pp2).
Proof.
  split; [lia|].
  destruct (product_page_round_trip (V:=string) 3 0%Z 0%Z)
    as (_ & Hinit & Hrt).
  destruct Hinit as (pp & Hpp & Hr); [lia|].
  destruct (Hrt pp 1%Z "p1" (Some "Laptop") Hr)
    as (b & pp1 & pp2 & Hput & _ & Hget & _).
  exists pp, pp1, pp2, b. split_and!; [exact Hpp|exact Hput|exact Hget].
Defined.
